(** * state.js: a shallow embedding of the hierarchical state machine runtime

    The development follows [src/state.js].  JavaScript objects live in a
    heap addressed by object identity; every constructor and every prototype
    method of the source is a function in a monad that threads the heap,
    collects what the program makes observable (console lines and calls of the
    user's callbacks) and propagates exceptions.  Methods that call each other
    through the heap take a bound on the depth of nested calls.

    The user's callbacks are opaque.  An action is known by a label and a call
    of it is an event of the trace, recorded with the heap the action can see
    at that moment; actions neither write to the model nor raise.  A guard is
    a total function of what it is given: the message for a Transition,
    nothing for a Completion. *)

From Stdlib Require Import String List Arith Lia.
From stdpp Require Import base option list gmap strings.

Open Scope string_scope.
Open Scope list_scope.

(** ** Values and observable events *)

(** Object identity: the address of a JavaScript object. *)
Definition ref := nat.

(** Messages are opaque to the library; guards inspect them. *)
Definition Message := string.

(** A user callback (entry, exit or effect action), known by its label.
    The library never looks inside an action, it only calls it. *)
Definition Action := string.

Inductive Event :=
| LogEnter (node : ref)                        (* console.log( "Enter: " + node ) *)
| LogLeave (node : ref)                        (* console.log( "Leave: " + node ) *)
| Call (action : Action) (arg : option Message). (* action() or action( message ) *)

(** What a [Process] method hands back: [true], [false] or nothing. *)
Inductive JSVal := VUndefined | VBool (b : bool).

(** [v === true] *)
Definition strict_eq_true (v : JSVal) : bool :=
  match v with VBool true => true | _ => false end.

(** ** The classes of the source, one record per class *)

Module PseudoStateKind.
Inductive t := DeepHistory | EntryPoint | ExitPoint | Initial | ShallowHistory.

Definition IsInitial (k : t) : bool :=
  match k with
  | DeepHistory => true | EntryPoint => true | ExitPoint => false
  | Initial => true | ShallowHistory => true
  end.

Definition IsHistory (k : t) : bool :=
  match k with
  | DeepHistory => true | EntryPoint => false | ExitPoint => false
  | Initial => false | ShallowHistory => true
  end.
End PseudoStateKind.

(** The object [Path( source, target )] returns.  Its closures are kept as the
    node each one closes over: an element of [Exit] calls [OnExit] on its node
    ([None] is a closure over [undefined]), an element of [Enter] calls
    [BeginEnter], and [Complete] calls [EndEnter] on the target. *)
Module PathObj.
Record t := mk { Exit : list (option ref); Enter : list ref; Complete : ref }.
End PathObj.

Module Completion.
(** [Guard] takes no argument in the source; a pure guard is its value. *)
Record t := mk { Guard : bool; Path : PathObj.t; Effect : list Action }.
Definition push_Effect (a : Action) (c : t) : t :=
  mk (Guard c) (Path c) (Effect c ++ [a]).
End Completion.

Module Transition.
Record t := mk { Guard : Message -> bool; Path : PathObj.t; Effect : list Action }.
Definition push_Effect (a : Action) (c : t) : t :=
  mk (Guard c) (Path c) (Effect c ++ [a]).
End Transition.

Module Region.
Record t := mk {
  Name : string; Parent : option ref; IsActive : bool;
  Vertices : list ref; Initial : option ref; Current : option ref }.
Definition set_IsActive (b : bool) (r : t) : t :=
  mk (Name r) (Parent r) b (Vertices r) (Initial r) (Current r).
Definition set_Initial (x : ref) (r : t) : t :=
  mk (Name r) (Parent r) (IsActive r) (Vertices r) (Some x) (Current r).
Definition set_Current (x : ref) (r : t) : t :=
  mk (Name r) (Parent r) (IsActive r) (Vertices r) (Initial r) (Some x).
Definition push_Vertices (x : ref) (r : t) : t :=
  mk (Name r) (Parent r) (IsActive r) (Vertices r ++ [x]) (Initial r) (Current r).
End Region.

Module PseudoState.
(** [IsActive] is not set by the constructor: [None] is [undefined]. *)
Record t := mk {
  Kind : PseudoStateKind.t; Parent : ref;
  Completions : list Completion.t; IsActive : option bool }.
Definition set_IsActive (b : bool) (p : t) : t :=
  mk (Kind p) (Parent p) (Completions p) (Some b).
Definition set_Completions (cs : list Completion.t) (p : t) : t :=
  mk (Kind p) (Parent p) cs (IsActive p).
End PseudoState.

Module State.
Record t := mk {
  Name : string; Parent : option ref; IsActive : bool;
  Entry : list Action; Exit : list Action; Regions : list ref;
  Completions : list Completion.t; Transitions : list Transition.t;
  defaultRegion : option ref }.
Definition set_IsActive (b : bool) (s : t) : t :=
  mk (Name s) (Parent s) b (Entry s) (Exit s) (Regions s)
     (Completions s) (Transitions s) (defaultRegion s).
Definition push_Entry (a : Action) (s : t) : t :=
  mk (Name s) (Parent s) (IsActive s) (Entry s ++ [a]) (Exit s) (Regions s)
     (Completions s) (Transitions s) (defaultRegion s).
Definition push_Exit (a : Action) (s : t) : t :=
  mk (Name s) (Parent s) (IsActive s) (Entry s) (Exit s ++ [a]) (Regions s)
     (Completions s) (Transitions s) (defaultRegion s).
Definition push_Regions (x : ref) (s : t) : t :=
  mk (Name s) (Parent s) (IsActive s) (Entry s) (Exit s) (Regions s ++ [x])
     (Completions s) (Transitions s) (defaultRegion s).
Definition set_Completions (cs : list Completion.t) (s : t) : t :=
  mk (Name s) (Parent s) (IsActive s) (Entry s) (Exit s) (Regions s)
     cs (Transitions s) (defaultRegion s).
Definition set_Transitions (ts : list Transition.t) (s : t) : t :=
  mk (Name s) (Parent s) (IsActive s) (Entry s) (Exit s) (Regions s)
     (Completions s) ts (defaultRegion s).
Definition set_defaultRegion (x : ref) (s : t) : t :=
  mk (Name s) (Parent s) (IsActive s) (Entry s) (Exit s) (Regions s)
     (Completions s) (Transitions s) (Some x).
(** [IsSimple]: this.Regions.length === 0 *)
Definition IsSimple (s : t) : bool := Nat.eqb (length (Regions s)) 0.
End State.

Module FinalState.
Record t := mk { Name : string; Parent : ref; IsActive : bool }.
Definition set_IsActive (b : bool) (f : t) : t := mk (Name f) (Parent f) b.
End FinalState.

Inductive Obj :=
| ORegion (r : Region.t)
| OPseudoState (p : PseudoState.t)
| OState (s : State.t)
| OFinalState (f : FinalState.t).

(** [node.Parent], [undefined] when the node has none. *)
Definition Parent_of (o : Obj) : option ref :=
  match o with
  | ORegion r => Region.Parent r
  | OPseudoState p => Some (PseudoState.Parent p)
  | OState s => State.Parent s
  | OFinalState f => Some (FinalState.Parent f)
  end.

(** [node.IsActive === true] *)
Definition IsActive_of (o : Obj) : bool :=
  match o with
  | ORegion r => Region.IsActive r
  | OPseudoState p => match PseudoState.IsActive p with Some b => b | None => false end
  | OState s => State.IsActive s
  | OFinalState f => FinalState.IsActive f
  end.

(** ** The heap and the monad of the embedding *)

Record Store := mkStore { heap : gmap ref Obj; next : ref }.

Definition empty_store : Store := mkStore ∅ 0.

(** [TypeError] is what the host raises on a property of [undefined] or on a
    call of something that is not a function; [Error] is [throw new Error(..)]. *)
Inductive Exn := TypeError | Error (message : string).

(** What a run makes observable, oldest first: each event with the heap as it
    is at that moment, which is what a callback called then can see. *)
Definition Trace := list (Event * Store).

(** A run ends normally, by an exception, or exhausts its call-depth bound.
    The trace is the one the run itself produced. *)
Inductive Res (A : Type) :=
| Ok (a : A) (s : Store) (out : Trace)
| Throw (e : Exn) (s : Store) (out : Trace)
| OutOfFuel.
Arguments Ok {A} a s out.
Arguments Throw {A} e s out.
Arguments OutOfFuel {A}.

Definition M (A : Type) := Store -> Res A.

Definition ret {A} (a : A) : M A := fun s => Ok a s [].

Definition throw {A} (e : Exn) : M A := fun s => Throw e s [].

Definition diverge {A} : M A := fun _ => OutOfFuel.

Definition bind {A B} (m : M A) (k : A -> M B) : M B := fun s =>
  match m s with
  | Ok a s1 o1 =>
      match k a s1 with
      | Ok b s2 o2 => Ok b s2 (o1 ++ o2)
      | Throw e s2 o2 => Throw e s2 (o1 ++ o2)
      | OutOfFuel => OutOfFuel
      end
  | Throw e s1 o1 => Throw e s1 o1
  | OutOfFuel => OutOfFuel
  end.

Declare Scope js_scope.
Delimit Scope js_scope with js.
Notation "'let*' x ':=' m 'in' k" := (bind m (fun x => k))
  (at level 10, x name, m at level 100, k at level 200) : js_scope.
Notation "m ';;' k" := (bind m (fun _ => k))
  (at level 100, k at level 200, right associativity) : js_scope.
Open Scope js_scope.

Definition emit (e : Event) : M unit := fun s => Ok tt s [(e, s)].

(** Calling a user callback. *)
Definition call (arg : option Message) (a : Action) : M unit := emit (Call a arg).

Definition deref (x : ref) : M Obj := fun s =>
  match heap s !! x with
  | Some o => Ok o s []
  | None => Throw TypeError s []
  end.

Definition store (x : ref) (o : Obj) : M unit := fun s =>
  Ok tt (mkStore (<[x := o]> (heap s)) (next s)) [].

(** [new]: a fresh object. *)
Definition alloc (o : Obj) : M ref := fun s =>
  Ok (next s) (mkStore (<[next s := o]> (heap s)) (S (next s))) [].

(** Reading an object as an instance of the class whose fields the code is
    about to use; a field that is not there is [undefined] and using it
    raises. *)
Definition getRegion (x : ref) : M Region.t :=
  let* o := deref x in match o with ORegion r => ret r | _ => throw TypeError end.

Definition getState (x : ref) : M State.t :=
  let* o := deref x in match o with OState r => ret r | _ => throw TypeError end.

Definition getPseudoState (x : ref) : M PseudoState.t :=
  let* o := deref x in match o with OPseudoState r => ret r | _ => throw TypeError end.

Definition getFinalState (x : ref) : M FinalState.t :=
  let* o := deref x in match o with OFinalState r => ret r | _ => throw TypeError end.

(** [array.forEach( f )] *)
Fixpoint forEach {A} (l : list A) (f : A -> M unit) : M unit :=
  match l with
  | [] => ret tt
  | x :: l' => f x ;; forEach l' f
  end.

(** [Array.prototype.single], applied to [results]: the array itself or its
    [filter] by the predicate. *)
Definition single {A} (results : list A) : M A :=
  match results with
  | [x] => ret x
  | _ => throw (Error "Cannot return zero or more than one elements")
  end.

(** [Array.prototype.singleOrDefault]; [None] is the bare [return;]. *)
Definition singleOrDefault {A} (results : list A) : M (option A) :=
  match results with
  | [x] => ret (Some x)
  | [] => ret None
  | _ => throw (Error "Cannot return more than one elements")
  end.

(** ** Building a model: the constructors *)

(** function Region( name, parent ) *)
Definition new_Region (name : string) (parent : option ref) : M ref :=
  let* this := alloc (ORegion (Region.mk name parent false [] None None)) in
  match parent with
  | Some p =>
      (* console.assert( parent instanceof State ); parent.Regions.push( this ) *)
      let* st := getState p in
      store p (OState (State.push_Regions this st))
  | None => ret tt
  end ;;
  ret this.

(** State.prototype.DefaultRegion *)
Definition State_DefaultRegion (this : ref) : M ref :=
  let* st := getState this in
  match State.defaultRegion st with
  | Some r => ret r
  | None =>
      let* r := new_Region "default" (Some this) in
      let* st' := getState this in
      store this (OState (State.set_defaultRegion r st')) ;;
      ret r
  end.

(** The opening of the vertex constructors:
    if( parent instanceof State ) parent = parent.DefaultRegion(); *)
Definition default_region_of (parent : ref) : M ref :=
  let* o := deref parent in
  match o with
  | OState _ => State_DefaultRegion parent
  | _ => ret parent
  end.

(** function PseudoState( kind, parent ).  A parent that is neither a Region
    nor a State fails the assertion, which only reports, and has no
    [Vertices] to push on: the construction ends in a TypeError. *)
Definition new_PseudoState (kind : PseudoStateKind.t) (parent : ref) : M ref :=
  let* parent := default_region_of parent in
  getRegion parent ;;
  let* this := alloc (OPseudoState (PseudoState.mk kind parent [] None)) in
  (if PseudoStateKind.IsInitial kind then
     let* r := getRegion parent in
     match Region.Initial r with
     | Some _ => throw (Error "Regions can have at most 1 initial pseudo state")
     | None => store parent (ORegion (Region.set_Initial this r))
     end
   else ret tt) ;;
  let* r := getRegion parent in
  store parent (ORegion (Region.push_Vertices this r)) ;;
  ret this.

(** function State( name, parent ) *)
Definition new_State (name : string) (parent : option ref) : M ref :=
  match parent with
  | Some p =>
      let* p := default_region_of p in
      let* r := getRegion p in
      let* this := alloc (OState (State.mk name (Some p) false [] [] [] [] [] None)) in
      store p (ORegion (Region.push_Vertices this r)) ;;
      ret this
  | None => alloc (OState (State.mk name None false [] [] [] [] [] None))
  end.

(** function FinalState( name, parent ) *)
Definition new_FinalState (name : string) (parent : ref) : M ref :=
  let* p := default_region_of parent in
  let* r := getRegion p in
  let* this := alloc (OFinalState (FinalState.mk name p false)) in
  store p (ORegion (Region.push_Vertices this r)) ;;
  ret this.

(** function Ancestors( node ): from the root down to the node. *)
Fixpoint Ancestors (fuel : nat) (node : ref) : M (list ref) :=
  match fuel with
  | 0 => diverge
  | S n =>
      let* o := deref node in
      match Parent_of o with
      | Some p => let* l := Ancestors n p in ret (l ++ [node])
      | None => ret [node]
      end
  end.

(** while( sourceAncestors[ i ] === targetAncestors[ i ] ) i++;
    an index past the end reads [undefined], and two of those are equal. *)
Fixpoint Path_loop (fuel : nat) (sourceAncestors targetAncestors : list ref) (i : nat)
  : M nat :=
  match fuel with
  | 0 => diverge
  | S n =>
      if decide (sourceAncestors !! i = targetAncestors !! i)
      then Path_loop n sourceAncestors targetAncestors (S i)
      else ret i
  end.

(** source instanceof PseudoState *)
Definition instanceof_PseudoState (o : Obj) : bool :=
  match o with OPseudoState _ => true | _ => false end.

(** function Path( source, target ) *)
Definition Path (fuel : nat) (source target : ref) : M PathObj.t :=
  let* sourceAncestors := Ancestors fuel source in
  let* targetAncestors := Ancestors fuel target in
  let* i := Path_loop fuel sourceAncestors targetAncestors 0 in
  let* o := deref source in
  let exit0 :=
    if instanceof_PseudoState o && negb (bool_decide (sourceAncestors !! i = Some source))
    then [Some source] else [] in
  ret (PathObj.mk (exit0 ++ [sourceAncestors !! i]) (drop i targetAncestors) target).

(** A Completion or Transition object, named by where it sits: the index in
    its source's array. *)
Definition Handle : Type := ref * nat.

(** function Completion( source, target, guard ) *)
Definition new_Completion (fuel : nat) (source target : ref) (guard : option bool)
  : M Handle :=
  let g := match guard with Some g => g | None => true end in
  let* path := Path fuel source target in
  let this := Completion.mk g path [] in
  let* o := deref source in
  match o with
  | OState st =>
      store source (OState (State.set_Completions (State.Completions st ++ [this]) st)) ;;
      ret (source, length (State.Completions st))
  | OPseudoState p =>
      store source
        (OPseudoState (PseudoState.set_Completions (PseudoState.Completions p ++ [this]) p)) ;;
      ret (source, length (PseudoState.Completions p))
  | _ => throw TypeError
  end.

(** function Transition( source, target, guard ); [console.assert] only
    reports, and a source that is not a State has no [Transitions] to push
    on. *)
Definition new_Transition (fuel : nat) (source target : ref)
  (guard : option (Message -> bool)) : M Handle :=
  let g := match guard with Some g => g | None => fun _ => true end in
  let* path := Path fuel source target in
  let this := Transition.mk g path [] in
  let* st := getState source in
  store source (OState (State.set_Transitions (State.Transitions st ++ [this]) st)) ;;
  ret (source, length (State.Transitions st)).

(** What client code does to attach behaviour: [state.Entry.push( action )],
    [state.Exit.push( action )], [transition.Effect.push( action )]. *)
Definition State_Entry_push (this : ref) (a : Action) : M unit :=
  let* st := getState this in store this (OState (State.push_Entry a st)).

Definition State_Exit_push (this : ref) (a : Action) : M unit :=
  let* st := getState this in store this (OState (State.push_Exit a st)).

Definition Transition_Effect_push (h : Handle) (a : Action) : M unit :=
  let* st := getState (fst h) in
  match State.Transitions st !! snd h with
  | Some t =>
      store (fst h)
        (OState (State.set_Transitions
                   (<[snd h := Transition.push_Effect a t]> (State.Transitions st)) st))
  | None => throw TypeError
  end.

(** ** Leaving: the [OnExit] methods *)

(** PseudoState.prototype.OnExit *)
Definition PseudoState_OnExit (this : ref) : M unit :=
  emit (LogLeave this) ;;
  let* p := getPseudoState this in
  store this (OPseudoState (PseudoState.set_IsActive false p)).

(** [x.OnExit()]: the method is found by the class of [x]; FinalState.prototype
    defines none. *)
Definition OnExit_of (region_OnExit state_OnExit : ref -> M unit) (x : ref) : M unit :=
  let* o := deref x in
  match o with
  | ORegion _ => region_OnExit x
  | OPseudoState _ => PseudoState_OnExit x
  | OState _ => state_OnExit x
  | OFinalState _ => throw TypeError
  end.

(** Region.prototype.OnExit and State.prototype.OnExit *)
Fixpoint Region_OnExit (fuel : nat) (this : ref) : M unit :=
  match fuel with
  | 0 => diverge
  | S n =>
      let* r := getRegion this in
      match Region.Current r with
      | Some current =>
          let* o := deref current in
          if IsActive_of o
          then OnExit_of (Region_OnExit n) (State_OnExit n) current
          else ret tt
      | None => ret tt
      end ;;
      emit (LogLeave this) ;;
      let* r := getRegion this in
      store this (ORegion (Region.set_IsActive false r))
  end
with State_OnExit (fuel : nat) (this : ref) : M unit :=
  match fuel with
  | 0 => diverge
  | S n =>
      let* st := getState this in
      forEach (State.Regions st) (fun region =>
        let* r := getRegion region in
        if Region.IsActive r then Region_OnExit n region else ret tt) ;;
      let* st := getState this in
      forEach (State.Exit st) (call None) ;;
      emit (LogLeave this) ;;
      let* st := getState this in
      store this (OState (State.set_IsActive false st))
  end.

Definition OnExit (fuel : nat) : ref -> M unit :=
  OnExit_of (Region_OnExit fuel) (State_OnExit fuel).

(** ** Entering: the [BeginEnter] methods *)

(** Region.prototype.BeginEnter *)
Definition Region_BeginEnter (fuel : nat) (this : ref) : M unit :=
  let* r := getRegion this in
  (if Region.IsActive r then Region_OnExit fuel this else ret tt) ;;
  emit (LogEnter this) ;;
  let* r := getRegion this in
  store this (ORegion (Region.set_IsActive true r)).

(** PseudoState.prototype.BeginEnter *)
Definition PseudoState_BeginEnter (this : ref) : M unit :=
  emit (LogEnter this).

(** [this.Parent.Current = this]; on an object that is not a Region the
    assignment makes a property nothing reads. *)
Definition set_Parent_Current (parent this : ref) : M unit :=
  let* o := deref parent in
  match o with
  | ORegion r => store parent (ORegion (Region.set_Current this r))
  | _ => ret tt
  end.

(** State.prototype.BeginEnter *)
Definition State_BeginEnter (fuel : nat) (this : ref) : M unit :=
  let* st := getState this in
  (if State.IsActive st then State_OnExit fuel this else ret tt) ;;
  emit (LogEnter this) ;;
  let* st := getState this in
  store this (OState (State.set_IsActive true st)) ;;
  match State.Parent st with
  | Some parent => set_Parent_Current parent this
  | None => ret tt
  end ;;
  let* st := getState this in
  forEach (State.Entry st) (call None).

(** FinalState.prototype.BeginEnter; [this.OnExit] is [undefined] there. *)
Definition FinalState_BeginEnter (this : ref) : M unit :=
  let* f := getFinalState this in
  (if FinalState.IsActive f then throw TypeError else ret tt) ;;
  emit (LogEnter this) ;;
  let* f := getFinalState this in
  store this (OFinalState (FinalState.set_IsActive true f)) ;;
  set_Parent_Current (FinalState.Parent f) this.

(** [x.BeginEnter()] *)
Definition BeginEnter (fuel : nat) (x : ref) : M unit :=
  let* o := deref x in
  match o with
  | ORegion _ => Region_BeginEnter fuel x
  | OPseudoState _ => PseudoState_BeginEnter x
  | OState _ => State_BeginEnter fuel x
  | OFinalState _ => FinalState_BeginEnter x
  end.

(** ** Initialising, completing the entry, traversing a completion *)

(** Region.prototype.IsComplete: this.Current instanceof FinalState *)
Definition Region_IsComplete (this : ref) : M bool :=
  let* r := getRegion this in
  match Region.Current r with
  | Some current =>
      let* o := deref current in
      ret (match o with OFinalState _ => true | _ => false end)
  | None => ret false
  end.

(** [array.every( f )] *)
Fixpoint every {A} (l : list A) (f : A -> M bool) : M bool :=
  match l with
  | [] => ret true
  | x :: l' => let* b := f x in if b then every l' f else ret false
  end.

(** PseudoStateKind.*.GetCompletion *)
Definition GetCompletion (k : PseudoStateKind.t) (completions : list Completion.t)
  : M Completion.t :=
  match k with
  | PseudoStateKind.ExitPoint => single (List.filter Completion.Guard completions)
  | _ => single completions
  end.

(** An element of [Path.Exit]: function() { s.OnExit(); } *)
Definition Path_Exit_action (fuel : nat) (s : option ref) : M unit :=
  match s with
  | Some x => OnExit fuel x
  | None => throw TypeError
  end.

(** [x.EndEnter( deepHistory )]; Region.prototype defines none and
    FinalState.prototype.EndEnter is empty. *)
Definition EndEnter_of (pseudoState_EndEnter state_EndEnter : ref -> bool -> M unit)
  (x : ref) (deepHistory : bool) : M unit :=
  let* o := deref x in
  match o with
  | ORegion _ => throw TypeError
  | OPseudoState _ => pseudoState_EndEnter x deepHistory
  | OState _ => state_EndEnter x deepHistory
  | OFinalState _ => ret tt
  end.

(** [x.Initialise( deepHistory )]; the three vertex classes share the body
    { this.BeginEnter(); this.EndEnter( false ); }.  A [deepHistory] that was
    not passed is falsy and is kept as [false]. *)
Definition Initialise_of (fuel : nat) (region_Initialise : ref -> bool -> M unit)
  (pseudoState_EndEnter state_EndEnter : ref -> bool -> M unit)
  (x : ref) (deepHistory : bool) : M unit :=
  let* o := deref x in
  match o with
  | ORegion _ => region_Initialise x deepHistory
  | OPseudoState _ => PseudoState_BeginEnter x ;; pseudoState_EndEnter x false
  | OState _ => State_BeginEnter fuel x ;; state_EndEnter x false
  | OFinalState _ => FinalState_BeginEnter x ;; ret tt
  end.

(** Region.prototype.Initialise, PseudoState.prototype.EndEnter,
    State.prototype.EndEnter and Completion.prototype.Traverse *)
Fixpoint Region_Initialise (fuel : nat) (this : ref) (deepHistory : bool) : M unit :=
  match fuel with
  | 0 => diverge
  | S n =>
      Region_BeginEnter n this ;;
      let* r := getRegion this in
      let* history :=
        (if deepHistory then ret true
         else match Region.Initial r with
              | Some initial =>
                  let* p := getPseudoState initial in
                  ret (PseudoStateKind.IsHistory (PseudoState.Kind p))
              | None => throw TypeError
              end) in
      let vertex :=
        if history && bool_decide (is_Some (Region.Current r))
        then Region.Current r else Region.Initial r in
      match vertex with
      | Some v =>
          Initialise_of n (Region_Initialise n) (PseudoState_EndEnter n) (State_EndEnter n)
            v deepHistory
      | None => throw TypeError
      end
  end
with PseudoState_EndEnter (fuel : nat) (this : ref) (deepHistory : bool) : M unit :=
  match fuel with
  | 0 => diverge
  | S n =>
      let* p := getPseudoState this in
      let* completion := GetCompletion (PseudoState.Kind p) (PseudoState.Completions p) in
      Completion_Traverse n completion deepHistory
  end
with State_EndEnter (fuel : nat) (this : ref) (deepHistory : bool) : M unit :=
  match fuel with
  | 0 => diverge
  | S n =>
      let* st := getState this in
      forEach (State.Regions st) (fun region => Region_Initialise n region deepHistory) ;;
      let* st := getState this in
      if (0 <? length (State.Completions st))%nat then
        let* complete :=
          (if State.IsSimple st then ret true
           else every (State.Regions st) Region_IsComplete) in
        if (complete : bool) then
          let* completion :=
            singleOrDefault (List.filter Completion.Guard (State.Completions st)) in
          match completion with
          | Some _ =>
              (* completion( deepHistory ): a Completion object is not a function *)
              throw TypeError
          | None => ret tt
          end
        else ret tt
      else ret tt
  end
with Completion_Traverse (fuel : nat) (this : Completion.t) (deepHistory : bool) : M unit :=
  match fuel with
  | 0 => diverge
  | S n =>
      forEach (PathObj.Exit (Completion.Path this)) (Path_Exit_action n) ;;
      forEach (Completion.Effect this) (call None) ;;
      forEach (PathObj.Enter (Completion.Path this)) (BeginEnter n) ;;
      (* Path.Complete = function() { target.EndEnter(); } *)
      EndEnter_of (PseudoState_EndEnter n) (State_EndEnter n)
        (PathObj.Complete (Completion.Path this)) false
  end.

Definition EndEnter (fuel : nat) : ref -> bool -> M unit :=
  EndEnter_of (PseudoState_EndEnter fuel) (State_EndEnter fuel).

Definition Initialise (fuel : nat) : ref -> bool -> M unit :=
  Initialise_of fuel (Region_Initialise fuel) (PseudoState_EndEnter fuel) (State_EndEnter fuel).

(** ** Dispatching a message *)

(** Transition.prototype.Traverse *)
Definition Transition_Traverse (fuel : nat) (this : Transition.t) (message : Message)
  : M unit :=
  forEach (PathObj.Exit (Transition.Path this)) (Path_Exit_action fuel) ;;
  forEach (Transition.Effect this) (call (Some message)) ;;
  forEach (PathObj.Enter (Transition.Path this)) (BeginEnter fuel) ;;
  EndEnter fuel (PathObj.Complete (Transition.Path this)) false.

(** [x.Process( message )]; FinalState.prototype.Process is empty and
    PseudoState.prototype defines none. *)
Definition Process_of (region_Process state_Process : ref -> Message -> M JSVal)
  (x : ref) (message : Message) : M JSVal :=
  let* o := deref x in
  match o with
  | ORegion _ => region_Process x message
  | OPseudoState _ => throw TypeError
  | OState _ => state_Process x message
  | OFinalState _ => ret VUndefined
  end.

(** The [for] loop of State.prototype.Process over [this.Regions], with its
    variable [processed]. *)
Fixpoint Process_regions (region_Process : ref -> M JSVal) (regions : list ref)
  (processed : bool) : M bool :=
  match regions with
  | [] => ret processed
  | region :: rest =>
      let* r := getRegion region in
      if Region.IsActive r then
        let* v := region_Process region in
        Process_regions region_Process rest (if strict_eq_true v then true else processed)
      else Process_regions region_Process rest processed
  end.

(** State.prototype.Process and Region.prototype.Process *)
Fixpoint State_Process (fuel : nat) (this : ref) (message : Message) : M JSVal :=
  match fuel with
  | 0 => diverge
  | S n =>
      let* st := getState this in
      let* transition :=
        singleOrDefault
          (List.filter (fun t => Transition.Guard t message) (State.Transitions st)) in
      match transition with
      | Some t =>
          Transition_Traverse n t message ;;
          ret (VBool true)
      | None =>
          if negb (State.IsSimple st) then
            let* processed :=
              Process_regions (fun region => Region_Process n region message)
                (State.Regions st) false in
            ret (VBool processed)
          else ret (VBool false)
      end
  end
with Region_Process (fuel : nat) (this : ref) (message : Message) : M JSVal :=
  match fuel with
  | 0 => diverge
  | S n =>
      let* r := getRegion this in
      match Region.Current r with
      | Some current =>
          (* this.Current.Process( message ); and no value is returned *)
          Process_of (Region_Process n) (State_Process n) current message ;;
          ret VUndefined
      | None => throw TypeError
      end
  end.

(** ** Notions used to state the properties *)

(** The closure State.prototype.OnExit hands to [forEach]:
    function( region ) { if( region.IsActive ) { region.OnExit(); } } *)
Definition exit_if_active (n : nat) (region : ref) : M unit :=
  let* r := getRegion region in
  if Region.IsActive r then Region_OnExit n region else ret tt.

(** [f] runs on the elements of a list one after the other, first element
    first, each on the heap the previous one left. *)
Inductive runs_in_order {A} (f : A -> M unit) : list A -> Store -> Store -> Trace -> Prop :=
| runs_nil s : runs_in_order f [] s s []
| runs_cons x l s s1 o1 s2 o2 :
    f x s = Ok tt s1 o1 ->
    runs_in_order f l s1 s2 o2 ->
    runs_in_order f (x :: l) s s2 (o1 ++ o2).

(** The state exit cascade as section 4.D of the specification words it:
    the child regions are taken in reverse region order, last declared first;
    the rest is State.prototype.OnExit unchanged. *)
Definition State_OnExit_reverse_regions (fuel : nat) (this : ref) : M unit :=
  match fuel with
  | 0 => diverge
  | S n =>
      let* st := getState this in
      forEach (rev (State.Regions st)) (exit_if_active n) ;;
      let* st := getState this in
      forEach (State.Exit st) (call None) ;;
      emit (LogLeave this) ;;
      let* st := getState this in
      store this (OState (State.set_IsActive false st))
  end.

(** The part of an object that leaving it never writes: everything but
    [IsActive]. *)
Definition static (o : Obj) : Obj :=
  match o with
  | ORegion r => ORegion (Region.set_IsActive false r)
  | OPseudoState p => OPseudoState (PseudoState.set_IsActive false p)
  | OState s => OState (State.set_IsActive false s)
  | OFinalState f => OFinalState (FinalState.set_IsActive false f)
  end.

(** Two heaps with the same objects, up to their [IsActive] flags. *)
Definition frame (s s' : Store) : Prop :=
  next s' = next s /\ forall x, static <$> (heap s' !! x) = static <$> (heap s !! x).

Definition Framed {A} (m : M A) : Prop :=
  forall s, match m s with
            | Ok _ s' _ | Throw _ s' _ => frame s s'
            | OutOfFuel => True
            end.

(** A run that exhausted its bound says nothing; any other result is final. *)
Definition res_le {A} (r r' : Res A) : Prop := r = OutOfFuel \/ r = r'.

Definition approx {A} (m m' : M A) : Prop := forall s, res_le (m s) (m' s).

(** How a run ended, and what it showed, without the heaps. *)
Inductive Outcome (A : Type) := Returned (a : A) | Raised (e : Exn) | Unfinished.
Arguments Returned {A} a.
Arguments Raised {A} e.
Arguments Unfinished {A}.

Definition outcome_of {A} (r : Res A) : Outcome A :=
  match r with
  | Ok a _ _ => Returned a
  | Throw e _ _ => Raised e
  | OutOfFuel => Unfinished
  end.

Definition trace_of {A} (r : Res A) : Trace :=
  match r with Ok _ _ o | Throw _ _ o => o | OutOfFuel => [] end.

Definition events_of {A} (r : Res A) : list Event := map fst (trace_of r).

Definition store_of {A} (r : Res A) : Store :=
  match r with Ok _ s _ | Throw _ s _ => s | OutOfFuel => empty_store end.

(** ** Models used as concrete inputs *)

(** An orthogonal state [S] (0) with regions [r1] (1) and [r2] (2); [r1] holds
    an initial pseudo state (3) leading to [a] (4), [r2] an initial pseudo
    state (5) leading to [x] (6). *)
Definition orthogonal_model : M unit :=
  let* S := new_State "S" None in
  let* r1 := new_Region "r1" (Some S) in
  let* r2 := new_Region "r2" (Some S) in
  let* i1 := new_PseudoState PseudoStateKind.Initial r1 in
  let* a := new_State "a" (Some r1) in
  new_Completion 5 i1 a None ;;
  let* i2 := new_PseudoState PseudoStateKind.Initial r2 in
  let* x := new_State "x" (Some r2) in
  new_Completion 5 i2 x None ;;
  State_Entry_push S "entry S" ;;
  State_Entry_push a "entry a" ;;
  State_Exit_push a "exit a" ;;
  State_Exit_push x "exit x" ;;
  State_Exit_push S "exit S".

(** The orthogonal model once [S] has been initialised: [a] and [x] active. *)
Definition orthogonal_store : Store :=
  store_of ((orthogonal_model ;; Initialise 9 0 false) empty_store).

(** A state [S] (0) whose default region (1) holds an initial pseudo state (2)
    leading to [A] (3), and [B] (4); [A] has a completion transition to [B]
    with the default guard. *)
Definition completion_model : M unit :=
  let* S := new_State "S" None in
  let* i := new_PseudoState PseudoStateKind.Initial S in
  let* A := new_State "A" (Some S) in
  let* B := new_State "B" (Some S) in
  new_Completion 5 i A None ;;
  new_Completion 5 A B None ;;
  State_Exit_push A "exit A" ;;
  State_Entry_push B "entry B".

Definition completion_store : Store := store_of (completion_model empty_store).

(** The same shape with a transition from [A] to [B] guarded by the message
    "go", carrying one effect; then [S] initialised, so that [A] is active. *)
Definition toggle_model : M unit :=
  let* S := new_State "S" None in
  let* i := new_PseudoState PseudoStateKind.Initial S in
  let* A := new_State "A" (Some S) in
  let* B := new_State "B" (Some S) in
  new_Completion 5 i A None ;;
  let* t := new_Transition 5 A B (Some (String.eqb "go")) in
  Transition_Effect_push t "effect" ;;
  State_Exit_push A "exit A" ;;
  State_Entry_push B "entry B" ;;
  Initialise 9 S false.

Definition toggle_store : Store := store_of (toggle_model empty_store).

(** The toggle model with a second transition from [A] to [B] whose guard
    holds for every message. *)
Definition ambiguous_store : Store :=
  store_of ((toggle_model ;; new_Transition 5 3 4 None) empty_store).

(** The orthogonal model as built, before anything is entered. *)
Definition orthogonal_built : Store := store_of (orthogonal_model empty_store).

(** A state (0) with one empty region [r] (1). *)
Definition one_region_store : Store :=
  store_of ((let* S := new_State "S" None in new_Region "r" (Some S)) empty_store).

(** ** The evaluator facade and terminated instances *)

(** Modelled from the spec: the instance of section 3, which holds the
    last-known state of each region and the [isTerminated] flag.  The file
    lib/state.com.d.ts declares it ([IInstance]); its implementation is not
    among the sources. *)
Record Instance := mkInstance { isTerminated : bool; last : gmap ref ref }.

(** Modelled from the spec: what a call of [evaluate] does that can be
    observed from outside, in the order in which it does it: it asks a guard
    about the message (section 3: a predicate over message and instance),
    it calls an entry, exit or effect action with the message, it reaches
    the enter cascade of a Terminate pseudo state.  The evaluator is not
    among the sources. *)
Inductive Invocation :=
| AskGuard (guard : string) (message : Message)
| CallAction (action : Action) (message : Message)
| EnterTerminate.

(** Modelled from the spec: a compiled traverse plan, the list of steps of
    sections 4.D and 9 kept as command records.  Only the steps that matter to
    a terminated instance are told apart: calling a user action, recording the
    current state of a region, and the enter cascade of a Terminate pseudo
    state.  The compiler that produces plans is not among the sources. *)
Inductive Step :=
| Invoke (action : Action)
| SetCurrent (region state : ref)
| Terminate.

(** Modelled from the spec: the straight-line walk over a plan (section 4.D).
    User actions receive the message; Terminate sets isTerminated to true and
    halts further traversal with no further actions.  The walk is not
    among the sources. *)
Fixpoint run_plan (plan : list Step) (message : Message) (instance : Instance)
  : Instance * list Invocation :=
  match plan with
  | [] => (instance, [])
  | Invoke action :: rest =>
      let '(instance', invoked) := run_plan rest message instance in
      (instance', CallAction action message :: invoked)
  | SetCurrent region state :: rest =>
      run_plan rest message
        (mkInstance (isTerminated instance) (<[region := state]> (last instance)))
  | Terminate :: _ => (mkInstance true (last instance), [EnterTerminate])
  end.

(** Modelled from the spec: a transition as the evaluator sees it (sections 3
    and 4.D): its guard, a named predicate over message and instance, and its
    compiled traverse plan.  The compiled model is not among the sources. *)
Record Outgoing := mkOutgoing {
  guard_name : string;
  guard_holds : Message -> Instance -> bool;
  traverse_plan : list Step }.

(** Modelled from the spec: a state of the compiled model (section 3): its
    outgoing transitions and its child regions, both in declaration order.
    The current state of a region is kept by the instance, not here. *)
Record Node := mkNode { outgoing : list Outgoing; child_regions : list ref }.

(** Modelled from the spec: the compiled model, its states by reference. *)
Definition Model : Type := gmap ref Node.

(** Modelled from the spec: how a call of [evaluate] ends: with the boolean
    "message consumed", or with the ill-formed-machine error of section 4.E.
    [Unbounded] is the bound on the nesting of states running out. *)
Inductive Verdict :=
| Consumed (consumed : bool)
| IllFormed
| Unbounded.

(** Modelled from the spec: the descent of step 3 of section 4.E into the
    child regions of a state, in declaration order: the current state of
    each active region is tried, and a region consumes the message if any of
    its actives did.  A Terminate reached on the way halts further
    traversal. *)
Fixpoint evaluate_regions
  (evaluate_state : ref -> Instance -> Instance * list Invocation * Verdict)
  (children : list ref) (instance : Instance) (consumed : bool)
  : Instance * list Invocation * Verdict :=
  match children with
  | [] => (instance, [], Consumed consumed)
  | region :: rest =>
      if isTerminated instance then (instance, [], Consumed consumed)
      else
        match last instance !! region with
        | Some state =>
            match evaluate_state state instance with
            | (instance1, invoked1, Consumed here) =>
                let '(instance2, invoked2, verdict) :=
                  evaluate_regions evaluate_state rest instance1 (here || consumed) in
                (instance2, invoked1 ++ invoked2, verdict)
            | failed => failed
            end
        | None => evaluate_regions evaluate_state rest instance consumed
        end
  end.

(** Modelled from the spec: steps 3 and 4 of section 4.E at one active state.
    The guards of its outgoing transitions are asked, in declaration order.
    At most one may be true: if two or more are, the machine is ill-formed;
    if exactly one is, the compiled plan of that transition is executed; if
    none is, the walk descends into the child regions. *)
Fixpoint evaluate_state (fuel : nat) (model : Model) (message : Message)
  (state : ref) (instance : Instance) : Instance * list Invocation * Verdict :=
  match fuel with
  | 0 => (instance, [], Unbounded)
  | S n =>
      match model !! state with
      | Some node =>
          let asked := map (fun t => AskGuard (guard_name t) message) (outgoing node) in
          match List.filter (fun t => guard_holds t message instance) (outgoing node) with
          | [] =>
              let '(instance', invoked, verdict) :=
                evaluate_regions (evaluate_state n model message) (child_regions node)
                  instance false in
              (instance', asked ++ invoked, verdict)
          | [t] =>
              let '(instance', invoked) := run_plan (traverse_plan t) message instance in
              (instance', asked ++ invoked, Consumed true)
          | _ => (instance, asked, IllFormed)
          end
      | None => (instance, [], IllFormed)
      end
  end.

(** Modelled from the spec: [evaluate] of section 4.E, declared in
    lib/state.com.d.ts and implemented outside the sources.  Step 1: if the
    instance is terminated, return false immediately.  Steps 3 to 6: walk
    from the root state downward and return whether the message produced a
    traversal.  The model is taken as compiled (step 2). *)
Definition evaluate (fuel : nat) (model : Model) (root : ref) (instance : Instance)
  (message : Message) : Instance * list Invocation * Verdict :=
  if isTerminated instance then (instance, [], Consumed false)
  else evaluate_state fuel model message root instance.

(** Successive calls of [evaluate] on one instance: the instance at the end,
    everything invoked on the way and how each call ended. *)
Fixpoint evaluate_all (fuel : nat) (model : Model) (root : ref) (instance : Instance)
  (messages : list Message) : Instance * list Invocation * list Verdict :=
  match messages with
  | [] => (instance, [], [])
  | message :: rest =>
      let '(instance1, invoked1, verdict) := evaluate fuel model root instance message in
      let '(instance2, invoked2, verdicts) := evaluate_all fuel model root instance1 rest in
      (instance2, invoked1 ++ invoked2, verdict :: verdicts)
  end.

(** What a call leaves behind: when it has reached the enter cascade of a
    Terminate, a terminated instance, the message consumed and nothing
    invoked after that; when it has not, the flag as it was. *)
Definition halts_at_Terminate (instance : Instance)
  (result : Instance * list Invocation * Verdict) : Prop :=
  let '(instance', invoked, verdict) := result in
  (EnterTerminate ∈ invoked ->
   isTerminated instance' = true /\ verdict = Consumed true /\
   exists before, invoked = before ++ [EnterTerminate] /\ EnterTerminate ∉ before) /\
  (EnterTerminate ∉ invoked -> isTerminated instance' = isTerminated instance).

(** The actions a list of steps calls, in order. *)
Definition invoked (message : Message) (plan : list Step) : list Invocation :=
  omap (fun step => match step with
                    | Invoke action => Some (CallAction action message)
                    | _ => None
                    end) plan.

(** A plan for the witnesses: leave a state, reach a Terminate pseudo state,
    with an action that the plan lists after it. *)
Definition terminating_plan : list Step :=
  [Invoke "exit A"; SetCurrent 1 4; Terminate; Invoke "never"].

(** A compiled model for the witnesses: the root state (0) has one transition,
    whose guard never holds, and two regions (1) and (2).  The state [A] (3)
    of region 1 goes to a Terminate pseudo state on "stop"; the state [x]
    (5) of region 2 handles every message. *)
Definition terminating_model : Model :=
  {[ 0 := mkNode [mkOutgoing "never" (fun _ _ => false) [Invoke "unreachable"]] [1; 2];
     3 := mkNode [mkOutgoing "is stop" (fun message _ => String.eqb message "stop")
                    terminating_plan] [];
     5 := mkNode [mkOutgoing "always" (fun _ _ => true) [Invoke "effect x"]] [] ]}.

(** An instance of it in which [A] and [x] are the current states. *)
Definition live_instance : Instance := mkInstance false {[ 1 := 3; 2 := 5 ]}.

(** * Further notions *)

(** ** Qualified names *)

(** PseudoStateKind.*.Name *)
Definition PseudoStateKind_Name (k : PseudoStateKind.t) : string :=
  match k with
  | PseudoStateKind.DeepHistory => "deepHistory"
  | PseudoStateKind.EntryPoint => "entryPoint"
  | PseudoStateKind.ExitPoint => "exitPoint"
  | PseudoStateKind.Initial => "initial"
  | PseudoStateKind.ShallowHistory => "shallowHistory"
  end.

(** What a [toString] method appends for its own object: [this.Name], and
    [this.Kind.Name] for a PseudoState. *)
Definition own_name (o : Obj) : string :=
  match o with
  | ORegion r => Region.Name r
  | OPseudoState p => PseudoStateKind_Name (PseudoState.Kind p)
  | OState s => State.Name s
  | OFinalState f => FinalState.Name f
  end.

(** The [toString] of the four prototypes, which share the body
    return this.Parent ? this.Parent.toString() + "." + name : name; *)
Fixpoint toString (fuel : nat) (this : ref) : M string :=
  match fuel with
  | 0 => diverge
  | S n =>
      let* o := deref this in
      match Parent_of o with
      | Some parent =>
          let* qualified := toString n parent in
          ret ((qualified +:+ ".") +:+ own_name o)
      | None => ret (own_name o)
      end
  end.

(** The names of a list of nodes, as the heap has them. *)
Definition names (s : Store) (l : list ref) : list string :=
  map (fun x => match heap s !! x with Some o => own_name o | None => "" end) l.

(** A list of nodes in which each one is the [Parent] of the next, and the
    first has the given parent. *)
Fixpoint chain (s : Store) (above : option ref) (l : list ref) : Prop :=
  match l with
  | [] => True
  | x :: l' => Parent_of <$> (heap s !! x) = Some above /\ chain s (Some x) l'
  end.

(** ** Activity *)

(** From [s] to [s'] the model is the same but for [IsActive] flags, and no
    object that was inactive is active. *)
Definition deactivates (s s' : Store) : Prop :=
  frame s s' /\
  forall x o o', heap s !! x = Some o -> heap s' !! x = Some o' ->
    IsActive_of o' = true -> IsActive_of o = true.

Definition Deactivating {A} (m : M A) : Prop :=
  forall s, match m s with
            | Ok _ s' _ | Throw _ s' _ => deactivates s s'
            | OutOfFuel => True
            end.

(** [x] is an object of the heap and is not active. *)
Definition inactive (s : Store) (x : ref) : Prop :=
  exists o, heap s !! x = Some o /\ IsActive_of o = false.

(** ** Dispatch to the child regions *)

(** The body of the [for] loop of State.prototype.Process without its
    bookkeeping: an active region processes the message. *)
Definition process_if_active (n : nat) (message : Message) (region : ref) : M unit :=
  let* r := getRegion region in
  if Region.IsActive r then Region_Process n region message ;; ret tt else ret tt.

(** ** The structure of the model *)

(** An object without what running the machine writes: its [IsActive] flag
    and, for a region, its [Current]. *)
Definition shape (o : Obj) : Obj :=
  match o with
  | ORegion r =>
      ORegion (Region.mk (Region.Name r) (Region.Parent r) false (Region.Vertices r)
                 (Region.Initial r) None)
  | OPseudoState p => OPseudoState (PseudoState.set_IsActive false p)
  | OState s => OState (State.set_IsActive false s)
  | OFinalState f => OFinalState (FinalState.set_IsActive false f)
  end.

(** Two heaps that hold the same model. *)
Definition same_model (s s' : Store) : Prop :=
  next s' = next s /\ forall x, shape <$> (heap s' !! x) = shape <$> (heap s !! x).

Definition Structural {A} (m : M A) : Prop :=
  forall s, match m s with
            | Ok _ s' _ | Throw _ s' _ => same_model s s'
            | OutOfFuel => True
            end.

(** ** More models used as concrete inputs *)

(** A state (0) alone. *)
Definition lone_state_store : Store := store_of (new_State "S" None empty_store).

(** A state (0) with a region [r] (1) that holds only a final state (2). *)
Definition final_store : Store :=
  store_of ((let* S := new_State "S" None in
             let* r := new_Region "r" (Some S) in
             new_FinalState "end" r) empty_store).

(** A state (0) with a region [r] (1) whose initial pseudo state (2) has no
    completion. *)
Definition dangling_initial_store : Store :=
  store_of ((let* S := new_State "S" None in
             let* r := new_Region "r" (Some S) in
             new_PseudoState PseudoStateKind.Initial r) empty_store).

(** A state [S] (0) whose default region (1) holds a shallow history pseudo
    state (2) leading to [A] (3); a message "go" has moved it on to [B] (4). *)
Definition history_model : M unit :=
  let* S := new_State "S" None in
  let* h := new_PseudoState PseudoStateKind.ShallowHistory S in
  let* A := new_State "A" (Some S) in
  let* B := new_State "B" (Some S) in
  new_Completion 5 h A None ;;
  new_Transition 5 A B (Some (String.eqb "go")) ;;
  State_Entry_push B "entry B" ;;
  State_Exit_push B "exit B" ;;
  Initialise 9 S false ;;
  State_Process 9 S "go" ;;
  ret tt.

Definition history_store : Store := store_of (history_model empty_store).

(** A state [S] (0) whose default region (1) holds an initial pseudo state (2)
    leading to [A] (3), and a composite state [B] (4); the default region
    (5) of [B] holds an initial pseudo state (6) leading to [C] (7).  A
    message "go" takes [A] to [B]. *)
Definition composite_model : M unit :=
  let* S := new_State "S" None in
  let* i := new_PseudoState PseudoStateKind.Initial S in
  let* A := new_State "A" (Some S) in
  let* B := new_State "B" (Some S) in
  let* j := new_PseudoState PseudoStateKind.Initial B in
  let* C := new_State "C" (Some B) in
  new_Completion 5 i A None ;;
  new_Completion 5 j C None ;;
  let* t := new_Transition 5 A B (Some (String.eqb "go")) in
  Transition_Effect_push t "effect" ;;
  State_Exit_push A "exit A" ;;
  State_Entry_push B "entry B" ;;
  State_Entry_push C "entry C" ;;
  Initialise 9 S false.

Definition composite_store : Store := store_of (composite_model empty_store).

(** * Properties *)

(** ** Reasoning about runs *)

Lemma bind_Ok {A B} (m : M A) (k : A -> M B) s b s2 o :
  bind m k s = Ok b s2 o <->
  exists a s1 o1 o2, m s = Ok a s1 o1 /\ k a s1 = Ok b s2 o2 /\ o = o1 ++ o2.
Proof.
  unfold bind. split.
  - destruct (m s) as [a s1 o1| |]; try discriminate.
    destruct (k a s1) as [b' s2' o2| |] eqn:Hk; try discriminate.
    intros [= -> -> <-]. by exists a, s1, o1, o2.
  - intros (a & s1 & o1 & o2 & -> & -> & ->). done.
Qed.

Lemma bind_step {A B} (m : M A) (k : A -> M B) s a s1 o1 :
  m s = Ok a s1 o1 ->
  bind m k s = match k a s1 with
               | Ok b s2 o2 => Ok b s2 (o1 ++ o2)
               | Throw e s2 o2 => Throw e s2 (o1 ++ o2)
               | OutOfFuel => OutOfFuel
               end.
Proof. unfold bind. by intros ->. Qed.

Lemma bind_throw {A B} (m : M A) (k : A -> M B) s e s1 o1 :
  m s = Throw e s1 o1 -> bind m k s = Throw e s1 o1.
Proof. unfold bind. by intros ->. Qed.

Lemma bind_run {A B} (m : M A) (k : A -> M B) s a s1 :
  m s = Ok a s1 [] -> bind m k s = k a s1.
Proof. unfold bind. intros ->. by destruct (k a s1). Qed.

Lemma bind_ext {A B} (m : M A) (k k' : A -> M B) s :
  (forall a s1 o1, m s = Ok a s1 o1 -> k a s1 = k' a s1) ->
  bind m k s = bind m k' s.
Proof.
  intros H. unfold bind. destruct (m s) as [a s1 o1| |] eqn:Hm; [|done..].
  by rewrite (H a s1 o1).
Qed.

Lemma bind_assoc {A B C} (m : M A) (k1 : A -> M B) (k2 : B -> M C) s :
  bind (bind m k1) k2 s = bind m (fun a => bind (k1 a) k2) s.
Proof.
  unfold bind. destruct (m s) as [a s1 o1| |]; [|done..].
  destruct (k1 a s1) as [b s2 o2| |]; [|done..].
  destruct (k2 b s2); by rewrite ?app_assoc.
Qed.

Lemma ret_run {A} (a : A) s : ret a s = Ok a s [].
Proof. done. Qed.

Lemma emit_run e s : emit e s = Ok tt s [(e, s)].
Proof. done. Qed.

Lemma store_run x o s : store x o s = Ok tt (mkStore (<[x := o]> (heap s)) (next s)) [].
Proof. done. Qed.

Lemma deref_run x o s : heap s !! x = Some o -> deref x s = Ok o s [].
Proof. intros H. unfold deref. by rewrite H. Qed.

Lemma getRegion_run x r s : heap s !! x = Some (ORegion r) -> getRegion x s = Ok r s [].
Proof. intros H. unfold getRegion, bind, deref. by rewrite H. Qed.

Lemma getState_run x r s : heap s !! x = Some (OState r) -> getState x s = Ok r s [].
Proof. intros H. unfold getState, bind, deref. by rewrite H. Qed.

Lemma getPseudoState_run x r s :
  heap s !! x = Some (OPseudoState r) -> getPseudoState x s = Ok r s [].
Proof. intros H. unfold getPseudoState, bind, deref. by rewrite H. Qed.

Lemma getState_Ok x s a s' o :
  getState x s = Ok a s' o -> s' = s /\ o = [] /\ heap s !! x = Some (OState a).
Proof.
  unfold getState, bind, deref.
  destruct (heap s !! x) as [[]|]; simpl; intros H; by simplify_eq.
Qed.

Lemma set_Parent_Current_run parent this r s :
  heap s !! parent = Some (ORegion r) ->
  set_Parent_Current parent this s
  = Ok tt (mkStore (<[parent := ORegion (Region.set_Current this r)]> (heap s)) (next s)) [].
Proof. intros H. unfold set_Parent_Current, bind, deref. by rewrite H. Qed.

Lemma default_region_of_Region parent r s :
  heap s !! parent = Some (ORegion r) -> default_region_of parent s = Ok parent s [].
Proof.
  intros H. unfold default_region_of.
  by rewrite (bind_run _ _ _ _ _ (deref_run _ _ _ H)).
Qed.

(** Calling a list of actions changes nothing in the heap; each of them sees
    the heap as it is when the first one is called. *)
Lemma forEach_call (arg : option Message) (l : list Action) s :
  forEach l (call arg) s = Ok tt s (map (fun a => (Call a arg, s)) l).
Proof.
  induction l as [|a l IH]; [done|].
  simpl. unfold bind at 1. simpl. by rewrite IH.
Qed.

Lemma forEach_in_order {A} (f : A -> M unit) l s s' o :
  forEach l f s = Ok tt s' o <-> runs_in_order f l s s' o.
Proof.
  split.
  - revert s o. induction l as [|x l IH]; simpl; intros s o H.
    + injection H as <- <-. constructor.
    + apply bind_Ok in H as ([] & s1 & o1 & o2 & H1 & H2 & ->).
      econstructor; eauto.
  - induction 1 as [|x l s s1 o1 s2 o2 H1 _ IH]; [done|].
    simpl. by rewrite (bind_step _ _ _ _ _ _ H1), IH.
Qed.

(** ** What leaving preserves *)

Lemma frame_refl s : frame s s.
Proof. done. Qed.

Lemma frame_trans s1 s2 s3 : frame s1 s2 -> frame s2 s3 -> frame s1 s3.
Proof. intros [H1 H2] [H3 H4]. split; [congruence|]. intros x. by rewrite H4. Qed.

Lemma Framed_ret {A} (a : A) : Framed (ret a).
Proof. intros s. apply frame_refl. Qed.

Lemma Framed_throw {A} e : Framed (@throw A e).
Proof. intros s. apply frame_refl. Qed.

Lemma Framed_diverge {A} : Framed (@diverge A).
Proof. by intros s. Qed.

Lemma Framed_emit e : Framed (emit e).
Proof. intros s. apply frame_refl. Qed.

Lemma Framed_deref x : Framed (deref x).
Proof. intros s. unfold deref. destruct (heap s !! x); apply frame_refl. Qed.

Lemma Framed_bind {A B} (m : M A) (k : A -> M B) :
  Framed m -> (forall a, Framed (k a)) -> Framed (bind m k).
Proof.
  intros Hm Hk s. unfold bind. specialize (Hm s).
  destruct (m s) as [a s1 o1| |]; [|done..].
  specialize (Hk a s1). destruct (k a s1); eauto using frame_trans.
Qed.

Lemma Framed_forEach {A} (l : list A) (f : A -> M unit) :
  (forall x, Framed (f x)) -> Framed (forEach l f).
Proof.
  intros Hf. induction l; simpl; [apply Framed_ret|].
  apply Framed_bind; auto.
Qed.

Lemma Framed_getRegion x : Framed (getRegion x).
Proof. apply Framed_bind; [apply Framed_deref|]. intros []; (apply Framed_ret || apply Framed_throw). Qed.

Lemma Framed_getState x : Framed (getState x).
Proof. apply Framed_bind; [apply Framed_deref|]. intros []; (apply Framed_ret || apply Framed_throw). Qed.

Lemma frame_store_static x o o' s :
  static o' = static o -> heap s !! x = Some o ->
  frame s (mkStore (<[x := o']> (heap s)) (next s)).
Proof.
  intros Ho Hx. split; [done|]. intros y. simpl.
  destruct (decide (x = y)) as [->|Hne].
  - rewrite lookup_insert_eq, Hx. simpl. by rewrite Ho.
  - by rewrite lookup_insert_ne.
Qed.

Lemma Framed_Region_set_IsActive this b :
  Framed (let* r := getRegion this in store this (ORegion (Region.set_IsActive b r))).
Proof.
  intros s. unfold bind, getRegion, deref, bind, store.
  destruct (heap s !! this) as [[r| | |]|] eqn:Hx; simpl; try apply frame_refl.
  by apply (frame_store_static this (ORegion r)).
Qed.

Lemma Framed_State_set_IsActive this b :
  Framed (let* r := getState this in store this (OState (State.set_IsActive b r))).
Proof.
  intros s. unfold bind, getState, deref, bind, store.
  destruct (heap s !! this) as [[| |r|]|] eqn:Hx; simpl; try apply frame_refl.
  by apply (frame_store_static this (OState r)).
Qed.

Lemma Framed_PseudoState_OnExit this : Framed (PseudoState_OnExit this).
Proof.
  apply Framed_bind; [apply Framed_emit|]. intros _.
  intros s. unfold bind, getPseudoState, deref, bind, store.
  destruct (heap s !! this) as [[|r| |]|] eqn:Hx; simpl; try apply frame_refl.
  by apply (frame_store_static this (OPseudoState r)).
Qed.

(** Closes a goal [Framed m] when [m] is built from the steps above. *)
Ltac framed :=
  repeat first
    [ apply Framed_ret | apply Framed_throw | apply Framed_diverge | apply Framed_emit
    | apply Framed_deref | apply Framed_getRegion | apply Framed_getState
    | apply Framed_Region_set_IsActive | apply Framed_State_set_IsActive
    | apply Framed_PseudoState_OnExit | apply Framed_bind | apply Framed_forEach
    | match goal with |- forall _, _ => intro end ].

Lemma Framed_OnExit_of f g x :
  (forall y, Framed (f y)) -> (forall y, Framed (g y)) -> Framed (OnExit_of f g x).
Proof.
  intros Hf Hg. apply Framed_bind; [framed|].
  intros []; auto; framed.
Qed.

(** Leaving a region or a state writes [IsActive] flags and nothing else:
    every [Current], [Initial] and every list of the model is as before. *)
Lemma Framed_OnExit_methods n :
  (forall this, Framed (Region_OnExit n this)) /\ (forall this, Framed (State_OnExit n this)).
Proof.
  induction n as [|n [IHr IHs]]; [split; intros; apply Framed_diverge|].
  split; intros this; simpl.
  - apply Framed_bind; [framed|]. intros r.
    apply Framed_bind; [|framed].
    destruct (Region.Current r); [|framed].
    apply Framed_bind; [framed|]. intros o.
    destruct (IsActive_of o); [|framed].
    by apply Framed_OnExit_of.
  - apply Framed_bind; [framed|]. intros st.
    apply Framed_bind; [|framed].
    apply Framed_forEach. intros region.
    apply Framed_bind; [framed|]. intros r.
    destruct (Region.IsActive r); [apply IHr | framed].
Qed.

Lemma Framed_exit_if_active n region : Framed (exit_if_active n region).
Proof.
  apply Framed_bind; [framed|]. intros r.
  destruct (Region.IsActive r); [apply Framed_OnExit_methods | framed].
Qed.

Lemma Framed_Region_BeginEnter n this : Framed (Region_BeginEnter n this).
Proof.
  apply Framed_bind; [framed|]. intros r.
  apply Framed_bind; [|framed].
  destruct (Region.IsActive r); [apply Framed_OnExit_methods | framed].
Qed.

Lemma Framed_Ok {A} (m : M A) s a s' o : Framed m -> m s = Ok a s' o -> frame s s'.
Proof. intros H Hm. specialize (H s). by rewrite Hm in H. Qed.

Lemma frame_Region s s' x r :
  frame s s' -> heap s !! x = Some (ORegion r) ->
  exists r', heap s' !! x = Some (ORegion r') /\
    Region.set_IsActive false r' = Region.set_IsActive false r.
Proof.
  intros [_ H] Hx. specialize (H x). rewrite Hx in H.
  destruct (heap s' !! x) as [[r'| | |]|]; simpl in H; try discriminate.
  exists r'. split; [done|]. unfold Region.set_IsActive in *. congruence.
Qed.

Lemma frame_PseudoState s s' x p :
  frame s s' -> heap s !! x = Some (OPseudoState p) ->
  exists p', heap s' !! x = Some (OPseudoState p') /\
    PseudoState.set_IsActive false p' = PseudoState.set_IsActive false p.
Proof.
  intros [_ H] Hx. specialize (H x). rewrite Hx in H.
  destruct (heap s' !! x) as [[|p'| |]|]; simpl in H; try discriminate.
  exists p'. split; [done|]. unfold PseudoState.set_IsActive in *. congruence.
Qed.

Lemma frame_State s s' x st :
  frame s s' -> heap s !! x = Some (OState st) ->
  exists st', heap s' !! x = Some (OState st') /\
    State.set_IsActive false st' = State.set_IsActive false st.
Proof.
  intros [_ H] Hx. specialize (H x). rewrite Hx in H.
  destruct (heap s' !! x) as [[| |st'|]|]; simpl in H; try discriminate.
  exists st'. split; [done|]. unfold State.set_IsActive in *. congruence.
Qed.

(** A state that has been left is marked inactive. *)
Lemma State_OnExit_inactive n this s s1 o :
  State_OnExit n this s = Ok tt s1 o ->
  exists st1, heap s1 !! this = Some (OState st1) /\ State.IsActive st1 = false.
Proof.
  destruct n as [|n]; [done|]. simpl. intros H.
  apply bind_Ok in H as (st & sa & oa & ob & _ & H & _).
  apply bind_Ok in H as (? & sb & ? & ? & _ & H & _).
  apply bind_Ok in H as (? & sc & ? & ? & _ & H & _).
  apply bind_Ok in H as (? & sd & ? & ? & _ & H & _).
  apply bind_Ok in H as (? & se & ? & ? & _ & H & _).
  apply bind_Ok in H as (st' & sf & ? & ? & Hg & H & _).
  apply getState_Ok in Hg as (-> & _ & Hg).
  unfold store in H. injection H as <- _.
  eexists. split; [apply lookup_insert_eq|done].
Qed.

(** ** Ancestries and the loop of [Path] *)

(** Computing an ancestry reads the heap and nothing else. *)
Lemma Ancestors_pure fuel : forall node s l s' o,
  Ancestors fuel node s = Ok l s' o -> s' = s /\ o = [].
Proof.
  induction fuel as [|n IH]; [done|]. simpl. intros node s l s' o H.
  apply bind_Ok in H as (ob & s1 & o1 & o2 & Hd & H & ->).
  unfold deref in Hd. destruct (heap s !! node); [|done]. injection Hd as -> <- <-.
  destruct (Parent_of ob) as [p|].
  - apply bind_Ok in H as (l' & s2 & o3 & o4 & Ha & H & ->).
    apply IH in Ha as [-> ->]. by injection H as _ <- <-.
  - by injection H as _ <- <-.
Qed.

(** The loop of [Path] stops at the first index where the two ancestries
    differ. *)
Lemma Path_loop_first_difference fuel sa ta : forall i0 s i s' o,
  Path_loop fuel sa ta i0 s = Ok i s' o ->
  s' = s /\ o = [] /\ i0 <= i /\
  (forall j, i0 <= j < i -> sa !! j = ta !! j) /\ sa !! i <> ta !! i.
Proof.
  induction fuel as [|n IH]; [done|]. simpl. intros i0 s i s' o H.
  destruct (decide (sa !! i0 = ta !! i0)) as [Heq|Hne].
  - apply IH in H as (-> & -> & Hle & Hj & Hi). repeat split; [lia| |done].
    intros j Hj'. destruct (decide (j = i0)) as [->|]; [done|]. apply Hj. lia.
  - injection H as <- <- <-. repeat split; [lia| |done]. intros j Hj. lia.
Qed.

Lemma Ancestors_length fuel : forall node s l s' o,
  Ancestors fuel node s = Ok l s' o -> 1 <= length l <= fuel /\ list.last l = Some node.
Proof.
  induction fuel as [|n IH]; [done|]. simpl. intros node s l s' o H.
  apply bind_Ok in H as (ob & s1 & o1 & o2 & Hd & H & ->).
  destruct (Parent_of ob) as [p|].
  - apply bind_Ok in H as (l' & s2 & o3 & o4 & Ha & H & ->).
    apply IH in Ha as [Hlen _]. injection H as <- _ _.
    rewrite length_app, last_snoc. simpl. split; [lia|done].
  - injection H as <- _ _. simpl. split; [lia|done].
Qed.

Lemma Path_loop_split (common ra rb : list ref) s fuel : forall i0,
  head ra <> head rb ->
  i0 <= length common -> length common - i0 < fuel ->
  Path_loop fuel (common ++ ra) (common ++ rb) i0 s = Ok (length common) s [].
Proof.
  induction fuel as [|n IH]; intros i0 Hhead Hle Hfuel; [lia|]. simpl.
  destruct (decide (i0 = length common)) as [->|Hne].
  - rewrite !lookup_app_r, Nat.sub_diag, <- !head_lookup by lia.
    by rewrite decide_False.
  - rewrite !lookup_app_l by lia. rewrite decide_True by done.
    apply IH; [done|lia..].
Qed.

(** Two lists that are not equal share a prefix after which they begin
    differently. *)
Lemma first_difference (sa ta : list ref) :
  sa <> ta ->
  exists common ra rb, sa = common ++ ra /\ ta = common ++ rb /\ head ra <> head rb.
Proof.
  revert ta. induction sa as [|a sa IH]; intros [|b ta] Hne; try done.
  - by exists [], [], (b :: ta).
  - by exists [], (a :: sa), [].
  - destruct (decide (a = b)) as [->|Hab].
    + destruct (IH ta) as (common & ra & rb & -> & -> & Hh); [congruence|].
      by exists (b :: common), ra, rb.
    + exists [], (a :: sa), (b :: ta). repeat split. simpl. congruence.
Qed.

(** ** More fuel changes nothing

    A result reached within a bound on the depth of calls is the result
    within every larger bound, for each method and constructor. *)

Lemma approx_refl {A} (m : M A) : approx m m.
Proof. intros s. by right. Qed.

Lemma approx_diverge {A} (m : M A) : approx diverge m.
Proof. intros s. by left. Qed.

Lemma approx_bind {A B} (m m' : M A) (k k' : A -> M B) :
  approx m m' -> (forall a, approx (k a) (k' a)) -> approx (bind m k) (bind m' k').
Proof.
  intros Hm Hk s. unfold bind.
  destruct (Hm s) as [->| <-]; [by left|].
  destruct (m s) as [a s1 o1| |]; [|by right..].
  destruct (Hk a s1) as [->| <-]; [by left | by right].
Qed.

Lemma approx_forEach {A} (f f' : A -> M unit) l :
  (forall x, approx (f x) (f' x)) -> approx (forEach l f) (forEach l f').
Proof.
  intros Hf. induction l as [|x l IH]; simpl; [apply approx_refl|].
  apply approx_bind; auto.
Qed.

Lemma approx_Process_regions (f f' : ref -> M JSVal) regions :
  (forall x, approx (f x) (f' x)) ->
  forall processed,
    approx (Process_regions f regions processed) (Process_regions f' regions processed).
Proof.
  intros Hf. induction regions as [|region rest IH]; simpl; intros processed;
    [apply approx_refl|].
  apply approx_bind; [apply approx_refl|]. intros r.
  destruct (Region.IsActive r); [|apply IH].
  apply approx_bind; [apply Hf|]. intros v. apply IH.
Qed.

(** Closes [approx m m'] when [m'] is [m] with its calls replaced by calls
    known to approximate them. *)
Ltac approx :=
  repeat first
    [ assumption
    | apply approx_diverge
    | match goal with H : forall _, approx _ _ |- _ => apply H end
    | match goal with H : forall _ _, approx _ _ |- _ => apply H end
    | match goal with H : forall _ _ _, approx _ _ |- _ => apply H end
    | apply approx_bind
    | apply approx_forEach
    | apply approx_Process_regions
    | match goal with |- approx (match ?x with _ => _ end) _ => destruct x end
    | match goal with |- forall _, _ => intro end
    | apply approx_refl ].

Lemma approx_OnExit_of f f' g g' x :
  (forall y, approx (f y) (f' y)) -> (forall y, approx (g y) (g' y)) ->
  approx (OnExit_of f g x) (OnExit_of f' g' x).
Proof. intros Hf Hg. unfold OnExit_of. approx. Qed.

Lemma OnExit_methods_fuel n : forall m, n <= m ->
  (forall this, approx (Region_OnExit n this) (Region_OnExit m this)) /\
  (forall this, approx (State_OnExit n this) (State_OnExit m this)).
Proof.
  induction n as [|n IH]; intros m Hle; [split; intros; apply approx_diverge|].
  destruct m as [|m]; [lia|]. destruct (IH m ltac:(lia)) as [IHr IHs].
  split; intros this; simpl.
  - apply approx_bind; [apply approx_refl|]. intros r.
    apply approx_bind; [|approx].
    destruct (Region.Current r); [|approx].
    apply approx_bind; [approx|]. intros o.
    destruct (IsActive_of o); [|approx]. by apply approx_OnExit_of.
  - approx.
Qed.

Lemma OnExit_fuel n m x : n <= m -> approx (OnExit n x) (OnExit m x).
Proof.
  intros Hle. destruct (OnExit_methods_fuel n m Hle). by apply approx_OnExit_of.
Qed.

Lemma BeginEnter_fuel n m x : n <= m -> approx (BeginEnter n x) (BeginEnter m x).
Proof.
  intros Hle. destruct (OnExit_methods_fuel n m Hle) as [Hr Hs].
  unfold BeginEnter, Region_BeginEnter, State_BeginEnter. approx.
Qed.

Lemma Path_Exit_action_fuel n m x :
  n <= m -> approx (Path_Exit_action n x) (Path_Exit_action m x).
Proof.
  intros Hle. destruct x; simpl; [by apply OnExit_fuel | apply approx_refl].
Qed.

Lemma approx_EndEnter_of f f' g g' x d :
  (forall y e, approx (f y e) (f' y e)) -> (forall y e, approx (g y e) (g' y e)) ->
  approx (EndEnter_of f g x d) (EndEnter_of f' g' x d).
Proof. intros Hf Hg. unfold EndEnter_of. approx. Qed.

Lemma approx_Initialise_of n m r r' f f' g g' x d :
  n <= m ->
  (forall y e, approx (r y e) (r' y e)) ->
  (forall y e, approx (f y e) (f' y e)) -> (forall y e, approx (g y e) (g' y e)) ->
  approx (Initialise_of n r f g x d) (Initialise_of m r' f' g' x d).
Proof.
  intros Hle Hr Hf Hg. destruct (OnExit_methods_fuel n m Hle) as [Hor Hos].
  unfold Initialise_of, State_BeginEnter. approx.
Qed.

Lemma EndEnter_methods_fuel n : forall m, n <= m ->
  (forall this d, approx (Region_Initialise n this d) (Region_Initialise m this d)) /\
  (forall this d, approx (PseudoState_EndEnter n this d) (PseudoState_EndEnter m this d)) /\
  (forall this d, approx (State_EndEnter n this d) (State_EndEnter m this d)) /\
  (forall c d, approx (Completion_Traverse n c d) (Completion_Traverse m c d)).
Proof.
  induction n as [|n IH]; intros m Hle; [repeat split; intros; apply approx_diverge|].
  destruct m as [|m]; [lia|].
  destruct (IH m ltac:(lia)) as (IHr & IHp & IHs & IHc).
  assert (Hnm : n <= m) by lia.
  pose proof (OnExit_methods_fuel n m Hnm) as [Hor Hos].
  repeat split; intros; simpl.
  - apply approx_bind; [unfold Region_BeginEnter; approx|]. intros _.
    apply approx_bind; [approx|]. intros r.
    apply approx_bind; [approx|]. intros history.
    destruct (if history && bool_decide (is_Some (Region.Current r))
              then Region.Current r else Region.Initial r); [|approx].
    by apply approx_Initialise_of.
  - approx.
  - approx.
  - apply approx_bind; [apply approx_forEach; intros; by apply Path_Exit_action_fuel|].
    intros _. apply approx_bind; [approx|]. intros _.
    apply approx_bind; [apply approx_forEach; intros; by apply BeginEnter_fuel|].
    intros _. by apply approx_EndEnter_of.
Qed.

Lemma EndEnter_fuel n m x d : n <= m -> approx (EndEnter n x d) (EndEnter m x d).
Proof.
  intros Hle. destruct (EndEnter_methods_fuel n m Hle) as (_ & ? & ? & _).
  by apply approx_EndEnter_of.
Qed.

Lemma Initialise_fuel n m x d : n <= m -> approx (Initialise n x d) (Initialise m x d).
Proof.
  intros Hle. destruct (EndEnter_methods_fuel n m Hle) as (? & ? & ? & _).
  by apply approx_Initialise_of.
Qed.

Lemma Transition_Traverse_fuel n m t message :
  n <= m -> approx (Transition_Traverse n t message) (Transition_Traverse m t message).
Proof.
  intros Hle. unfold Transition_Traverse.
  apply approx_bind; [apply approx_forEach; intros; by apply Path_Exit_action_fuel|].
  intros _. apply approx_bind; [approx|]. intros _.
  apply approx_bind; [apply approx_forEach; intros; by apply BeginEnter_fuel|].
  intros _. by apply EndEnter_fuel.
Qed.

Lemma approx_Process_of f f' g g' x message :
  (forall y e, approx (f y e) (f' y e)) -> (forall y e, approx (g y e) (g' y e)) ->
  approx (Process_of f g x message) (Process_of f' g' x message).
Proof. intros Hf Hg. unfold Process_of. approx. Qed.

Lemma Process_methods_fuel n : forall m, n <= m ->
  (forall this message,
     approx (State_Process n this message) (State_Process m this message)) /\
  (forall this message,
     approx (Region_Process n this message) (Region_Process m this message)).
Proof.
  induction n as [|n IH]; intros m Hle; [split; intros; apply approx_diverge|].
  destruct m as [|m]; [lia|]. destruct (IH m ltac:(lia)) as [IHs IHr].
  assert (Hnm : n <= m) by lia.
  split; intros; simpl.
  - apply approx_bind; [approx|]. intros st.
    apply approx_bind; [approx|]. intros [t|].
    + apply approx_bind; [by apply Transition_Traverse_fuel | approx].
    + destruct (negb (State.IsSimple st)); [|approx].
      apply approx_bind; [|approx].
      apply approx_Process_regions. intros region. apply IHr.
  - apply approx_bind; [approx|]. intros r.
    destruct (Region.Current r); [|approx].
    apply approx_bind; [by apply approx_Process_of | approx].
Qed.

(** What [Process] returns or raises within some bound on the depth of calls,
    it returns or raises within any larger one. *)
Lemma State_Process_fuel n m this message s :
  n <= m -> State_Process n this message s <> OutOfFuel ->
  State_Process m this message s = State_Process n this message s.
Proof.
  intros Hle Hn. destruct (Process_methods_fuel n m Hle) as [H _].
  destruct (H this message s) as [?| <-]; done.
Qed.

Lemma Ancestors_fuel n : forall m node, n <= m -> approx (Ancestors n node) (Ancestors m node).
Proof.
  induction n as [|n IH]; intros m node Hle; [apply approx_diverge|].
  destruct m as [|m]; [lia|]. simpl.
  apply approx_bind; [approx|]. intros o.
  destruct (Parent_of o); [|approx].
  apply approx_bind; [apply IH; lia | approx].
Qed.

Lemma Path_loop_fuel sa ta n : forall m i,
  n <= m -> approx (Path_loop n sa ta i) (Path_loop m sa ta i).
Proof.
  induction n as [|n IH]; intros m i Hle; [apply approx_diverge|].
  destruct m as [|m]; [lia|]. simpl.
  destruct (decide (sa !! i = ta !! i)); [apply IH; lia | approx].
Qed.

Lemma Path_fuel n m source target :
  n <= m -> approx (Path n source target) (Path m source target).
Proof.
  intros Hle. unfold Path.
  apply approx_bind; [by apply Ancestors_fuel|]. intros sa.
  apply approx_bind; [by apply Ancestors_fuel|]. intros ta.
  apply approx_bind; [by apply Path_loop_fuel | approx].
Qed.

(** ** Completion transitions of a State *)

(** State.prototype.EndEnter finds the completion whose guard holds and then
    calls the object itself instead of its [Traverse]: on a simple state with
    exactly one such completion it raises, and nothing is exited, effected or
    entered. *)
Lemma State_EndEnter_completion_raises n this deepHistory s st c :
  heap s !! this = Some (OState st) ->
  State.Regions st = [] ->
  List.filter Completion.Guard (State.Completions st) = [c] ->
  State_EndEnter (S n) this deepHistory s = Throw TypeError s [].
Proof.
  intros Hthis Hregions Hc. simpl.
  rewrite (bind_run _ _ _ _ _ (getState_run _ _ _ Hthis)), Hregions. simpl.
  rewrite (bind_run _ _ _ _ _ (ret_run _ _)).
  rewrite (bind_run _ _ _ _ _ (getState_run _ _ _ Hthis)).
  unfold State.IsSimple. rewrite Hregions, Hc. simpl.
  destruct (State.Completions st); [done|]. done.
Qed.

(** C1 (the code departs from the claim).  In the completion model [A] is a
    simple state whose only completion transition, to [B], has a true guard.
    The claim has the transition fire once [A] is entered: exit [A], enter
    [B].  The code raises a TypeError at the end of the entry of [A]; the exit
    action of [A] and the entry action of [B] are never called. *)
Theorem completion_of_State_not_traversed :
  (exists st, heap completion_store !! 3 = Some (OState st) /\
     State.Regions st = [] /\ map Completion.Guard (State.Completions st) = [true]) /\
  outcome_of (EndEnter 9 3 false completion_store) = Raised TypeError /\
  events_of (EndEnter 9 3 false completion_store) = [] /\
  outcome_of (Initialise 9 0 false completion_store) = Raised TypeError /\
  events_of (Initialise 9 0 false completion_store)
  = [LogEnter 0; LogEnter 1; LogEnter 2; LogLeave 2; LogEnter 3].
Proof.
  split; [eexists; split; [vm_compute; reflexivity | split; reflexivity]|].
  repeat split; vm_compute; reflexivity.
Qed.

(** ** What [Process] reports *)

(** Region.prototype.Process has no [return]: whatever happens below, its
    caller gets [undefined]. *)
Lemma Region_Process_undefined n this message s v s' o :
  Region_Process n this message s = Ok v s' o -> v = VUndefined.
Proof.
  destruct n as [|n]; [done|]. simpl. intros H.
  apply bind_Ok in H as (r & s1 & ? & ? & _ & H & _).
  destruct (Region.Current r); [|done].
  apply bind_Ok in H as (? & s2 & ? & ? & _ & H & _). by injection H as <- _ _.
Qed.

Lemma Process_regions_unchanged (f : ref -> M JSVal) :
  (forall region s v s' o, f region s = Ok v s' o -> v = VUndefined) ->
  forall regions processed s b s' o,
    Process_regions f regions processed s = Ok b s' o -> b = processed.
Proof.
  intros Hf. induction regions as [|region rest IH]; simpl; intros processed s b s' o H.
  - by injection H as <- _ _.
  - apply bind_Ok in H as (r & s1 & ? & ? & _ & H & _).
    destruct (Region.IsActive r); [|by eapply IH].
    apply bind_Ok in H as (v & s2 & ? & ? & Hv & H & _).
    apply Hf in Hv as ->. by eapply IH.
Qed.

(** So a state none of whose own transitions is enabled reports [false],
    whether or not a state below it traversed a transition. *)
Lemma State_Process_children_unreported n this message s st v s' o :
  heap s !! this = Some (OState st) ->
  List.filter (fun t => Transition.Guard t message) (State.Transitions st) = [] ->
  State_Process (S n) this message s = Ok v s' o -> v = VBool false.
Proof.
  intros Hthis Hnone. simpl.
  rewrite (bind_run _ _ _ _ _ (getState_run _ _ _ Hthis)), Hnone. simpl.
  rewrite (bind_run _ _ _ _ _ (ret_run _ _)).
  destruct (negb (State.IsSimple st)); [|by intros [= <- _ _]].
  intros H. apply bind_Ok in H as (b & s1 & ? & ? & Hp & H & _).
  injection H as <- _ _. f_equal.
  eapply Process_regions_unchanged; [|exact Hp].
  intros region s0 v0 s0' o0. apply Region_Process_undefined.
Qed.

(** C2 (the code departs from the claim).  In the toggle model the root [S]
    has no transition of its own and its region is active with [A] current;
    the message "go" enables the transition from [A] to [B].  Dispatching
    "go" at [S] descends and the transition is traversed, yet the result is
    [false]; the same message dispatched at [A] itself gives [true]. *)
Theorem child_traversal_not_reported :
  outcome_of (State_Process 9 0 "go" toggle_store) = Returned (VBool false) /\
  events_of (State_Process 9 0 "go" toggle_store)
  = [Call "exit A" None; LogLeave 3; Call "effect" (Some "go"); LogEnter 4;
     Call "entry B" None] /\
  outcome_of (State_Process 9 3 "go" toggle_store) = Returned (VBool true).
Proof. repeat split; vm_compute; reflexivity. Qed.

(** ** The order in which child regions are left and entered *)

(** C3 as stated fails.  With both regions of the orthogonal state [S] active,
    [S.OnExit()] leaves [r1], declared first, before [r2]; taking the regions
    last declared first gives another trace. *)
Lemma State_OnExit_not_in_reverse_order :
  events_of (State_OnExit 4 0 orthogonal_store)
  = [Call "exit a" None; LogLeave 4; LogLeave 1;
     Call "exit x" None; LogLeave 6; LogLeave 2;
     Call "exit S" None; LogLeave 0] /\
  events_of (State_OnExit_reverse_regions 4 0 orthogonal_store)
  = [Call "exit x" None; LogLeave 6; LogLeave 2;
     Call "exit a" None; LogLeave 4; LogLeave 1;
     Call "exit S" None; LogLeave 0] /\
  State_OnExit 4 0 orthogonal_store <> State_OnExit_reverse_regions 4 0 orthogonal_store.
Proof.
  split; [vm_compute; reflexivity|]. split; [vm_compute; reflexivity|].
  intros H. apply (f_equal events_of) in H. vm_compute in H. discriminate.
Qed.

(** C3, amended.  Leaving a state leaves its active child regions in
    declaration order, first declared first, each on the heap the previous
    one left; then the exit actions are called in order, all on the heap the
    regions left; then the leave is logged and the state is marked inactive:
    the exit returns exactly when the regions can be left in that order, and
    what it produces is this.  Completing the entry of a state initialises its
    regions in declaration order. *)
Theorem State_OnExit_declaration_order (n : nat) (this : ref) (s : Store) (st : State.t) :
  heap s !! this = Some (OState st) ->
  (forall s' out,
     State_OnExit (S n) this s = Ok tt s' out <->
     exists s1 o1 st1,
       runs_in_order (exit_if_active n) (State.Regions st) s s1 o1 /\
       heap s1 !! this = Some (OState st1) /\
       out = o1 ++ map (fun a => (Call a None, s1)) (State.Exit st)
                ++ [(LogLeave this, s1)] /\
       s' = mkStore (<[this := OState (State.set_IsActive false st1)]> (heap s1))
              (next s1)) /\
  (forall deepHistory s' out,
     State_EndEnter (S n) this deepHistory s = Ok tt s' out ->
     exists s1 o1 o2,
       runs_in_order (fun region => Region_Initialise n region deepHistory)
         (State.Regions st) s s1 o1 /\
       out = o1 ++ o2).
Proof.
  intros Hthis.
  assert (Hrest : forall s1 o1 st1,
    forEach (State.Regions st) (exit_if_active n) s = Ok tt s1 o1 ->
    heap s1 !! this = Some (OState st1) ->
    State_OnExit (S n) this s
    = Ok tt (mkStore (<[this := OState (State.set_IsActive false st1)]> (heap s1)) (next s1))
        (o1 ++ map (fun a => (Call a None, s1)) (State.Exit st) ++ [(LogLeave this, s1)])).
  { intros s1 o1 st1 Hr Hthis1. simpl.
    pose proof (Framed_Ok _ _ _ _ _ (Framed_forEach _ _ (Framed_exit_if_active n)) Hr) as Hfr.
    destruct (frame_State _ _ _ _ Hfr Hthis) as (st1' & Hthis1' & Hst1).
    rewrite Hthis1 in Hthis1'. injection Hthis1' as <-.
    injection Hst1 as _ _ _ HX _ _ _ _.
    rewrite (bind_run _ _ _ _ _ (getState_run _ _ _ Hthis)).
    unfold exit_if_active in Hr. rewrite (bind_step _ _ _ _ _ _ Hr).
    rewrite (bind_run _ _ _ _ _ (getState_run _ _ _ Hthis1)).
    rewrite (bind_step _ _ _ _ _ _ (forEach_call _ _ _)).
    rewrite (bind_step _ _ _ _ _ _ (emit_run _ _)).
    rewrite (bind_run _ _ _ _ _ (getState_run _ _ _ Hthis1)).
    rewrite store_run, HX. done. }
  split.
  - intros s' out. split.
    + intros H. pose proof H as H0. simpl in H.
      rewrite (bind_run _ _ _ _ _ (getState_run _ _ _ Hthis)) in H.
      apply bind_Ok in H as ([] & s1 & o1 & o2 & Hr & _ & _).
      pose proof (Framed_Ok _ _ _ _ _ (Framed_forEach _ _ (Framed_exit_if_active n)) Hr)
        as Hfr.
      destruct (frame_State _ _ _ _ Hfr Hthis) as (st1 & Hthis1 & _).
      rewrite (Hrest s1 o1 st1 Hr Hthis1) in H0. injection H0 as <- <-.
      exists s1, o1, st1. split; [by apply forEach_in_order|done].
    + intros (s1 & o1 & st1 & Hr & Hthis1 & -> & ->).
      apply forEach_in_order in Hr. by apply Hrest.
  - intros deepHistory s' out H. simpl in H.
    rewrite (bind_run _ _ _ _ _ (getState_run _ _ _ Hthis)) in H.
    apply bind_Ok in H as ([] & s1 & o1 & o2 & Hr & H & ->).
    exists s1, o1, o2. split; [by apply forEach_in_order|done].
Qed.

Lemma State_OnExit_declaration_order_witness :
  let left := State_OnExit 4 0 orthogonal_store in
  let entered := State_EndEnter 6 0 false orthogonal_built in
  (exists s1 o1 st1,
     runs_in_order (exit_if_active 3) [1; 2] orthogonal_store s1 o1 /\
     heap s1 !! 0 = Some (OState st1) /\
     trace_of left = o1 ++ map (fun a => (Call a None, s1)) ["exit S"]
                        ++ [(LogLeave 0, s1)] /\
     store_of left
     = mkStore (<[0 := OState (State.set_IsActive false st1)]> (heap s1)) (next s1)) /\
  (exists s1 o1 o2,
     runs_in_order (fun region => Region_Initialise 5 region false) [1; 2]
       orthogonal_built s1 o1 /\
     trace_of entered = o1 ++ o2).
Proof.
  intros left entered. split.
  - apply (proj1 (proj1 (State_OnExit_declaration_order 3 0 orthogonal_store
             (State.mk "S" None true ["entry S"] ["exit S"] [1; 2] [] [] None)
             ltac:(vm_compute; reflexivity)) (store_of left) (trace_of left))).
    vm_compute. reflexivity.
  - apply (proj2 (State_OnExit_declaration_order 5 0 orthogonal_built
             (State.mk "S" None false ["entry S"] ["exit S"] [1; 2] [] [] None)
             ltac:(vm_compute; reflexivity)) false (store_of entered) (trace_of entered)).
    vm_compute. reflexivity.
Defined.

(** ** Choosing the transition *)

(** A traversal returns exactly when its four phases do, one after the
    other. *)
Lemma Transition_Traverse_Ok (n : nat) (t : Transition.t) (message : Message)
  (s s' : Store) (out : Trace) :
  Transition_Traverse n t message s = Ok tt s' out <->
  exists s1 o1 s2 o2 o3,
    forEach (PathObj.Exit (Transition.Path t)) (Path_Exit_action n) s = Ok tt s1 o1 /\
    forEach (PathObj.Enter (Transition.Path t)) (BeginEnter n) s1 = Ok tt s2 o2 /\
    EndEnter n (PathObj.Complete (Transition.Path t)) false s2 = Ok tt s' o3 /\
    out = o1 ++ map (fun a => (Call a (Some message), s1)) (Transition.Effect t) ++ o2 ++ o3.
Proof.
  unfold Transition_Traverse. split.
  - intros H.
    apply bind_Ok in H as ([] & s1 & o1 & ? & H1 & H & ->).
    rewrite (bind_step _ _ _ _ _ _ (forEach_call _ _ _)) in H.
    destruct ((forEach (PathObj.Enter (Transition.Path t)) (BeginEnter n);;
      EndEnter n (PathObj.Complete (Transition.Path t)) false) s1)
      as [[] sx ox| |] eqn:H2; try discriminate.
    injection H as <- <-.
    apply bind_Ok in H2 as ([] & s2 & o2 & o3 & H2 & H3 & ->).
    by exists s1, o1, s2, o2, o3.
  - intros (s1 & o1 & s2 & o2 & o3 & H1 & H2 & H3 & ->).
    rewrite (bind_step _ _ _ _ _ _ H1).
    rewrite (bind_step _ _ _ _ _ _ (forEach_call _ _ _)).
    rewrite (bind_step _ _ _ _ _ _ H2). by rewrite H3.
Qed.

(** C4.  At a State, if two or more outgoing transitions have a guard that
    holds for the message, dispatching the message raises the error of
    [singleOrDefault] and nothing else happens.  If exactly one has, that
    transition is traversed, and whatever the traversal does is what the
    dispatch does: it returns exactly when the exit plan of the transition's
    path, its effects (each called with the message), the entry plan and the
    completion of the target's entry have run one after the other, from
    the heap the dispatch found; the trace is theirs in that order and the
    message is reported as processed. *)
Theorem State_Process_guards (n : nat) (this : ref) (message : Message) (s : Store)
  (st : State.t) :
  heap s !! this = Some (OState st) ->
  let enabled := List.filter (fun t => Transition.Guard t message) (State.Transitions st) in
  (2 <= length enabled ->
   State_Process (S n) this message s
   = Throw (Error "Cannot return more than one elements") s []) /\
  (forall t, enabled = [t] ->
   State_Process (S n) this message s
   = (Transition_Traverse n t message ;; ret (VBool true)) s /\
   forall v s' out,
     State_Process (S n) this message s = Ok v s' out <->
     v = VBool true /\
     exists s1 o1 s2 o2 o3,
       forEach (PathObj.Exit (Transition.Path t)) (Path_Exit_action n) s = Ok tt s1 o1 /\
       forEach (PathObj.Enter (Transition.Path t)) (BeginEnter n) s1 = Ok tt s2 o2 /\
       EndEnter n (PathObj.Complete (Transition.Path t)) false s2 = Ok tt s' o3 /\
       out = o1 ++ map (fun a => (Call a (Some message), s1)) (Transition.Effect t)
                ++ o2 ++ o3).
Proof.
  intros Hthis enabled.
  assert (Hone : forall t, enabled = [t] ->
            State_Process (S n) this message s
            = (Transition_Traverse n t message ;; ret (VBool true)) s).
  { intros t Ht. simpl. rewrite (bind_run _ _ _ _ _ (getState_run _ _ _ Hthis)).
    fold enabled. rewrite Ht. simpl. by rewrite (bind_run _ _ _ _ _ (ret_run _ _)). }
  split.
  - intros Hlen. simpl. rewrite (bind_run _ _ _ _ _ (getState_run _ _ _ Hthis)).
    fold enabled. destruct enabled as [|t1 [|t2 l]]; simpl in Hlen; try lia. done.
  - intros t Ht. split; [by apply Hone|]. intros v s' out. rewrite (Hone t Ht). split.
    + intros H. apply bind_Ok in H as ([] & s1 & o1 & o2 & H1 & H2 & ->).
      injection H2 as <- <- <-. split; [done|].
      rewrite app_nil_r. by apply Transition_Traverse_Ok.
    + intros [-> H]. apply Transition_Traverse_Ok in H.
      rewrite (bind_step _ _ _ _ _ _ H). simpl. by rewrite app_nil_r.
Qed.

Lemma State_Process_guards_witness :
  let go := Transition.mk (String.eqb "go") (PathObj.mk [Some 3] [4] 4) ["effect"] in
  let run := State_Process 9 3 "go" toggle_store in
  State_Process 9 3 "go" ambiguous_store
  = Throw (Error "Cannot return more than one elements") ambiguous_store [] /\
  outcome_of run = Returned (VBool true) /\
  events_of run
  = [Call "exit A" None; LogLeave 3; Call "effect" (Some "go"); LogEnter 4;
     Call "entry B" None] /\
  exists s1 o1 s2 o2 o3,
    forEach [Some 3] (Path_Exit_action 8) toggle_store = Ok tt s1 o1 /\
    forEach [4] (BeginEnter 8) s1 = Ok tt s2 o2 /\
    EndEnter 8 4 false s2 = Ok tt (store_of run) o3 /\
    trace_of run = o1 ++ map (fun a => (Call a (Some "go"), s1)) ["effect"] ++ o2 ++ o3.
Proof.
  intros go run.
  set (A2 := State.mk "A" (Some 1) true [] ["exit A"] [] []
               [go; Transition.mk (fun _ => true) (PathObj.mk [Some 3] [4] 4) []] None).
  set (A1 := State.mk "A" (Some 1) true [] ["exit A"] [] [] [go] None).
  assert (HA2 : heap ambiguous_store !! 3 = Some (OState A2)) by (vm_compute; reflexivity).
  assert (HA1 : heap toggle_store !! 3 = Some (OState A1)) by (vm_compute; reflexivity).
  split; [|split; [vm_compute; reflexivity|split; [vm_compute; reflexivity|]]].
  - apply (proj1 (State_Process_guards 8 3 "go" ambiguous_store A2 HA2)).
    vm_compute. lia.
  - apply (proj1 (proj2 (proj2 (State_Process_guards 8 3 "go" toggle_store A1 HA1)
                           go eq_refl)
                    (VBool true) (store_of run) (trace_of run))).
    vm_compute. reflexivity.
Defined.

(** ** Entering a region *)

(** C5.  Initialising a region that has an initial pseudo state begins the
    entry of the region and then initialises one vertex: the last-known
    current state, when there is one and the [deepHistory] flag is true or the
    initial pseudo state is of a history kind; the initial pseudo state
    otherwise.  The current state is the one the region had when the call
    began. *)
Theorem Region_Initialise_vertex (n : nat) (this : ref) (deepHistory : bool) (s : Store)
  (r : Region.t) (initial : ref) (p : PseudoState.t) :
  heap s !! this = Some (ORegion r) ->
  Region.Initial r = Some initial ->
  heap s !! initial = Some (OPseudoState p) ->
  let vertex :=
    match Region.Current r with
    | Some current =>
        if deepHistory || PseudoStateKind.IsHistory (PseudoState.Kind p)
        then current else initial
    | None => initial
    end in
  Region_Initialise (S n) this deepHistory s
  = (Region_BeginEnter n this ;; Initialise n vertex deepHistory) s.
Proof.
  intros Hthis Hini Hp vertex. simpl.
  apply bind_ext. intros [] s1 o1 Hrun.
  pose proof (Framed_Ok _ _ _ _ _ (Framed_Region_BeginEnter n this) Hrun) as Hfr.
  destruct (frame_Region _ _ _ _ Hfr Hthis) as (r1 & Hthis1 & Hr1).
  destruct (frame_PseudoState _ _ _ _ Hfr Hp) as (p1 & Hp1 & Hp1').
  injection Hr1 as _ _ _ HI HC. injection Hp1' as HK _ _.
  rewrite (bind_run _ _ _ _ _ (getRegion_run _ _ _ Hthis1)).
  rewrite HI, HC, Hini.
  assert (Hh : (if deepHistory then ret true
                else let* p0 := getPseudoState initial in
                     ret (PseudoStateKind.IsHistory (PseudoState.Kind p0))) s1
               = Ok (deepHistory || PseudoStateKind.IsHistory (PseudoState.Kind p)) s1 []).
  { destruct deepHistory; [done|].
    rewrite (bind_run _ _ _ _ _ (getPseudoState_run _ _ _ Hp1)). by rewrite HK. }
  rewrite (bind_run _ _ _ _ _ Hh).
  subst vertex. unfold Initialise.
  destruct (Region.Current r) as [c|];
    destruct (deepHistory || PseudoStateKind.IsHistory (PseudoState.Kind p)); done.
Qed.

Lemma Region_Initialise_vertex_witness :
  Region_Initialise 6 1 true orthogonal_store
  = (Region_BeginEnter 5 1 ;; Initialise 5 4 true) orthogonal_store /\
  Region_Initialise 6 1 false orthogonal_store
  = (Region_BeginEnter 5 1 ;; Initialise 5 3 false) orthogonal_store /\
  events_of (Region_Initialise 6 1 true orthogonal_store)
  = [Call "exit a" None; LogLeave 4; LogLeave 1; LogEnter 1; LogEnter 4;
     Call "entry a" None].
Proof.
  set (r1 := Region.mk "r1" (Some 0) true [3; 4] (Some 3) (Some 4)).
  set (i1 := PseudoState.mk PseudoStateKind.Initial 1
               [Completion.mk true (PathObj.mk [Some 3] [4] 4) []] (Some false)).
  assert (H1 : heap orthogonal_store !! 1 = Some (ORegion r1)) by (vm_compute; reflexivity).
  assert (H3 : heap orthogonal_store !! 3 = Some (OPseudoState i1))
    by (vm_compute; reflexivity).
  split; [|split].
  - exact (Region_Initialise_vertex 5 1 true orthogonal_store r1 3 i1 H1 eq_refl H3).
  - exact (Region_Initialise_vertex 5 1 false orthogonal_store r1 3 i1 H1 eq_refl H3).
  - vm_compute. reflexivity.
Defined.

(** ** The exit plan of a path *)

(** C6.  For a PseudoState source and a different target whose ancestries
    [Ancestors] returns, [Path] returns a path.  Let [i] be the first index
    at which the two ancestries differ.  When the source-side element at
    [i] is not the source itself, the exit plan is the exit of the source
    followed by the exit of that element; when it is the source, the plan is
    the exit of the source alone. *)
Theorem Path_Exit_of_PseudoState (fuel : nat) (source target : ref) (s : Store)
  (ps : PseudoState.t) (sourceAncestors targetAncestors : list ref)
  (s1 s2 : Store) (o1 o2 : Trace) :
  heap s !! source = Some (OPseudoState ps) ->
  source <> target ->
  Ancestors fuel source s = Ok sourceAncestors s1 o1 ->
  Ancestors fuel target s = Ok targetAncestors s2 o2 ->
  exists (i : nat) (p : PathObj.t),
    Path fuel source target s = Ok p s [] /\
    (forall j, j < i -> sourceAncestors !! j = targetAncestors !! j) /\
    sourceAncestors !! i <> targetAncestors !! i /\
    (sourceAncestors !! i <> Some source ->
     PathObj.Exit p = [Some source; sourceAncestors !! i]) /\
    (sourceAncestors !! i = Some source -> PathObj.Exit p = [Some source]).
Proof.
  intros Hsrc Hne Hsa Hta.
  destruct (Ancestors_pure _ _ _ _ _ _ Hsa) as [-> ->].
  destruct (Ancestors_pure _ _ _ _ _ _ Hta) as [-> ->].
  destruct (Ancestors_length _ _ _ _ _ _ Hsa) as [[_ Hlsa] Hlast_s].
  destruct (Ancestors_length _ _ _ _ _ _ Hta) as [[_ Hlta] Hlast_t].
  destruct (first_difference sourceAncestors targetAncestors)
    as (common & ra & rb & Es & Et & Hhead); [congruence|].
  assert (Hfuel : length common < fuel).
  { rewrite Es, Et in *. rewrite length_app in Hlsa, Hlta.
    destruct ra as [|x ra]; destruct rb as [|y rb]; simpl in *; try done; lia. }
  assert (Hloop : Path_loop fuel sourceAncestors targetAncestors 0 s
                  = Ok (length common) s []).
  { rewrite Es, Et. apply Path_loop_split; [done|lia..]. }
  destruct (Path_loop_first_difference _ _ _ _ _ _ _ _ Hloop) as (_ & _ & _ & Hj & Hi).
  set (i := length common) in *.
  exists i. eexists. split; [|split; [intros j Hlt; apply Hj; lia|split; [exact Hi|]]].
  - unfold Path.
    rewrite (bind_run _ _ _ _ _ Hsa), (bind_run _ _ _ _ _ Hta).
    rewrite (bind_run _ _ _ _ _ Hloop).
    rewrite (bind_run _ _ _ _ _ (deref_run _ _ _ Hsrc)). reflexivity.
  - simpl. split.
    + intros Hn. by rewrite bool_decide_eq_false_2.
    + intros Heq. rewrite bool_decide_eq_true_2 by done. simpl. by rewrite Heq.
Qed.

Lemma Path_Exit_of_PseudoState_witness :
  Path 5 3 6 orthogonal_built
  = Ok (PathObj.mk [Some 3; Some 1] [2; 6] 6) orthogonal_built [] /\
  exists (i : nat) (p : PathObj.t),
    Path 5 3 6 orthogonal_built = Ok p orthogonal_built [] /\
    (forall j, j < i -> [0; 1; 3] !! j = [0; 2; 6] !! j) /\
    [0; 1; 3] !! i <> [0; 2; 6] !! i /\
    ([0; 1; 3] !! i <> Some 3 -> PathObj.Exit p = [Some 3; [0; 1; 3] !! i]) /\
    ([0; 1; 3] !! i = Some 3 -> PathObj.Exit p = [Some 3]).
Proof.
  split; [vm_compute; reflexivity|].
  apply (Path_Exit_of_PseudoState 5 3 6 orthogonal_built
           (PseudoState.mk PseudoStateKind.Initial 1
              [Completion.mk true (PathObj.mk [Some 3] [4] 4) []] None)
           [0; 1; 3] [0; 2; 6] orthogonal_built orthogonal_built [] []).
  - vm_compute. reflexivity.
  - lia.
  - vm_compute. reflexivity.
  - vm_compute. reflexivity.
Defined.

(** ** Traversing a transition *)

Lemma Region_IsComplete_pure x s b s' o :
  Region_IsComplete x s = Ok b s' o -> s' = s /\ o = [].
Proof.
  unfold Region_IsComplete, getRegion, deref, bind.
  destruct (heap s !! x) as [[r| | |]|]; simpl; try done.
  destruct (Region.Current r) as [c|]; simpl; [|by intros [= _ <- <-]].
  destruct (heap s !! c); simpl; [|done]. by intros [= _ <- <-].
Qed.

Lemma every_IsComplete_pure l : forall s b s' o,
  every l Region_IsComplete s = Ok b s' o -> s' = s /\ o = [].
Proof.
  induction l as [|y l IH]; simpl; intros s b s' o H; [by injection H as _ <- <-|].
  apply bind_Ok in H as (c & s1 & o1 & o2 & Hy & H & ->).
  apply Region_IsComplete_pure in Hy as [-> ->].
  destruct c; [by apply IH in H as [-> ->] | by injection H as _ <- <-].
Qed.

Lemma PseudoState_EndEnter_S n this deepHistory :
  PseudoState_EndEnter (S n) this deepHistory
  = (let* p := getPseudoState this in
     let* completion := GetCompletion (PseudoState.Kind p) (PseudoState.Completions p) in
     Completion_Traverse n completion deepHistory).
Proof. reflexivity. Qed.

Lemma GetCompletion_pure k completions s c s' o :
  GetCompletion k completions s = Ok c s' o -> s' = s /\ o = [].
Proof.
  unfold GetCompletion, single. intros H.
  destruct k;
    match type of H with
    | match ?l with _ => _ end _ = _ => destruct l as [|? [|? ?]]
    end; try done; by injection H as _ <- <-.
Qed.

(** When the end of the entry of a State returns, the regions of the state
    have been initialised in the order of their declaration, and that is
    all. *)
Lemma State_EndEnter_returns n this deepHistory s st s' out :
  heap s !! this = Some (OState st) ->
  State_EndEnter (S n) this deepHistory s = Ok tt s' out ->
  runs_in_order (fun region => Region_Initialise n region deepHistory)
    (State.Regions st) s s' out.
Proof.
  intros Hthis H. simpl in H.
  rewrite (bind_run _ _ _ _ _ (getState_run _ _ _ Hthis)) in H.
  apply bind_Ok in H as ([] & s1 & o1 & o2 & Hr & H & ->).
  apply forEach_in_order in Hr.
  enough (s' = s1 /\ o2 = []) as [-> ->] by by rewrite app_nil_r.
  apply bind_Ok in H as (st1 & sa & oa & ob & Hg & H & ->).
  apply getState_Ok in Hg as (-> & -> & _). simpl.
  destruct (0 <? length (State.Completions st1))%nat; [|by injection H as <- <-].
  apply bind_Ok in H as (complete & sb & oc & od & Hc & H & ->).
  assert (sb = s1 /\ oc = []) as [-> ->].
  { destruct (State.IsSimple st1); [by injection Hc as _ <- <-|].
    by apply every_IsComplete_pure in Hc. }
  destruct complete; [|by injection H as <- <-].
  apply bind_Ok in H as ([c|] & sc & oe & og & Hs & H & ->); [done|].
  injection H as <- <-. unfold singleOrDefault in Hs.
  destruct (List.filter Completion.Guard (State.Completions st1)) as [|? [|]];
    try done. by injection Hs as <- <-.
Qed.

(** C7.  A traversal of a transition returns exactly when its four phases
    do, one after the other: the exit plan of the path runs on the heap the
    traversal found; the effects are called in declaration order, each with
    the message and on the heap the exits left; the entry plan runs next; the
    entry of the target is completed last.  That last phase, for a target
    that is a State, is the initialisation of its regions in the order of
    their declaration, with nothing added by the evaluation of its
    completions; for a target that is a PseudoState it is the traversal of
    the completion its kind selects.  The trace is the four traces in that
    order. *)
Theorem Transition_Traverse_order (n : nat) (t : Transition.t) (message : Message)
  (s s' : Store) (out : Trace) :
  let target := PathObj.Complete (Transition.Path t) in
  Transition_Traverse (S n) t message s = Ok tt s' out <->
  exists s1 o1 s2 o2 o3,
    forEach (PathObj.Exit (Transition.Path t)) (Path_Exit_action (S n)) s = Ok tt s1 o1 /\
    forEach (PathObj.Enter (Transition.Path t)) (BeginEnter (S n)) s1 = Ok tt s2 o2 /\
    EndEnter (S n) target false s2 = Ok tt s' o3 /\
    (forall st, heap s2 !! target = Some (OState st) ->
       runs_in_order (fun region => Region_Initialise n region false)
         (State.Regions st) s2 s' o3) /\
    (forall p, heap s2 !! target = Some (OPseudoState p) ->
       exists c,
         GetCompletion (PseudoState.Kind p) (PseudoState.Completions p) s2 = Ok c s2 [] /\
         Completion_Traverse n c false s2 = Ok tt s' o3) /\
    out = o1 ++ map (fun a => (Call a (Some message), s1)) (Transition.Effect t) ++ o2 ++ o3.
Proof.
  intros target. rewrite Transition_Traverse_Ok. fold target. split.
  - intros (s1 & o1 & s2 & o2 & o3 & H1 & H2 & H3 & ->).
    exists s1, o1, s2, o2, o3. repeat split; try done.
    + intros st Ht. unfold EndEnter, EndEnter_of in H3.
      rewrite (bind_run _ _ _ _ _ (deref_run _ _ _ Ht)) in H3.
      by apply (State_EndEnter_returns n target false s2 st).
    + intros p Ht. unfold EndEnter, EndEnter_of in H3.
      rewrite (bind_run _ _ _ _ _ (deref_run _ _ _ Ht)) in H3.
      rewrite PseudoState_EndEnter_S in H3.
      rewrite (bind_run _ _ _ _ _ (getPseudoState_run _ _ _ Ht)) in H3.
      apply bind_Ok in H3 as (c & sx & ox & oy & Hc & H3 & ->).
      destruct (GetCompletion_pure _ _ _ _ _ _ Hc) as [-> ->]. by exists c.
  - intros (s1 & o1 & s2 & o2 & o3 & H1 & H2 & H3 & _ & _ & ->).
    by exists s1, o1, s2, o2, o3.
Qed.

Lemma Transition_Traverse_order_witness :
  let t := Transition.mk (String.eqb "go") (PathObj.mk [Some 3] [4] 4) ["effect"] in
  let run := Transition_Traverse 8 t "go" composite_store in
  events_of run
  = [Call "exit A" None; LogLeave 3; Call "effect" (Some "go"); LogEnter 4;
     Call "entry B" None; LogEnter 5; LogEnter 6; LogLeave 6; LogEnter 7;
     Call "entry C" None] /\
  exists s1 o1 s2 o2 o3,
    forEach [Some 3] (Path_Exit_action 8) composite_store = Ok tt s1 o1 /\
    map fst o1 = [Call "exit A" None; LogLeave 3] /\
    forEach [4] (BeginEnter 8) s1 = Ok tt s2 o2 /\
    map fst o2 = [LogEnter 4; Call "entry B" None] /\
    EndEnter 8 4 false s2 = Ok tt (store_of run) o3 /\
    runs_in_order (fun region => Region_Initialise 7 region false) [5]
      s2 (store_of run) o3 /\
    map fst o3 = [LogEnter 5; LogEnter 6; LogLeave 6; LogEnter 7; Call "entry C" None] /\
    trace_of run = o1 ++ map (fun a => (Call a (Some "go"), s1)) ["effect"] ++ o2 ++ o3.
Proof.
  intros t run. split; [vm_compute; reflexivity|].
  destruct (proj1 (Transition_Traverse_order 7 t "go" composite_store
                     (store_of run) (trace_of run)))
    as (s1 & o1 & s2 & o2 & o3 & H1 & H2 & H3 & HS & _ & Hout);
    [vm_compute; reflexivity|].
  exists s1, o1, s2, o2, o3.
  assert (E1 : s1 = store_of (forEach [Some 3] (Path_Exit_action 8) composite_store) /\
               o1 = trace_of (forEach [Some 3] (Path_Exit_action 8) composite_store)).
  { change (forEach [Some 3] (Path_Exit_action 8) composite_store = Ok tt s1 o1) in H1.
    rewrite H1. by split. }
  destruct E1 as [-> ->].
  assert (E2 : s2 = store_of (forEach [4] (BeginEnter 8)
                                (store_of (forEach [Some 3] (Path_Exit_action 8)
                                             composite_store))) /\
               o2 = trace_of (forEach [4] (BeginEnter 8)
                                (store_of (forEach [Some 3] (Path_Exit_action 8)
                                             composite_store)))).
  { change (forEach [4] (BeginEnter 8)
              (store_of (forEach [Some 3] (Path_Exit_action 8) composite_store))
            = Ok tt s2 o2) in H2.
    rewrite H2. by split. }
  destruct E2 as [-> ->].
  assert (E3 : o3 = trace_of (EndEnter 8 4 false
                                (store_of (forEach [4] (BeginEnter 8)
                                   (store_of (forEach [Some 3] (Path_Exit_action 8)
                                                composite_store)))))).
  { change (EndEnter 8 4 false
              (store_of (forEach [4] (BeginEnter 8)
                 (store_of (forEach [Some 3] (Path_Exit_action 8) composite_store))))
            = Ok tt (store_of run) (o3)) in H3.
    by rewrite H3. }
  subst o3.
  split; [exact H1|]. split; [vm_compute; reflexivity|].
  split; [exact H2|]. split; [vm_compute; reflexivity|].
  split; [exact H3|]. split.
  - apply (HS (State.mk "B" (Some 1) true ["entry B"] [] [5] [] [] (Some 5))).
    vm_compute. reflexivity.
  - split; [vm_compute; reflexivity | exact Hout].
Defined.

(** ** Initial pseudo states of a region *)

(** C8.  Constructing a PseudoState of an initial kind with a region as
    parent: when the region has an initial pseudo state already, the
    constructor raises and the region is exactly as it was, its [Initial]
    included; when it has none, the constructor returns the new object, which
    is now the [Initial] of the region and the last of its vertices. *)
Theorem new_PseudoState_initial (kind : PseudoStateKind.t) (parent : ref) (s : Store)
  (r : Region.t) :
  heap s !! parent = Some (ORegion r) ->
  heap s !! next s = None ->
  PseudoStateKind.IsInitial kind = true ->
  let this := next s in
  let allocated :=
    mkStore (<[this := OPseudoState (PseudoState.mk kind parent [] None)]> (heap s))
      (S this) in
  (is_Some (Region.Initial r) ->
   new_PseudoState kind parent s
   = Throw (Error "Regions can have at most 1 initial pseudo state") allocated [] /\
   heap allocated !! parent = Some (ORegion r)) /\
  (Region.Initial r = None ->
   exists s',
     new_PseudoState kind parent s = Ok this s' [] /\
     heap s' !! parent
     = Some (ORegion (Region.push_Vertices this (Region.set_Initial this r))) /\
     heap s' !! this = Some (OPseudoState (PseudoState.mk kind parent [] None))).
Proof.
  intros Hparent Hfresh Hkind this allocated.
  assert (Hne : this <> parent) by (intros E; subst this; congruence).
  assert (Hpa : heap allocated !! parent = Some (ORegion r)).
  { subst allocated. simpl. by rewrite lookup_insert_ne. }
  unfold new_PseudoState.
  rewrite (bind_run _ _ _ _ _ (default_region_of_Region _ _ _ Hparent)).
  rewrite (bind_run _ _ _ _ _ (getRegion_run _ _ _ Hparent)).
  assert (Hal : alloc (OPseudoState (PseudoState.mk kind parent [] None)) s
                = Ok this allocated []) by done.
  rewrite (bind_run _ _ _ _ _ Hal), Hkind, bind_assoc.
  rewrite (bind_run _ _ _ _ _ (getRegion_run _ _ _ Hpa)).
  split.
  - intros [ini Hini]. rewrite Hini. done.
  - intros Hini. rewrite Hini.
    rewrite (bind_run _ _ _ _ _ (store_run _ _ _)).
    set (s1 := mkStore _ _).
    assert (H1 : heap s1 !! parent = Some (ORegion (Region.set_Initial this r))).
    { subst s1. simpl. apply lookup_insert_eq. }
    rewrite (bind_run _ _ _ _ _ (getRegion_run _ _ _ H1)).
    rewrite (bind_run _ _ _ _ _ (store_run _ _ _)).
    eexists. split; [done|]. simpl. split; [apply lookup_insert_eq|].
    rewrite !lookup_insert_ne by done. apply lookup_insert_eq.
Qed.

Lemma new_PseudoState_initial_witness :
  let registered := Region.mk "r" (Some 0) false [2] (Some 2) None in
  let first := new_PseudoState PseudoStateKind.Initial 1 one_region_store in
  let second := new_PseudoState PseudoStateKind.DeepHistory 1 (store_of first) in
  (exists s',
     first = Ok 2 s' [] /\
     heap s' !! 1 = Some (ORegion registered) /\
     heap s' !! 2
     = Some (OPseudoState (PseudoState.mk PseudoStateKind.Initial 1 [] None))) /\
  outcome_of second = Raised (Error "Regions can have at most 1 initial pseudo state") /\
  heap (store_of second) !! 1 = Some (ORegion registered).
Proof.
  intros registered first second. split.
  - apply (proj2 (new_PseudoState_initial PseudoStateKind.Initial 1 one_region_store
                    (Region.mk "r" (Some 0) false [] None None)
                    ltac:(vm_compute; reflexivity) ltac:(vm_compute; reflexivity) eq_refl)).
    reflexivity.
  - destruct (proj1 (new_PseudoState_initial PseudoStateKind.DeepHistory 1 (store_of first)
                       registered
                       ltac:(vm_compute; reflexivity) ltac:(vm_compute; reflexivity) eq_refl)
                    ltac:(by eexists)) as [Hthrow Hregion].
    subst second. rewrite Hthrow. split; [reflexivity | exact Hregion].
Defined.

(** ** Terminated instances *)

Lemma run_plan_Terminate (before after : list Step) message instance :
  Forall (fun step => step <> Terminate) before ->
  exists instance',
    run_plan (before ++ Terminate :: after) message instance
    = (instance', invoked message before ++ [EnterTerminate]) /\
    isTerminated instance' = true.
Proof.
  intros Hbefore. revert instance.
  induction Hbefore as [|step before Hstep _ IH]; intros instance; simpl.
  - eexists. split; reflexivity.
  - destruct step as [action|region state|]; [| |done].
    + destruct (IH instance) as (instance' & -> & Ht). by exists instance'.
    + apply IH.
Qed.

Lemma run_plan_halts plan message : forall instance,
  halts_at_Terminate instance (run_plan plan message instance, Consumed true).
Proof.
  unfold halts_at_Terminate.
  induction plan as [|step plan IH]; intros instance; simpl.
  - split; [by intros ?%elem_of_nil | done].
  - destruct step as [action|region state|].
    + specialize (IH instance).
      destruct (run_plan plan message instance) as [instance' invoked0]. simpl in *.
      destruct IH as [IH1 IH2]. split.
      * intros [?|Hin]%elem_of_cons; [done|].
        destruct (IH1 Hin) as (Ht & _ & before & -> & Hb).
        split; [done|]. split; [done|].
        exists (CallAction action message :: before). split; [done|].
        by intros [?|?]%elem_of_cons.
      * intros Hn. apply IH2. intros Hin. apply Hn. by right.
    + specialize (IH (mkInstance (isTerminated instance)
                        (<[region := state]> (last instance)))).
      by destruct (run_plan plan message _) as [instance' invoked0].
    + split; [|intros Hn; exfalso; apply Hn; by left].
      intros _. split; [done|]. split; [done|]. exists []. split; [done|].
      by intros ?%elem_of_nil.
Qed.

Lemma evaluate_regions_terminated evaluate_state children instance consumed :
  isTerminated instance = true ->
  evaluate_regions evaluate_state children instance consumed
  = (instance, [], Consumed consumed).
Proof. intros Ht. destruct children; simpl; [done|]. by rewrite Ht. Qed.

Lemma evaluate_regions_halts evaluate_state children :
  (forall state instance, halts_at_Terminate instance (evaluate_state state instance)) ->
  forall instance consumed,
    halts_at_Terminate instance (evaluate_regions evaluate_state children instance consumed).
Proof.
  unfold halts_at_Terminate.
  intros Hstate. induction children as [|region rest IH]; intros instance consumed; simpl.
  - split; [by intros ?%elem_of_nil | done].
  - destruct (isTerminated instance) eqn:Hlive; [split; [by intros ?%elem_of_nil | done]|].
    destruct (last instance !! region) as [state|]; [|by rewrite <- Hlive; apply IH].
    specialize (Hstate state instance).
    destruct (evaluate_state state instance) as [[instance1 invoked1] verdict1].
    destruct verdict1 as [here| |]; [|by rewrite <- Hlive..].
    destruct Hstate as [H1 H2].
    destruct (isTerminated instance1) eqn:Hone.
    + rewrite evaluate_regions_terminated by done. rewrite app_nil_r. split.
      * intros Hin. destruct (H1 Hin) as (_ & [= ->] & before & -> & Hb).
        split; [done|]. split; [done|]. by exists before.
      * intros Hn. pose proof (H2 Hn). congruence.
    + assert (Hnin : EnterTerminate ∉ invoked1).
      { intros Hin. by destruct (H1 Hin) as ([=] & _). }
      specialize (IH instance1 (here || consumed)).
      destruct (evaluate_regions evaluate_state rest instance1 (here || consumed))
        as [[instance2 invoked2] verdict2].
      destruct IH as [H3 H4]. split.
      * intros [?|Hin]%elem_of_app; [done|].
        destruct (H3 Hin) as (Ht & Hv & before & -> & Hb).
        split; [done|]. split; [done|]. exists (invoked1 ++ before).
        split; [by rewrite app_assoc|]. by intros [?|?]%elem_of_app.
      * intros Hn. assert (Hnin2 : EnterTerminate ∉ invoked2).
        { intros Hin. apply Hn, elem_of_app. by right. }
        pose proof (H4 Hnin2). congruence.
Qed.

Lemma evaluate_state_halts fuel model message : forall state instance,
  halts_at_Terminate instance (evaluate_state fuel model message state instance).
Proof.
  induction fuel as [|n IH]; intros state instance; simpl.
  - split; [by intros ?%elem_of_nil | done].
  - destruct (model !! state) as [node|]; [|split; [by intros ?%elem_of_nil | done]].
    set (asked := map (fun t => AskGuard (guard_name t) message) (outgoing node)).
    assert (Hasked : EnterTerminate ∉ asked).
    { unfold asked. induction (outgoing node) as [|t l IHl]; simpl;
        [by intros ?%elem_of_nil | by intros [?|?]%elem_of_cons]. }
    assert (Hprefix : forall result,
              halts_at_Terminate instance result ->
              halts_at_Terminate instance
                (let '(instance', invoked0, verdict) := result in
                 (instance', asked ++ invoked0, verdict))).
    { intros [[instance' invoked0] verdict] [H1 H2]. split.
      - intros [?|Hin]%elem_of_app; [done|].
        destruct (H1 Hin) as (Ht & Hv & before & -> & Hb).
        split; [done|]. split; [done|]. exists (asked ++ before).
        split; [by rewrite app_assoc|]. by intros [?|?]%elem_of_app.
      - intros Hn. apply H2. intros Hin. apply Hn, elem_of_app. by right. }
    destruct (List.filter (fun t => guard_holds t message instance) (outgoing node))
      as [|t [|t' l]].
    + apply Hprefix, evaluate_regions_halts, IH.
    + pose proof (Hprefix _ (run_plan_halts (traverse_plan t) message instance)) as H.
      by destruct (run_plan (traverse_plan t) message instance).
    + split; [done|done].
Qed.

Lemma evaluate_all_terminated fuel model root instance messages :
  isTerminated instance = true ->
  evaluate_all fuel model root instance messages
  = (instance, [], map (fun _ => Consumed false) messages).
Proof.
  intros Ht. induction messages as [|message rest IH]; [done|].
  simpl. unfold evaluate. by rewrite Ht, IH.
Qed.

(** C9.  A call of [evaluate] in which the enter cascade of a Terminate
    pseudo state is reached leaves the instance terminated; reaching it is
    the last thing the call does, and the message counts as consumed.
    Every later call of [evaluate] on that instance, whatever the messages,
    returns false, asks no guard, calls no entry, exit or effect action,
    and leaves the instance as it is. *)
Theorem evaluate_after_Terminate (fuel : nat) (model : Model) (root : ref)
  (instance : Instance) (message : Message)
  (terminated : Instance) (invoked : list Invocation) (verdict : Verdict) :
  evaluate fuel model root instance message = (terminated, invoked, verdict) ->
  EnterTerminate ∈ invoked ->
  isTerminated terminated = true /\
  verdict = Consumed true /\
  (exists before, invoked = before ++ [EnterTerminate] /\ EnterTerminate ∉ before) /\
  forall fuel' messages,
    evaluate_all fuel' model root terminated messages
    = (terminated, [], map (fun _ => Consumed false) messages).
Proof.
  intros Hrun Hin. unfold evaluate in Hrun.
  destruct (isTerminated instance).
  { injection Hrun as <- <- <-. by apply elem_of_nil in Hin. }
  pose proof (evaluate_state_halts fuel model message root instance) as H.
  rewrite Hrun in H. destruct H as [H _].
  destruct (H Hin) as (Ht & Hv & Hlast).
  split; [done|]. split; [done|]. split; [done|].
  intros fuel' messages. by apply evaluate_all_terminated.
Qed.

Lemma evaluate_after_Terminate_witness :
  exists terminated,
    evaluate 2 terminating_model 0 live_instance "stop"
    = (terminated,
       [AskGuard "never" "stop"; AskGuard "is stop" "stop"; CallAction "exit A" "stop";
        EnterTerminate],
       Consumed true) /\
    isTerminated terminated = true /\
    last terminated = {[ 1 := 4; 2 := 5 ]} /\
    forall fuel' messages,
      evaluate_all fuel' terminating_model 0 terminated messages
      = (terminated, [], map (fun _ => Consumed false) messages).
Proof.
  exists (mkInstance true {[ 1 := 4; 2 := 5 ]}).
  assert (Hrun : evaluate 2 terminating_model 0 live_instance "stop"
                 = (mkInstance true {[ 1 := 4; 2 := 5 ]},
                    [AskGuard "never" "stop"; AskGuard "is stop" "stop";
                     CallAction "exit A" "stop"; EnterTerminate],
                    Consumed true)) by (vm_compute; reflexivity).
  split; [exact Hrun|]. split; [reflexivity|]. split; [reflexivity|].
  apply (evaluate_after_Terminate 2 terminating_model 0 live_instance "stop" _ _ _ Hrun).
  apply list_elem_of_In. simpl. tauto.
Defined.

(** ** Beginning the entry of a state *)

(** C10.  Beginning the entry of a State whose parent, if it has one, is a
    region.  If the state is active its exit cascade runs first, in full, and
    leaves it inactive; only then the entry is logged and the state marked
    active.  The entry actions are called after that, in order, and the heap
    each of them sees is the final one, in which the state is active and is
    the current state of its parent region. *)
Theorem State_BeginEnter_cascade (n : nat) (this : ref) (s : Store) (st : State.t)
  (s1 : Store) (o1 : Trace) :
  heap s !! this = Some (OState st) ->
  (forall parent, State.Parent st = Some parent ->
     exists r, heap s !! parent = Some (ORegion r)) ->
  (if State.IsActive st then State_OnExit n this else ret tt) s = Ok tt s1 o1 ->
  exists st1 s2,
    heap s1 !! this = Some (OState st1) /\
    (State.IsActive st = true -> State.IsActive st1 = false) /\
    State_BeginEnter n this s
    = Ok tt s2 (o1 ++ (LogEnter this, s1)
                   :: map (fun a => (Call a None, s2)) (State.Entry st)) /\
    heap s2 !! this = Some (OState (State.set_IsActive true st1)) /\
    (forall parent, State.Parent st = Some parent ->
       exists r, heap s2 !! parent = Some (ORegion r) /\ Region.Current r = Some this).
Proof.
  intros Hthis Hparent Hexit.
  assert (Hfr : frame s s1).
  { eapply (Framed_Ok _ _ _ _ _ _ Hexit). Unshelve.
    destruct (State.IsActive st); [apply Framed_OnExit_methods | apply Framed_ret]. }
  destruct (frame_State _ _ _ _ Hfr Hthis) as (st1 & Hthis1 & Hst1).
  injection Hst1 as _ HP HE _ _ _ _ _.
  exists st1.
  assert (Hin : State.IsActive st = true -> State.IsActive st1 = false).
  { intros Ha. rewrite Ha in Hexit.
    apply State_OnExit_inactive in Hexit as (st' & Hst' & ?). congruence. }
  unfold State_BeginEnter.
  rewrite (bind_run _ _ _ _ _ (getState_run _ _ _ Hthis)).
  rewrite (bind_step _ _ _ _ _ _ Hexit).
  rewrite (bind_step _ _ _ _ _ _ (emit_run _ _)).
  rewrite (bind_run _ _ _ _ _ (getState_run _ _ _ Hthis1)).
  rewrite (bind_run _ _ _ _ _ (store_run _ _ _)).
  set (sa := mkStore (<[this:=OState (State.set_IsActive true st1)]> (heap s1)) (next s1)).
  rewrite HP.
  destruct (State.Parent st) as [parent|] eqn:HPst.
  - destruct (Hparent parent eq_refl) as (r & Hr).
    destruct (frame_Region _ _ _ _ Hfr Hr) as (r1 & Hr1 & _).
    assert (Hne : this <> parent) by (intros ->; congruence).
    assert (Hra : heap sa !! parent = Some (ORegion r1)).
    { subst sa. simpl. by rewrite lookup_insert_ne. }
    rewrite (bind_run _ _ _ _ _ (set_Parent_Current_run _ _ _ _ Hra)).
    set (sb := mkStore (<[parent:=ORegion (Region.set_Current this r1)]> (heap sa)) (next sa)).
    assert (Hsb : heap sb !! this = Some (OState (State.set_IsActive true st1))).
    { subst sb sa. simpl. rewrite lookup_insert_ne by done. apply lookup_insert_eq. }
    rewrite (bind_run _ _ _ _ _ (getState_run _ _ _ Hsb)). simpl.
    rewrite forEach_call, HE.
    exists sb. repeat split; try done.
    intros p [= <-]. eexists. split; [subst sb; simpl; apply lookup_insert_eq|done].
  - rewrite (bind_run _ _ _ _ _ (ret_run _ _)).
    assert (Hsa : heap sa !! this = Some (OState (State.set_IsActive true st1))).
    { subst sa. simpl. apply lookup_insert_eq. }
    rewrite (bind_run _ _ _ _ _ (getState_run _ _ _ Hsa)). simpl.
    rewrite forEach_call, HE.
    exists sa. repeat split; try done.
Qed.

Lemma State_BeginEnter_cascade_witness :
  let a := State.mk "a" (Some 1) true ["entry a"] ["exit a"] [] [] [] None in
  let s1 := store_of (State_OnExit 3 4 orthogonal_store) in
  let o1 := trace_of (State_OnExit 3 4 orthogonal_store) in
  events_of (State_BeginEnter 3 4 orthogonal_store)
  = [Call "exit a" None; LogLeave 4; LogEnter 4; Call "entry a" None] /\
  exists st1 s2,
    heap s1 !! 4 = Some (OState st1) /\
    (State.IsActive a = true -> State.IsActive st1 = false) /\
    State_BeginEnter 3 4 orthogonal_store
    = Ok tt s2 (o1 ++ (LogEnter 4, s1)
                   :: map (fun a => (Call a None, s2)) (State.Entry a)) /\
    heap s2 !! 4 = Some (OState (State.set_IsActive true st1)) /\
    (forall parent, State.Parent a = Some parent ->
       exists r, heap s2 !! parent = Some (ORegion r) /\ Region.Current r = Some 4).
Proof.
  intros a s1 o1. split; [vm_compute; reflexivity|].
  apply (State_BeginEnter_cascade 3 4 orthogonal_store a s1 o1).
  - vm_compute. reflexivity.
  - intros parent [= <-]. eexists. vm_compute. reflexivity.
  - vm_compute. reflexivity.
Defined.

(** * Further properties of the code *)

Lemma string_append_assoc (a b c : string) : (a +:+ b) +:+ c = a +:+ (b +:+ c).
Proof.
  induction a as [|x a IH]; [done|].
  change (String x ((a +:+ b) +:+ c) = String x (a +:+ (b +:+ c))). by rewrite IH.
Qed.

Lemma concat_snoc sep (l : list string) (x : string) :
  l <> [] -> String.concat sep (l ++ [x]) = String.concat sep l +:+ sep +:+ x.
Proof.
  induction l as [|y l IH]; [done|]. intros _.
  destruct l as [|z l]; [done|].
  change (String.concat sep ((y :: z :: l) ++ [x]))
    with (y +:+ sep +:+ String.concat sep ((z :: l) ++ [x])).
  rewrite IH by done.
  change (String.concat sep (y :: z :: l)) with (y +:+ sep +:+ String.concat sep (z :: l)).
  by rewrite !string_append_assoc.
Qed.

Lemma chain_snoc s above l x :
  chain s above l ->
  Parent_of <$> (heap s !! x)
  = Some (match list.last l with Some y => Some y | None => above end) ->
  chain s above (l ++ [x]).
Proof.
  revert above. induction l as [|y l IH]; simpl; intros above Hl Hx; [done|].
  destruct Hl as [Hy Hl]. split; [done|]. apply IH; [done|].
  rewrite Hx. f_equal. destruct l as [|z l]; [done|].
  change (list.last (y :: z :: l)) with (list.last (z :: l)).
  destruct (list.last (z :: l)) eqn:E; [done|].
  by apply last_None in E.
Qed.

(** X1. [Ancestors( node )] reads the model without changing it and logs
    nothing; the list it returns ends with the node itself, starts at a node
    without [Parent], and each of its elements is the [Parent] of the next.
    Its length is the number of nested calls the walk takes. *)
Theorem Ancestors_chain (fuel : nat) (node : ref) (s : Store) (l : list ref)
  (s' : Store) (o : Trace) :
  Ancestors fuel node s = Ok l s' o ->
  s' = s /\ o = [] /\ list.last l = Some node /\ chain s None l /\ length l <= fuel.
Proof.
  intros H. destruct (Ancestors_pure _ _ _ _ _ _ H) as [-> ->].
  destruct (Ancestors_length _ _ _ _ _ _ H) as [Hlen Hlast].
  repeat split; [done| |lia]. clear Hlen Hlast.
  revert node l H. induction fuel as [|n IH]; [done|]. simpl. intros node l H.
  apply bind_Ok in H as (ob & s1 & o1 & o2 & Hd & H & _).
  unfold deref in Hd. destruct (heap s !! node) as [ob'|] eqn:Hnode; [|done].
  injection Hd as -> <- _.
  destruct (Parent_of ob) as [p|] eqn:HP.
  - apply bind_Ok in H as (l' & s2 & o3 & o4 & Ha & H & _).
    destruct (Ancestors_pure _ _ _ _ _ _ Ha) as [-> ->].
    destruct (Ancestors_length _ _ _ _ _ _ Ha) as [_ Hlast].
    injection H as <-. apply chain_snoc; [by eapply IH|].
    by rewrite Hlast, Hnode; simpl; rewrite HP.
  - injection H as <-. simpl. by rewrite Hnode; simpl; rewrite HP.
Qed.

Lemma Ancestors_chain_witness :
  Ancestors 5 4 orthogonal_built = Ok [0; 1; 4] orthogonal_built [] /\
  list.last [0; 1; 4] = Some 4 /\ chain orthogonal_built None [0; 1; 4] /\
  length [0; 1; 4] <= 5.
Proof.
  assert (H : Ancestors 5 4 orthogonal_built = Ok [0; 1; 4] orthogonal_built [])
    by (vm_compute; reflexivity).
  split; [exact H|].
  exact (proj2 (proj2 (Ancestors_chain 5 4 orthogonal_built _ _ _ H))).
Defined.

(** X2. [toString] of a node is the names of its ancestry, from the root down
    to the node itself, joined by dots; a pseudo state contributes the name
    of its kind.  It changes nothing and logs nothing. *)
Theorem toString_Ancestors (fuel : nat) (this : ref) (s : Store) (l : list ref)
  (s' : Store) (o : Trace) :
  Ancestors fuel this s = Ok l s' o ->
  toString fuel this s = Ok (String.concat "." (names s l)) s [].
Proof.
  revert this l s' o. induction fuel as [|n IH]; [done|]. simpl. intros this l s' o H.
  apply bind_Ok in H as (ob & s1 & o1 & o2 & Hd & H & _).
  unfold deref in Hd. destruct (heap s !! this) as [ob'|] eqn:Hthis; [|done].
  injection Hd as -> <- _.
  rewrite (bind_run _ _ _ _ _ (deref_run _ _ _ Hthis)).
  destruct (Parent_of ob) as [p|].
  - apply bind_Ok in H as (l' & s2 & o3 & o4 & Ha & H & _).
    injection H as <-.
    rewrite (bind_run _ _ _ _ _ (IH _ _ _ _ Ha)).
    destruct (Ancestors_length _ _ _ _ _ _ Ha) as [Hlen _].
    unfold names. rewrite map_app. simpl. rewrite Hthis.
    rewrite concat_snoc; [by rewrite <- string_append_assoc|].
    destruct l'; [simpl in Hlen; lia | done].
  - injection H as <-. simpl. by rewrite Hthis.
Qed.

Lemma toString_Ancestors_witness :
  Ancestors 5 3 orthogonal_built = Ok [0; 1; 3] orthogonal_built [] /\
  String.concat "." (names orthogonal_built [0; 1; 3]) = "S.r1.initial" /\
  toString 5 3 orthogonal_built
  = Ok (String.concat "." (names orthogonal_built [0; 1; 3])) orthogonal_built [].
Proof.
  assert (H : Ancestors 5 3 orthogonal_built = Ok [0; 1; 3] orthogonal_built [])
    by (vm_compute; reflexivity).
  split; [exact H|]. split; [vm_compute; reflexivity|].
  exact (toString_Ancestors 5 3 orthogonal_built _ _ _ H).
Defined.

(** ** Paths *)

Lemma Path_loop_same (l : list ref) s fuel : forall i, Path_loop fuel l l i s = OutOfFuel.
Proof.
  induction fuel as [|n IH]; intros i; [done|]. simpl. by rewrite decide_True.
Qed.

Lemma first_difference_split (sa ta : list ref) i :
  (forall j, j < i -> sa !! j = ta !! j) -> sa !! i <> ta !! i ->
  take i ta = take i sa /\ head (drop i sa) <> head (drop i ta).
Proof.
  intros Hj Hi. split.
  - apply list_eq. intros j. destruct (decide (j < i)) as [Hlt|Hge].
    + rewrite !lookup_take_lt by done. by rewrite Hj.
    + by rewrite !lookup_take_ge by lia.
  - rewrite !head_lookup, !lookup_drop, Nat.add_0_r. done.
Qed.

(** X3. Whenever [Path( source, target )] returns, it has split the two
    ancestries at their first difference: they share a prefix, [Enter] is
    what is left of the target's ancestry, the last element of [Exit] leaves
    the first node of what is left of the source's ancestry, and the two
    remainders begin differently.  [Complete] belongs to the target, and
    the model is not changed. *)
Theorem Path_common_prefix (fuel : nat) (source target : ref) (s : Store)
  (p : PathObj.t) (s' : Store) (out : Trace) :
  Path fuel source target s = Ok p s' out ->
  exists common rest : list ref,
    Ancestors fuel source s = Ok (common ++ rest) s [] /\
    Ancestors fuel target s = Ok (common ++ PathObj.Enter p) s [] /\
    head rest <> head (PathObj.Enter p) /\
    list.last (PathObj.Exit p) = Some (head rest) /\
    PathObj.Complete p = target /\ s' = s /\ out = [].
Proof.
  intros H. unfold Path in H.
  apply bind_Ok in H as (sa & s1 & o1 & ? & Hsa & H & ->).
  destruct (Ancestors_pure _ _ _ _ _ _ Hsa) as [-> ->].
  apply bind_Ok in H as (ta & s2 & o2 & ? & Hta & H & ->).
  destruct (Ancestors_pure _ _ _ _ _ _ Hta) as [-> ->].
  apply bind_Ok in H as (i & s3 & o3 & ? & Hi & H & ->).
  apply Path_loop_first_difference in Hi as (-> & -> & _ & Hj & Hi).
  apply bind_Ok in H as (o & s4 & o4 & ? & Hd & H & ->).
  unfold deref in Hd. destruct (heap s !! source); [|done]. injection Hd as _ <- <-.
  injection H as <- <- <-. simpl.
  destruct (first_difference_split sa ta i) as [Htake Hhead]; [intros; apply Hj; lia|done|].
  exists (take i sa), (drop i sa). rewrite take_drop. split; [done|].
  rewrite <- Htake, take_drop. split; [done|]. split; [done|].
  rewrite last_snoc, head_lookup, lookup_drop, Nat.add_0_r. done.
Qed.

Lemma Path_common_prefix_witness :
  let p := PathObj.mk [Some 3; Some 1] [2; 6] 6 in
  Path 5 3 6 orthogonal_built = Ok p orthogonal_built [] /\
  exists common rest : list ref,
    Ancestors 5 3 orthogonal_built = Ok (common ++ rest) orthogonal_built [] /\
    Ancestors 5 6 orthogonal_built = Ok (common ++ PathObj.Enter p) orthogonal_built [] /\
    head rest <> head (PathObj.Enter p) /\
    list.last (PathObj.Exit p) = Some (head rest) /\
    PathObj.Complete p = 6 /\ orthogonal_built = orthogonal_built /\
    @nil (Event * Store) = [].
Proof.
  intros p.
  assert (H : Path 5 3 6 orthogonal_built = Ok p orthogonal_built [])
    by (vm_compute; reflexivity).
  split; [exact H|].
  exact (Path_common_prefix 5 3 6 orthogonal_built p orthogonal_built [] H).
Defined.

Lemma Ancestors_child n x o parent l s s' out :
  heap s !! x = Some o -> Parent_of o = Some parent ->
  Ancestors n parent s = Ok l s' out ->
  Ancestors (S n) x s = Ok (l ++ [x]) s [].
Proof.
  intros Hx HP Ha. destruct (Ancestors_pure _ _ _ _ _ _ Ha) as [-> ->]. simpl.
  rewrite (bind_run _ _ _ _ _ (deref_run _ _ _ Hx)), HP.
  by rewrite (bind_run _ _ _ _ _ Ha).
Qed.

(** X4. Between two different nodes with the same [Parent], the path leaves the
    source, enters the target and completes the target, whatever the class
    of the source. *)
Theorem Path_siblings (n : nat) (source target parent : ref) (s : Store)
  (o_source o_target : Obj) (l : list ref) (s' : Store) (out : Trace) :
  heap s !! source = Some o_source -> Parent_of o_source = Some parent ->
  heap s !! target = Some o_target -> Parent_of o_target = Some parent ->
  source <> target ->
  Ancestors n parent s = Ok l s' out ->
  Path (S n) source target s = Ok (PathObj.mk [Some source] [target] target) s [].
Proof.
  intros Hs HPs Ht HPt Hne Ha.
  destruct (Ancestors_length _ _ _ _ _ _ Ha) as [Hlen _].
  unfold Path.
  rewrite (bind_run _ _ _ _ _ (Ancestors_child _ _ _ _ _ _ _ _ Hs HPs Ha)).
  rewrite (bind_run _ _ _ _ _ (Ancestors_child _ _ _ _ _ _ _ _ Ht HPt Ha)).
  rewrite (bind_run _ _ _ _ _ (Path_loop_split l [source] [target] s (S n) 0
             ltac:(simpl; congruence) ltac:(lia) ltac:(lia))).
  rewrite (bind_run _ _ _ _ _ (deref_run _ _ _ Hs)).
  rewrite lookup_app_r, Nat.sub_diag by lia. simpl.
  rewrite bool_decide_eq_true_2 by done. rewrite andb_false_r. simpl.
  by rewrite drop_app_length.
Qed.

Lemma Path_siblings_witness :
  Ancestors 3 1 completion_store = Ok [0; 1] completion_store [] /\
  Path 4 3 4 completion_store
  = Ok (PathObj.mk [Some 3] [4] 4) completion_store [].
Proof.
  assert (H : Ancestors 3 1 completion_store = Ok [0; 1] completion_store [])
    by (vm_compute; reflexivity).
  split; [exact H|].
  eapply (Path_siblings 3 3 4 1 completion_store _ _ _ _ _); [| | | | |exact H].
  - vm_compute. reflexivity.
  - vm_compute. reflexivity.
  - vm_compute. reflexivity.
  - vm_compute. reflexivity.
  - lia.
Defined.

(** X5. [Path( x, x )] never returns: the two ancestries are the same list, so
    the [while] loop finds no difference and runs past its end, where
    [undefined === undefined] holds for ever.  The constructors
    [Transition( x, x, guard )] and [Completion( x, x, guard )] call [Path]
    first and so never return either: this version has no self transition. *)
Theorem Path_to_self (n : nat) (x : ref) (s : Store) (l : list ref) (s' : Store)
  (out : Trace) :
  Ancestors n x s = Ok l s' out ->
  forall fuel,
    Path fuel x x s = OutOfFuel /\
    (forall guard, new_Transition fuel x x guard s = OutOfFuel) /\
    (forall guard, new_Completion fuel x x guard s = OutOfFuel).
Proof.
  intros Ha fuel.
  assert (HP : Path fuel x x s = OutOfFuel).
  { unfold Path.
    assert (Hcase : Ancestors fuel x s = OutOfFuel \/ Ancestors fuel x s = Ok l s' out).
    { destruct (Nat.le_ge_cases fuel n) as [Hle|Hle].
      - destruct (Ancestors_fuel fuel n x Hle s) as [?|E]; [by left | right; congruence].
      - destruct (Ancestors_fuel n fuel x Hle s) as [E|E]; [congruence | right; congruence]. }
    destruct Hcase as [E|E]; [unfold bind; by rewrite E|].
    destruct (Ancestors_pure _ _ _ _ _ _ E) as [-> ->].
    rewrite (bind_run _ _ _ _ _ E), (bind_run _ _ _ _ _ E).
    unfold bind. by rewrite Path_loop_same. }
  split; [done|]. split; intros guard.
  - unfold new_Transition, bind. by rewrite HP.
  - unfold new_Completion, bind. by rewrite HP.
Qed.

Lemma Path_to_self_witness :
  Ancestors 5 4 orthogonal_built = Ok [0; 1; 4] orthogonal_built [] /\
  forall fuel,
    Path fuel 4 4 orthogonal_built = OutOfFuel /\
    (forall guard, new_Transition fuel 4 4 guard orthogonal_built = OutOfFuel) /\
    (forall guard, new_Completion fuel 4 4 guard orthogonal_built = OutOfFuel).
Proof.
  assert (H : Ancestors 5 4 orthogonal_built = Ok [0; 1; 4] orthogonal_built [])
    by (vm_compute; reflexivity).
  split; [exact H|].
  exact (Path_to_self 5 4 orthogonal_built _ _ _ H).
Defined.

(** X6. From a State to a node below it, the loop ends at the end of the source's
    ancestry: [Exit] is the single closure over [undefined], and [Enter] is
    the part of the target's ancestry below the source.  Traversing any
    transition with this path raises a TypeError before it leaves, calls or
    enters anything. *)
Theorem Path_to_descendant (n : nat) (source target : ref) (s : Store) (st : State.t)
  (sa below : list ref) (s1 s2 : Store) (o1 o2 : Trace) :
  heap s !! source = Some (OState st) ->
  Ancestors n source s = Ok sa s1 o1 ->
  Ancestors n target s = Ok (sa ++ below) s2 o2 ->
  below <> [] ->
  Path n source target s = Ok (PathObj.mk [None] below target) s [] /\
  forall k t message s0,
    Transition.Path t = PathObj.mk [None] below target ->
    Transition_Traverse k t message s0 = Throw TypeError s0 [].
Proof.
  intros Hs Hsa Hta Hbelow. split.
  - destruct (Ancestors_pure _ _ _ _ _ _ Hsa) as [-> ->].
    destruct (Ancestors_pure _ _ _ _ _ _ Hta) as [-> ->].
    destruct (Ancestors_length _ _ _ _ _ _ Hta) as [Hlen _].
    rewrite length_app in Hlen.
    assert (0 < length below) by (destruct below; [done | simpl; lia]).
    unfold Path.
    rewrite (bind_run _ _ _ _ _ Hsa), (bind_run _ _ _ _ _ Hta).
    pose proof (Path_loop_split sa [] below s n 0) as Hloop.
    rewrite app_nil_r in Hloop.
    rewrite (bind_run _ _ _ _ _ (Hloop ltac:(by destruct below) ltac:(lia) ltac:(lia))).
    rewrite (bind_run _ _ _ _ _ (deref_run _ _ _ Hs)). simpl.
    rewrite lookup_ge_None_2 by lia. by rewrite drop_app_length.
  - intros k t message s0 Ht. unfold Transition_Traverse. by rewrite Ht.
Qed.

Lemma Path_to_descendant_witness :
  Path 5 0 4 orthogonal_built = Ok (PathObj.mk [None] [1; 4] 4) orthogonal_built [] /\
  forall k t message s0,
    Transition.Path t = PathObj.mk [None] [1; 4] 4 ->
    Transition_Traverse k t message s0 = Throw TypeError s0 [].
Proof.
  apply (Path_to_descendant 5 0 4 orthogonal_built
           (State.mk "S" None false ["entry S"] ["exit S"] [1; 2] [] [] None)
           [0] [1; 4] orthogonal_built orthogonal_built [] []).
  - vm_compute. reflexivity.
  - vm_compute. reflexivity.
  - vm_compute. reflexivity.
  - discriminate.
Defined.

(** ** Leaving only deactivates *)

Lemma deactivates_refl s : deactivates s s.
Proof. split; [apply frame_refl|]. intros x o o' H1 H2. congruence. Qed.

Lemma deactivates_trans s1 s2 s3 :
  deactivates s1 s2 -> deactivates s2 s3 -> deactivates s1 s3.
Proof.
  intros [F1 A1] [F2 A2]. split; [by eapply frame_trans|].
  intros x o o' H1 H3 Ha.
  destruct F1 as [_ F1]. specialize (F1 x). rewrite H1 in F1.
  destruct (heap s2 !! x) as [o2|] eqn:H2; [|done].
  eapply A1; [done..|]. by eapply A2.
Qed.

Lemma Deactivating_ret {A} (a : A) : Deactivating (ret a).
Proof. intros s. apply deactivates_refl. Qed.

Lemma Deactivating_throw {A} e : Deactivating (@throw A e).
Proof. intros s. apply deactivates_refl. Qed.

Lemma Deactivating_diverge {A} : Deactivating (@diverge A).
Proof. by intros s. Qed.

Lemma Deactivating_emit e : Deactivating (emit e).
Proof. intros s. apply deactivates_refl. Qed.

Lemma Deactivating_deref x : Deactivating (deref x).
Proof. intros s. unfold deref. destruct (heap s !! x); apply deactivates_refl. Qed.

Lemma Deactivating_bind {A B} (m : M A) (k : A -> M B) :
  Deactivating m -> (forall a, Deactivating (k a)) -> Deactivating (bind m k).
Proof.
  intros Hm Hk s. unfold bind. specialize (Hm s).
  destruct (m s) as [a s1 o1| |]; [|done..].
  specialize (Hk a s1). destruct (k a s1); eauto using deactivates_trans.
Qed.

Lemma Deactivating_forEach {A} (l : list A) (f : A -> M unit) :
  (forall x, Deactivating (f x)) -> Deactivating (forEach l f).
Proof.
  intros Hf. induction l; simpl; [apply Deactivating_ret|].
  apply Deactivating_bind; auto.
Qed.

Lemma Deactivating_getRegion x : Deactivating (getRegion x).
Proof.
  apply Deactivating_bind; [apply Deactivating_deref|].
  intros []; (apply Deactivating_ret || apply Deactivating_throw).
Qed.

Lemma Deactivating_getState x : Deactivating (getState x).
Proof.
  apply Deactivating_bind; [apply Deactivating_deref|].
  intros []; (apply Deactivating_ret || apply Deactivating_throw).
Qed.

Lemma deactivates_store x o o' s :
  static o' = static o -> IsActive_of o' = false -> heap s !! x = Some o ->
  deactivates s (mkStore (<[x := o']> (heap s)) (next s)).
Proof.
  intros Ho Hoff Hx. split; [by apply (frame_store_static x o)|].
  intros y oy oy' Hy Hy' Ha. simpl in Hy'.
  destruct (decide (x = y)) as [->|Hne].
  - rewrite lookup_insert_eq in Hy'. congruence.
  - rewrite lookup_insert_ne in Hy' by done. congruence.
Qed.

Lemma Deactivating_Region_off this :
  Deactivating (let* r := getRegion this in store this (ORegion (Region.set_IsActive false r))).
Proof.
  intros s. unfold bind, getRegion, deref, bind, store.
  destruct (heap s !! this) as [[r| | |]|] eqn:Hx; simpl; try apply deactivates_refl.
  by apply (deactivates_store this (ORegion r)).
Qed.

Lemma Deactivating_State_off this :
  Deactivating (let* r := getState this in store this (OState (State.set_IsActive false r))).
Proof.
  intros s. unfold bind, getState, deref, bind, store.
  destruct (heap s !! this) as [[| |r|]|] eqn:Hx; simpl; try apply deactivates_refl.
  by apply (deactivates_store this (OState r)).
Qed.

Lemma Deactivating_PseudoState_OnExit this : Deactivating (PseudoState_OnExit this).
Proof.
  apply Deactivating_bind; [apply Deactivating_emit|]. intros _.
  intros s. unfold bind, getPseudoState, deref, bind, store.
  destruct (heap s !! this) as [[|r| |]|] eqn:Hx; simpl; try apply deactivates_refl.
  by apply (deactivates_store this (OPseudoState r)).
Qed.

(** Closes a goal [Deactivating m] when [m] is built from the steps above. *)
Ltac deactivating :=
  repeat first
    [ apply Deactivating_ret | apply Deactivating_throw | apply Deactivating_diverge
    | apply Deactivating_emit | apply Deactivating_deref | apply Deactivating_getRegion
    | apply Deactivating_getState | apply Deactivating_Region_off
    | apply Deactivating_State_off | apply Deactivating_PseudoState_OnExit
    | apply Deactivating_bind | apply Deactivating_forEach
    | match goal with |- forall _, _ => intro end ].

Lemma Deactivating_OnExit_of f g x :
  (forall y, Deactivating (f y)) -> (forall y, Deactivating (g y)) ->
  Deactivating (OnExit_of f g x).
Proof.
  intros Hf Hg. apply Deactivating_bind; [deactivating|].
  intros []; auto; deactivating.
Qed.

Lemma Deactivating_OnExit_methods n :
  (forall this, Deactivating (Region_OnExit n this)) /\
  (forall this, Deactivating (State_OnExit n this)).
Proof.
  induction n as [|n [IHr IHs]]; [split; intros; apply Deactivating_diverge|].
  split; intros this; simpl.
  - apply Deactivating_bind; [deactivating|]. intros r.
    apply Deactivating_bind; [|deactivating].
    destruct (Region.Current r); [|deactivating].
    apply Deactivating_bind; [deactivating|]. intros o.
    destruct (IsActive_of o); [|deactivating].
    by apply Deactivating_OnExit_of.
  - apply Deactivating_bind; [deactivating|]. intros st.
    apply Deactivating_bind; [|deactivating].
    apply Deactivating_forEach. intros region.
    apply Deactivating_bind; [deactivating|]. intros r.
    destruct (Region.IsActive r); [apply IHr | deactivating].
Qed.

Lemma Deactivating_OnExit n x : Deactivating (OnExit n x).
Proof. destruct (Deactivating_OnExit_methods n). by apply Deactivating_OnExit_of. Qed.

Lemma Deactivating_exit_if_active n region : Deactivating (exit_if_active n region).
Proof.
  apply Deactivating_bind; [deactivating|]. intros r.
  destruct (Region.IsActive r); [apply Deactivating_OnExit_methods | deactivating].
Qed.

Lemma deactivates_inactive s s' x : deactivates s s' -> inactive s x -> inactive s' x.
Proof.
  intros [[_ F] A] (o & Hx & Hoff). specialize (F x). rewrite Hx in F.
  destruct (heap s' !! x) as [o'|] eqn:Hx'; [|done].
  exists o'. split; [done|]. destruct (IsActive_of o') eqn:E; [|done].
  rewrite (A x o o' Hx Hx' E) in Hoff. done.
Qed.

(** X7. [x.OnExit()], whether it returns or throws, creates no object and
    removes none, and changes no field of any object other than [IsActive];
    an object that is active afterwards was active before. *)
Theorem OnExit_only_deactivates (n : nat) (x : ref) (s s' : Store) (out : Trace) :
  (OnExit n x s = Ok tt s' out \/ exists e, OnExit n x s = Throw e s' out) ->
  next s' = next s /\
  forall y o, heap s !! y = Some o ->
    exists o', heap s' !! y = Some o' /\ static o' = static o /\
      (IsActive_of o' = true -> IsActive_of o = true).
Proof.
  intros H. pose proof (Deactivating_OnExit n x s) as D.
  assert (Hd : deactivates s s') by (destruct H as [H|[e H]]; by rewrite H in D).
  destruct Hd as [[Hnext F] A]. split; [done|]. intros y o Hy.
  specialize (F y). rewrite Hy in F.
  destruct (heap s' !! y) as [o'|] eqn:Hy'; [|done].
  exists o'. split; [done|]. split; [by injection F|]. by apply (A y).
Qed.

Lemma OnExit_only_deactivates_witness :
  let s' := store_of (OnExit 5 0 orthogonal_store) in
  events_of (OnExit 5 0 orthogonal_store)
  = [Call "exit a" None; LogLeave 4; LogLeave 1; Call "exit x" None; LogLeave 6;
     LogLeave 2; Call "exit S" None; LogLeave 0] /\
  next s' = next orthogonal_store /\
  forall y o, heap orthogonal_store !! y = Some o ->
    exists o', heap s' !! y = Some o' /\ static o' = static o /\
      (IsActive_of o' = true -> IsActive_of o = true).
Proof.
  intros s'. split; [vm_compute; reflexivity|].
  apply (OnExit_only_deactivates 5 0 orthogonal_store s'
           (trace_of (OnExit 5 0 orthogonal_store))).
  left. vm_compute. reflexivity.
Defined.

Lemma Region_OnExit_inactive n this s s1 o :
  Region_OnExit n this s = Ok tt s1 o -> inactive s1 this.
Proof.
  destruct n as [|n]; [done|]. simpl. intros H.
  apply bind_Ok in H as (r & sa & oa & ob & _ & H & _).
  apply bind_Ok in H as (? & sb & ? & ? & _ & H & _).
  apply bind_Ok in H as (? & sc & ? & ? & _ & H & _).
  apply bind_Ok in H as (r' & sd & ? & ? & Hg & H & _).
  unfold getRegion in Hg. apply bind_Ok in Hg as (og & se & ? & ? & Hd & Hg & _).
  destruct og; try done. injection Hg as _ <- _.
  unfold store in H. injection H as <- _.
  eexists. split; [apply lookup_insert_eq|done].
Qed.

Lemma PseudoState_OnExit_inactive this s s1 o :
  PseudoState_OnExit this s = Ok tt s1 o -> inactive s1 this.
Proof.
  unfold PseudoState_OnExit. intros H.
  apply bind_Ok in H as (? & sa & ? & ? & _ & H & _).
  apply bind_Ok in H as (p & sb & ? & ? & Hg & H & _).
  unfold store in H. injection H as <- _.
  eexists. split; [apply lookup_insert_eq|done].
Qed.

Lemma OnExit_inactive n x s s1 o : OnExit n x s = Ok tt s1 o -> inactive s1 x.
Proof.
  unfold OnExit, OnExit_of. intros H.
  apply bind_Ok in H as (ob & sa & ? & ? & Hd & H & _).
  unfold deref in Hd. destruct (heap s !! x); [|done]. injection Hd as _ <- _.
  destruct ob; [by eapply Region_OnExit_inactive | by eapply PseudoState_OnExit_inactive
               | | done].
  apply State_OnExit_inactive in H as (st1 & ? & ?). by eexists.
Qed.

Lemma inactive_insert s x o y :
  IsActive_of o = false -> inactive s y ->
  inactive (mkStore (<[x := o]> (heap s)) (next s)) y.
Proof.
  intros Hoff (oy & Hy & Hyoff). unfold inactive. simpl.
  destruct (decide (x = y)) as [->|Hne].
  - exists o. by rewrite lookup_insert_eq.
  - exists oy. by rewrite lookup_insert_ne.
Qed.

Lemma forEach_exit_inactive n regions : forall s s' out,
  forEach regions (exit_if_active n) s = Ok tt s' out ->
  forall region, region ∈ regions -> inactive s' region.
Proof.
  induction regions as [|x regions IH]; intros s s' out H region Hin.
  - by apply elem_of_nil in Hin.
  - simpl in H. apply bind_Ok in H as ([] & s1 & o1 & o2 & Hx & H & _).
    apply elem_of_cons in Hin as [->|Hin]; [|by eapply IH].
    pose proof (Deactivating_forEach regions _ (Deactivating_exit_if_active n) s1) as D.
    rewrite H in D. eapply deactivates_inactive; [exact D|].
    unfold exit_if_active in Hx.
    apply bind_Ok in Hx as (r & sa & ? & ? & Hg & Hx & _).
    unfold getRegion in Hg. apply bind_Ok in Hg as (og & sb & ? & ? & Hd & Hg & _).
    unfold deref in Hd. destruct (heap s !! x) as [ox|] eqn:Ex; [|done].
    injection Hd as -> <- _. destruct og; try done. injection Hg as -> <- _.
    destruct (Region.IsActive r) eqn:Er.
    + by eapply Region_OnExit_inactive.
    + injection Hx as <- _. by exists (ORegion r).
Qed.

(** X8. After [State.prototype.OnExit] has returned, the state and all its
    regions are inactive; after [Region.prototype.OnExit] has returned, the
    region and its [Current] vertex are inactive. *)
Theorem OnExit_leaves_inactive (n : nat) (this : ref) (s s' : Store) (out : Trace) :
  (forall st, heap s !! this = Some (OState st) ->
     State_OnExit n this s = Ok tt s' out ->
     inactive s' this /\ forall region, region ∈ State.Regions st -> inactive s' region) /\
  (forall r, heap s !! this = Some (ORegion r) ->
     Region_OnExit n this s = Ok tt s' out ->
     inactive s' this /\ forall current, Region.Current r = Some current -> inactive s' current).
Proof.
  split.
  - intros st Hthis H. split.
    { apply State_OnExit_inactive in H as (st1 & ? & ?). by eexists. }
    destruct n as [|n]; [done|]. simpl in H.
    rewrite (bind_run _ _ _ _ _ (getState_run _ _ _ Hthis)) in H.
    apply bind_Ok in H as ([] & s1 & o1 & o2 & Hr & H & _).
    apply bind_Ok in H as (st1 & sa & ? & ? & Hg & H & _).
    apply getState_Ok in Hg as (-> & _ & Hg).
    rewrite (bind_step _ _ _ _ _ _ (forEach_call _ _ _)) in H.
    rewrite (bind_step _ _ _ _ _ _ (emit_run _ _)) in H.
    rewrite (bind_run _ _ _ _ _ (getState_run _ _ _ Hg)) in H.
    rewrite store_run in H. injection H as <- _.
    intros region Hin. apply inactive_insert; [done|].
    by eapply (forEach_exit_inactive n).
  - intros r Hthis H. split; [by eapply Region_OnExit_inactive|].
    intros current Hc. destruct n as [|n]; [done|]. simpl in H.
    rewrite (bind_run _ _ _ _ _ (getRegion_run _ _ _ Hthis)), Hc in H.
    apply bind_Ok in H as ([] & s1 & o1 & o2 & Hx & H & _).
    rewrite (bind_step _ _ _ _ _ _ (emit_run _ _)) in H.
    destruct ((let* r0 := getRegion this in
               store this (ORegion (Region.set_IsActive false r0))) s1)
      as [[] s2 o3| |] eqn:Hfin; try done.
    injection H as <- _.
    pose proof (Deactivating_Region_off this s1) as D. rewrite Hfin in D.
    eapply deactivates_inactive; [exact D|].
    apply bind_Ok in Hx as (oc & sa & ? & ? & Hd & Hx & _).
    unfold deref in Hd. destruct (heap s !! current) as [oc'|] eqn:Ec; [|done].
    injection Hd as -> <- _.
    destruct (IsActive_of oc) eqn:Ea.
    + by eapply OnExit_inactive.
    + injection Hx as <- _. by exists oc.
Qed.

Lemma OnExit_leaves_inactive_witness :
  let s' := store_of (State_OnExit 5 0 orthogonal_store) in
  let s1 := store_of (Region_OnExit 5 1 orthogonal_store) in
  (inactive s' 0 /\ forall region, region ∈ [1; 2] -> inactive s' region) /\
  (inactive s1 1 /\ forall current, Some 4 = Some current -> inactive s1 current).
Proof.
  intros s' s1. split.
  - apply (proj1 (OnExit_leaves_inactive 5 0 orthogonal_store s'
                    (trace_of (State_OnExit 5 0 orthogonal_store)))
             (State.mk "S" None true ["entry S"] ["exit S"] [1; 2] [] [] None)).
    + vm_compute. reflexivity.
    + vm_compute. reflexivity.
  - apply (proj2 (OnExit_leaves_inactive 5 1 orthogonal_store s1
                    (trace_of (Region_OnExit 5 1 orthogonal_store)))
             (Region.mk "r1" (Some 0) true [3; 4] (Some 3) (Some 4))).
    + vm_compute. reflexivity.
    + vm_compute. reflexivity.
Defined.

Lemma getFinalState_run x r s :
  heap s !! x = Some (OFinalState r) -> getFinalState x s = Ok r s [].
Proof. intros H. unfold getFinalState, bind, deref. by rewrite H. Qed.

(** ** Final states *)

(** X9. Entering an inactive final state of a region logs the entry, and the
    region [IsComplete] from then on.  The final state can be neither
    entered again nor left: [FinalState.prototype] defines no [OnExit], so a
    second [BeginEnter] and the [OnExit] of the region both raise a
    TypeError, and change nothing and log nothing.  A message processed
    by the region is answered with [undefined]. *)
Theorem FinalState_entered (this : ref) (s : Store) (f : FinalState.t) (r : Region.t) :
  heap s !! this = Some (OFinalState f) ->
  FinalState.IsActive f = false ->
  heap s !! FinalState.Parent f = Some (ORegion r) ->
  exists s1,
    FinalState_BeginEnter this s = Ok tt s1 [(LogEnter this, s)] /\
    Region_IsComplete (FinalState.Parent f) s1 = Ok true s1 [] /\
    FinalState_BeginEnter this s1 = Throw TypeError s1 [] /\
    (forall n, Region_OnExit (S n) (FinalState.Parent f) s1 = Throw TypeError s1 []) /\
    (forall n message,
       Region_Process (S n) (FinalState.Parent f) message s1 = Ok VUndefined s1 []).
Proof.
  intros Hthis Hoff Hparent.
  assert (Hne : this <> FinalState.Parent f) by (intros E; rewrite <- E in Hparent; congruence).
  set (sa := mkStore (<[this := OFinalState (FinalState.set_IsActive true f)]> (heap s))
               (next s)).
  assert (Hpa : heap sa !! FinalState.Parent f = Some (ORegion r)).
  { subst sa. simpl. by rewrite lookup_insert_ne. }
  set (s1 := mkStore (<[FinalState.Parent f := ORegion (Region.set_Current this r)]> (heap sa))
               (next sa)).
  assert (H1p : heap s1 !! FinalState.Parent f = Some (ORegion (Region.set_Current this r))).
  { subst s1. simpl. apply lookup_insert_eq. }
  assert (H1t : heap s1 !! this = Some (OFinalState (FinalState.set_IsActive true f))).
  { subst s1 sa. simpl. rewrite lookup_insert_ne by done. apply lookup_insert_eq. }
  exists s1. split; [|split; [|split; [|split]]].
  - unfold FinalState_BeginEnter.
    rewrite (bind_run _ _ _ _ _ (getFinalState_run _ _ _ Hthis)), Hoff.
    rewrite (bind_run _ _ _ _ _ (ret_run _ _)).
    rewrite (bind_step _ _ _ _ _ _ (emit_run _ _)).
    rewrite (bind_run _ _ _ _ _ (getFinalState_run _ _ _ Hthis)).
    rewrite (bind_run _ _ _ _ _ (store_run _ _ _)).
    by rewrite (set_Parent_Current_run _ _ _ _ Hpa).
  - unfold Region_IsComplete.
    rewrite (bind_run _ _ _ _ _ (getRegion_run _ _ _ H1p)). simpl.
    by rewrite (bind_run _ _ _ _ _ (deref_run _ _ _ H1t)).
  - unfold FinalState_BeginEnter.
    by rewrite (bind_run _ _ _ _ _ (getFinalState_run _ _ _ H1t)).
  - intros n. simpl.
    rewrite (bind_run _ _ _ _ _ (getRegion_run _ _ _ H1p)). simpl.
    rewrite bind_assoc, (bind_run _ _ _ _ _ (deref_run _ _ _ H1t)). simpl.
    unfold OnExit_of. rewrite bind_assoc.
    by rewrite (bind_run _ _ _ _ _ (deref_run _ _ _ H1t)).
  - intros n message. simpl.
    rewrite (bind_run _ _ _ _ _ (getRegion_run _ _ _ H1p)). simpl.
    unfold Process_of. rewrite bind_assoc.
    by rewrite (bind_run _ _ _ _ _ (deref_run _ _ _ H1t)).
Qed.

Lemma FinalState_entered_witness :
  exists s1,
    FinalState_BeginEnter 2 final_store = Ok tt s1 [(LogEnter 2, final_store)] /\
    Region_IsComplete 1 s1 = Ok true s1 [] /\
    FinalState_BeginEnter 2 s1 = Throw TypeError s1 [] /\
    (forall n, Region_OnExit (S n) 1 s1 = Throw TypeError s1 []) /\
    (forall n message, Region_Process (S n) 1 message s1 = Ok VUndefined s1 []).
Proof.
  apply (FinalState_entered 2 final_store (FinalState.mk "end" 1 false)
           (Region.mk "r" (Some 0) false [2] None None)).
  - vm_compute. reflexivity.
  - reflexivity.
  - vm_compute. reflexivity.
Defined.

(** ** Completions of a State are never traversed *)

(** X10. Whenever [State.prototype.EndEnter] returns, all it has done is to
    initialise the regions of the state, each one once, in the order of
    their declaration, each with the [deepHistory] it was given: the
    completion transitions of the state have changed nothing and logged
    nothing. *)
Theorem State_EndEnter_regions_only (n : nat) (this : ref) (deepHistory : bool)
  (s : Store) (st : State.t) (s' : Store) (out : Trace) :
  heap s !! this = Some (OState st) ->
  State_EndEnter (S n) this deepHistory s = Ok tt s' out ->
  runs_in_order (fun region => Region_Initialise n region deepHistory)
    (State.Regions st) s s' out.
Proof.
  intros Hthis H. simpl in H.
  rewrite (bind_run _ _ _ _ _ (getState_run _ _ _ Hthis)) in H.
  apply bind_Ok in H as ([] & s1 & o1 & o2 & Hr & H & ->).
  apply forEach_in_order in Hr.
  apply bind_Ok in H as (st1 & sa & oa & ob & Hg & H & ->).
  apply getState_Ok in Hg as (-> & -> & Hg). simpl.
  assert (Hend : s' = s1 /\ ob = []); [|destruct Hend as [-> ->]; by rewrite app_nil_r].
  destruct (0 <? length (State.Completions st1))%nat; [|by injection H as <- <-].
  apply bind_Ok in H as (complete & sb & oc & od & Hc & H & ->).
  assert (Hpure : sb = s1 /\ oc = []).
  { destruct (State.IsSimple st1); [by injection Hc as _ <- <-|].
    by apply every_IsComplete_pure in Hc. }
  destruct Hpure as [-> ->].
  destruct complete; [|by injection H as <- <-].
  apply bind_Ok in H as (c & sc & oe & og & Hs & H & ->).
  destruct c; [done|].
  injection H as <- <-.
  unfold singleOrDefault in Hs.
  destruct (List.filter Completion.Guard (State.Completions st1)) as [|? [|]];
    try done. by injection Hs as <- <-.
Qed.

Lemma State_EndEnter_regions_only_witness :
  let s := store_of (State_BeginEnter 3 0 orthogonal_built) in
  let run := State_EndEnter 6 0 false s in
  events_of run
  = [LogEnter 1; LogEnter 3; LogLeave 3; LogEnter 4; Call "entry a" None;
     LogEnter 2; LogEnter 5; LogLeave 5; LogEnter 6] /\
  runs_in_order (fun region => Region_Initialise 5 region false) [1; 2]
    s (store_of run) (trace_of run).
Proof.
  intros s run. split; [vm_compute; reflexivity|].
  apply (State_EndEnter_regions_only 5 0 false s
           (State.mk "S" None true ["entry S"] ["exit S"] [1; 2] [] [] None)).
  - vm_compute. reflexivity.
  - vm_compute. reflexivity.
Defined.

(** ** Dispatch to the child regions *)

Lemma getRegion_Ok x s a s' o :
  getRegion x s = Ok a s' o -> s' = s /\ o = [] /\ heap s !! x = Some (ORegion a).
Proof.
  unfold getRegion, bind, deref.
  destruct (heap s !! x) as [[]|]; simpl; intros H; by simplify_eq.
Qed.

Lemma process_if_active_run n message region s r :
  heap s !! region = Some (ORegion r) ->
  process_if_active n message region s
  = if Region.IsActive r
    then (Region_Process n region message ;; ret tt) s
    else Ok tt s [].
Proof.
  intros Hr. unfold process_if_active.
  rewrite (bind_run _ _ _ _ _ (getRegion_run _ _ _ Hr)). by destruct (Region.IsActive r).
Qed.

Lemma Process_regions_forEach n message regions : forall processed s b s' out,
  Process_regions (fun region => Region_Process n region message) regions processed s
  = Ok b s' out <->
  b = processed /\ forEach regions (process_if_active n message) s = Ok tt s' out.
Proof.
  induction regions as [|region rest IH]; intros processed s b s' out; simpl.
  - split; [by intros [= <- <- <-] | by intros [-> [= <- <-]]].
  - split.
    + intros H. apply bind_Ok in H as (r & s1 & o1 & o2 & Hg & H & ->).
      apply getRegion_Ok in Hg as (-> & -> & Hr).
      pose proof (process_if_active_run n message _ _ _ Hr) as Hrun.
      destruct (Region.IsActive r).
      * apply bind_Ok in H as (v & s2 & o3 & o4 & Hv & H & ->).
        rewrite (Region_Process_undefined _ _ _ _ _ _ _ Hv) in H. simpl in H.
        apply IH in H as [-> H]. split; [done|].
        apply bind_Ok. exists tt, s2, o3, o4. split; [|done].
        rewrite Hrun, (bind_step _ _ _ _ _ _ Hv). simpl. by rewrite app_nil_r.
      * apply IH in H as [-> H]. split; [done|].
        apply bind_Ok. by exists tt, s, [], o2.
    + intros [-> H]. apply bind_Ok in H as ([] & s1 & o1 & o2 & Hp & H & ->).
      unfold process_if_active in Hp.
      apply bind_Ok in Hp as (r & s2 & o3 & o4 & Hg & Hp & ->).
      apply getRegion_Ok in Hg as (-> & -> & Hr).
      rewrite (bind_run _ _ _ _ _ (getRegion_run _ _ _ Hr)).
      pose proof (fun p => proj2 (IH p s1 p s' o2) (conj eq_refl H)) as Hrest.
      destruct (Region.IsActive r).
      * apply bind_Ok in Hp as (v & s3 & o5 & o6 & Hv & Hp & ->).
        injection Hp as -> <-.
        rewrite (bind_step _ _ _ _ _ _ Hv).
        rewrite (Region_Process_undefined _ _ _ _ _ _ _ Hv). simpl.
        by rewrite Hrest, app_nil_r.
      * injection Hp as -> <-. by rewrite Hrest.
Qed.

(** X11. A message for which no transition of the state itself is enabled is
    handed to the regions of the state, in the order of their declaration,
    and only to those that are active when their turn comes; the answer is
    [false], whatever the regions did with the message. *)
Theorem State_Process_dispatch (n : nat) (this : ref) (message : Message) (s : Store)
  (st : State.t) (v : JSVal) (s' : Store) (out : Trace) :
  heap s !! this = Some (OState st) ->
  List.filter (fun t => Transition.Guard t message) (State.Transitions st) = [] ->
  State_Process (S n) this message s = Ok v s' out <->
  v = VBool false /\
  runs_in_order (process_if_active n message) (State.Regions st) s s' out.
Proof.
  intros Hthis Hnone. simpl.
  rewrite (bind_run _ _ _ _ _ (getState_run _ _ _ Hthis)), Hnone. simpl.
  rewrite (bind_run _ _ _ _ _ (ret_run _ _)).
  rewrite <- forEach_in_order.
  destruct (State.IsSimple st) eqn:Hsimple; simpl.
  - unfold State.IsSimple in Hsimple. apply Nat.eqb_eq, nil_length_inv in Hsimple.
    rewrite Hsimple. simpl.
    split; [by intros [= <- <- <-] | by intros [-> [= <- <-]]].
  - split.
    + intros H. apply bind_Ok in H as (b & s1 & o1 & o2 & Hp & H & ->).
      injection H as <- <- <-. apply Process_regions_forEach in Hp as [-> Hp].
      by rewrite app_nil_r.
    + intros [-> H].
      rewrite (bind_step _ _ _ _ _ _
                 (proj2 (Process_regions_forEach n message (State.Regions st)
                           false s false s' out) (conj eq_refl H))).
      simpl. by rewrite app_nil_r.
Qed.

Lemma State_Process_dispatch_witness :
  let run := State_Process 6 0 "go" toggle_store in
  events_of run
  = [Call "exit A" None; LogLeave 3; Call "effect" (Some "go"); LogEnter 4;
     Call "entry B" None] /\
  VBool false = VBool false /\
  runs_in_order (process_if_active 5 "go") [1] toggle_store (store_of run) (trace_of run).
Proof.
  intros run. split; [vm_compute; reflexivity|].
  apply (State_Process_dispatch 5 0 "go" toggle_store
           (State.mk "S" None true [] [] [1] [] [] (Some 1))).
  - vm_compute. reflexivity.
  - reflexivity.
  - vm_compute. reflexivity.
Defined.

(** ** The default region *)

(** X12. [State.prototype.DefaultRegion] logs nothing, leaves the region it
    returns in the [defaultRegion] field of the state, and returns the same
    region when it is called again, without changing anything. *)
Theorem State_DefaultRegion_once (this : ref) (s : Store) (region : ref) (s1 : Store)
  (out : Trace) :
  State_DefaultRegion this s = Ok region s1 out ->
  out = [] /\
  (exists st1, heap s1 !! this = Some (OState st1) /\
     State.defaultRegion st1 = Some region) /\
  State_DefaultRegion this s1 = Ok region s1 [].
Proof.
  intros H. unfold State_DefaultRegion in H.
  apply bind_Ok in H as (st & sa & oa & ob & Hg & H & ->).
  apply getState_Ok in Hg as (-> & -> & Hthis).
  assert (Hdone : forall st1, heap s1 !! this = Some (OState st1) ->
            State.defaultRegion st1 = Some region ->
            State_DefaultRegion this s1 = Ok region s1 []).
  { intros st1 H1 Hd. unfold State_DefaultRegion.
    by rewrite (bind_run _ _ _ _ _ (getState_run _ _ _ H1)), Hd. }
  destruct (State.defaultRegion st) as [r0|] eqn:Hd.
  - injection H as <- <- <-. split; [done|]. split; [by exists st | by eapply Hdone].
  - apply bind_Ok in H as (r & sb & oc & od & Hn & H & ->).
    apply bind_Ok in H as (st' & sc & oe & og & Hg & H & ->).
    apply getState_Ok in Hg as (-> & -> & _).
    apply bind_Ok in H as ([] & sd & oh & oi & Hst & H & ->).
    injection H as <- <- <-. unfold store in Hst. injection Hst as <- <-.
    assert (Hno : oc = []).
    { unfold new_Region in Hn.
      apply bind_Ok in Hn as (x & se & o1 & o2 & Ha & Hn & ->).
      injection Ha as _ _ <-.
      apply bind_Ok in Hn as ([] & sf & o3 & o4 & Hp & Hn & ->).
      injection Hn as _ _ <-.
      apply bind_Ok in Hp as (st2 & sg & o5 & o6 & Hg & Hp & ->).
      apply getState_Ok in Hg as (_ & -> & _). by injection Hp as _ <-. }
    subst oc. split; [done|].
    assert (H1 : heap (mkStore (<[this:=OState (State.set_defaultRegion r st')]> (heap sb))
                         (next sb)) !! this
                 = Some (OState (State.set_defaultRegion r st'))) by apply lookup_insert_eq.
    split; [by eexists | by eapply Hdone].
Qed.

Lemma State_DefaultRegion_once_witness :
  let s1 := store_of (State_DefaultRegion 0 lone_state_store) in
  State_DefaultRegion 0 lone_state_store = Ok 1 s1 [] /\
  @nil (Event * Store) = [] /\
  (exists st1, heap s1 !! 0 = Some (OState st1) /\ State.defaultRegion st1 = Some 1) /\
  State_DefaultRegion 0 s1 = Ok 1 s1 [].
Proof.
  intros s1.
  assert (H : State_DefaultRegion 0 lone_state_store = Ok 1 s1 [])
    by (vm_compute; reflexivity).
  split; [exact H|].
  exact (State_DefaultRegion_once 0 lone_state_store 1 s1 [] H).
Defined.

(** ** The deepHistory flag *)

Lemma Initialise_of_flag n R P S' (x : ref) (d d' : bool) s :
  (forall r, heap s !! x <> Some (ORegion r)) ->
  Initialise_of n R P S' x d s = Initialise_of n R P S' x d' s.
Proof.
  intros Hx. unfold Initialise_of, bind, deref.
  destruct (heap s !! x) as [[r| | |]|]; try done. by destruct (Hx r).
Qed.

(** X13. Initialising a region that has no [Current] vertex, or one whose
    initial pseudo state is of a history kind, does the same with
    [deepHistory] true and false, unless [Current] is itself a region: the
    vertices do not hand the flag on. *)
Theorem Region_Initialise_flag_irrelevant (n : nat) (this : ref) (s : Store)
  (r : Region.t) (initial : ref) (p : PseudoState.t) :
  heap s !! this = Some (ORegion r) ->
  Region.Initial r = Some initial ->
  heap s !! initial = Some (OPseudoState p) ->
  (forall current rc, Region.Current r = Some current ->
     heap s !! current <> Some (ORegion rc)) ->
  Region.Current r = None \/ PseudoStateKind.IsHistory (PseudoState.Kind p) = true ->
  Region_Initialise n this true s = Region_Initialise n this false s.
Proof.
  intros Hthis Hini Hp Hcur Hcase. destruct n as [|n]; [done|]. simpl.
  apply bind_ext. intros [] s1 o1 Hrun.
  pose proof (Framed_Ok _ _ _ _ _ (Framed_Region_BeginEnter n this) Hrun) as Hfr.
  destruct (frame_Region _ _ _ _ Hfr Hthis) as (r1 & Hthis1 & Hr1).
  destruct (frame_PseudoState _ _ _ _ Hfr Hp) as (p1 & Hp1 & Hp1').
  injection Hr1 as _ _ _ HI HC. injection Hp1' as HK _ _.
  do 2 rewrite (bind_run _ _ _ _ _ (getRegion_run _ _ _ Hthis1)).
  rewrite HI, HC, Hini.
  rewrite (bind_run _ _ _ _ _ (ret_run _ _)).
  rewrite bind_assoc, (bind_run _ _ _ _ _ (getPseudoState_run _ _ _ Hp1)).
  rewrite (bind_run _ _ _ _ _ (ret_run _ _)), HK.
  assert (Hpseudo : forall rr, heap s1 !! initial <> Some (ORegion rr))
    by (intros rr; congruence).
  destruct (Region.Current r) as [current|] eqn:Ec.
  - destruct Hcase as [?|Hh]; [done|]. rewrite Hh. simpl.
    apply Initialise_of_flag. intros rr Hrr.
    destruct Hfr as [_ F]. specialize (F current). rewrite Hrr in F.
    destruct (heap s !! current) as [[rc| | |]|] eqn:E; try done.
    by destruct (Hcur current rc eq_refl).
  - simpl. rewrite andb_false_r. by apply Initialise_of_flag.
Qed.

Lemma Region_Initialise_flag_irrelevant_witness :
  events_of (Region_Initialise 6 1 false orthogonal_built)
  = [LogEnter 1; LogEnter 3; LogLeave 3; LogEnter 4; Call "entry a" None] /\
  Region_Initialise 6 1 true orthogonal_built
  = Region_Initialise 6 1 false orthogonal_built.
Proof.
  split; [vm_compute; reflexivity|].
  apply (Region_Initialise_flag_irrelevant 6 1 orthogonal_built
           (Region.mk "r1" (Some 0) false [3; 4] (Some 3) None) 3
           (PseudoState.mk PseudoStateKind.Initial 1
              [Completion.mk true (PathObj.mk [Some 3] [4] 4) []] None)).
  - vm_compute. reflexivity.
  - reflexivity.
  - vm_compute. reflexivity.
  - intros current rc [=].
  - left. reflexivity.
Defined.

(** ** An initial pseudo state that leads nowhere *)

(** X14. Entering an inactive region for the first time when its initial pseudo
    state does not have exactly one completion raises the error of
    [Array.prototype.single], after the entries of the region and of the
    pseudo state have been logged: the region is left active with no
    [Current] vertex. *)
Theorem Region_Initialise_no_completion (n : nat) (this : ref) (deepHistory : bool)
  (s : Store) (r : Region.t) (initial : ref) (p : PseudoState.t) :
  heap s !! this = Some (ORegion r) ->
  Region.IsActive r = false ->
  Region.Current r = None ->
  Region.Initial r = Some initial ->
  heap s !! initial = Some (OPseudoState p) ->
  PseudoStateKind.IsInitial (PseudoState.Kind p) = true ->
  length (PseudoState.Completions p) <> 1 ->
  let s1 := mkStore (<[this := ORegion (Region.set_IsActive true r)]> (heap s)) (next s) in
  Region_Initialise (S (S n)) this deepHistory s
  = Throw (Error "Cannot return zero or more than one elements") s1
      [(LogEnter this, s); (LogEnter initial, s1)].
Proof.
  intros Hthis Hoff Hcur Hini Hp Hkind Hlen s1.
  assert (Hne : this <> initial) by (intros ->; congruence).
  assert (H1 : heap s1 !! this = Some (ORegion (Region.set_IsActive true r))).
  { subst s1. simpl. apply lookup_insert_eq. }
  assert (H1p : heap s1 !! initial = Some (OPseudoState p)).
  { subst s1. simpl. by rewrite lookup_insert_ne. }
  assert (Hbegin : Region_BeginEnter (S n) this s = Ok tt s1 [(LogEnter this, s)]).
  { unfold Region_BeginEnter.
    rewrite (bind_run _ _ _ _ _ (getRegion_run _ _ _ Hthis)), Hoff.
    rewrite (bind_run _ _ _ _ _ (ret_run _ _)).
    rewrite (bind_step _ _ _ _ _ _ (emit_run _ _)).
    by rewrite (bind_run _ _ _ _ _ (getRegion_run _ _ _ Hthis)). }
  change (Region_Initialise (S (S n)) this deepHistory s)
    with ((Region_BeginEnter (S n) this ;;
           let* r0 := getRegion this in
           let* history :=
             (if deepHistory then ret true
              else match Region.Initial r0 with
                   | Some initial0 =>
                       let* p0 := getPseudoState initial0 in
                       ret (PseudoStateKind.IsHistory (PseudoState.Kind p0))
                   | None => throw TypeError
                   end) in
           match (if history && bool_decide (is_Some (Region.Current r0))
                  then Region.Current r0 else Region.Initial r0) with
           | Some v =>
               Initialise_of (S n) (Region_Initialise (S n)) (PseudoState_EndEnter (S n))
                 (State_EndEnter (S n)) v deepHistory
           | None => throw TypeError
           end) s).
  rewrite (bind_step _ _ _ _ _ _ Hbegin).
  rewrite (bind_run _ _ _ _ _ (getRegion_run _ _ _ H1)). simpl.
  rewrite Hini, Hcur.
  assert (Hh : forall k : bool -> M unit,
    (let* history := (if deepHistory then ret true
                      else let* p0 := getPseudoState initial in
                           ret (PseudoStateKind.IsHistory (PseudoState.Kind p0))) in
     k history) s1
    = k (deepHistory || PseudoStateKind.IsHistory (PseudoState.Kind p)) s1).
  { intros k. destruct deepHistory; [by rewrite (bind_run _ _ _ _ _ (ret_run _ _))|].
    rewrite bind_assoc, (bind_run _ _ _ _ _ (getPseudoState_run _ _ _ H1p)).
    by rewrite (bind_run _ _ _ _ _ (ret_run _ _)). }
  rewrite Hh, andb_false_r.
  unfold Initialise_of.
  rewrite (bind_run _ _ _ _ _ (deref_run _ _ _ H1p)).
  unfold PseudoState_BeginEnter. rewrite (bind_step _ _ _ _ _ _ (emit_run _ _)).
  change (PseudoState_EndEnter (S n) initial false)
    with (let* p0 := getPseudoState initial in
          let* completion :=
            GetCompletion (PseudoState.Kind p0) (PseudoState.Completions p0) in
          Completion_Traverse n completion false).
  rewrite (bind_run _ _ _ _ _ (getPseudoState_run _ _ _ H1p)).
  assert (Hget : GetCompletion (PseudoState.Kind p) (PseudoState.Completions p) s1
                 = Throw (Error "Cannot return zero or more than one elements") s1 []).
  { unfold GetCompletion. destruct (PseudoState.Kind p); try done;
      by destruct (PseudoState.Completions p) as [|? [|]]. }
  unfold bind at 1. by rewrite Hget.
Qed.

Lemma Region_Initialise_no_completion_witness :
  let r := Region.mk "r" (Some 0) false [2] (Some 2) None in
  let s1 := mkStore (<[1 := ORegion (Region.set_IsActive true r)]>
                       (heap dangling_initial_store)) (next dangling_initial_store) in
  Region_Initialise 2 1 false dangling_initial_store
  = Throw (Error "Cannot return zero or more than one elements") s1
      [(LogEnter 1, dangling_initial_store); (LogEnter 2, s1)].
Proof.
  intros r.
  apply (Region_Initialise_no_completion 0 1 false dangling_initial_store r 2
           (PseudoState.mk PseudoStateKind.Initial 1 [] None)).
  - vm_compute. reflexivity.
  - reflexivity.
  - reflexivity.
  - reflexivity.
  - vm_compute. reflexivity.
  - reflexivity.
  - simpl. lia.
Defined.

(** ** Simple states, step by step *)

Lemma Completion_Traverse_S n this deepHistory :
  Completion_Traverse (S n) this deepHistory
  = (forEach (PathObj.Exit (Completion.Path this)) (Path_Exit_action n) ;;
     forEach (Completion.Effect this) (call None) ;;
     forEach (PathObj.Enter (Completion.Path this)) (BeginEnter n) ;;
     EndEnter n (PathObj.Complete (Completion.Path this)) false).
Proof. reflexivity. Qed.

Lemma State_OnExit_simple n this s st :
  heap s !! this = Some (OState st) -> State.Regions st = [] ->
  State_OnExit (S n) this s
  = Ok tt (mkStore (<[this := OState (State.set_IsActive false st)]> (heap s)) (next s))
      (map (fun a => (Call a None, s)) (State.Exit st) ++ [(LogLeave this, s)]).
Proof.
  intros Hthis Hregions. simpl.
  rewrite (bind_run _ _ _ _ _ (getState_run _ _ _ Hthis)), Hregions. simpl.
  rewrite (bind_run _ _ _ _ _ (ret_run _ _)).
  rewrite (bind_run _ _ _ _ _ (getState_run _ _ _ Hthis)).
  rewrite (bind_step _ _ _ _ _ _ (forEach_call _ _ _)).
  rewrite (bind_step _ _ _ _ _ _ (emit_run _ _)).
  rewrite (bind_run _ _ _ _ _ (getState_run _ _ _ Hthis)).
  by rewrite store_run.
Qed.

Lemma State_BeginEnter_inactive n this s st region r :
  heap s !! this = Some (OState st) -> State.IsActive st = false ->
  State.Parent st = Some region -> heap s !! region = Some (ORegion r) ->
  let s2 := mkStore (<[region := ORegion (Region.set_Current this r)]>
                       (<[this := OState (State.set_IsActive true st)]> (heap s)))
              (next s) in
  State_BeginEnter n this s
  = Ok tt s2 ((LogEnter this, s) :: map (fun a => (Call a None, s2)) (State.Entry st)).
Proof.
  intros Hthis Hoff Hparent Hregion s2.
  assert (Hne : this <> region) by (intros ->; congruence).
  unfold State_BeginEnter.
  rewrite (bind_run _ _ _ _ _ (getState_run _ _ _ Hthis)), Hoff.
  rewrite (bind_run _ _ _ _ _ (ret_run _ _)).
  rewrite (bind_step _ _ _ _ _ _ (emit_run _ _)).
  rewrite (bind_run _ _ _ _ _ (getState_run _ _ _ Hthis)).
  rewrite (bind_run _ _ _ _ _ (store_run _ _ _)), Hparent.
  set (sa := mkStore _ _).
  assert (Hra : heap sa !! region = Some (ORegion r)).
  { subst sa. simpl. by rewrite lookup_insert_ne. }
  rewrite (bind_run _ _ _ _ _ (set_Parent_Current_run _ _ _ _ Hra)).
  assert (Hsb : heap s2 !! this = Some (OState (State.set_IsActive true st))).
  { subst s2. simpl. rewrite lookup_insert_ne by done. apply lookup_insert_eq. }
  change (mkStore _ (next sa)) with s2.
  rewrite (bind_run _ _ _ _ _ (getState_run _ _ _ Hsb)). simpl.
  by rewrite forEach_call.
Qed.

(** The end of the entry of a state without regions, whatever its
    completion transitions. *)
Lemma State_EndEnter_simple_outcome n this deepHistory s st :
  heap s !! this = Some (OState st) -> State.Regions st = [] ->
  State_EndEnter (S n) this deepHistory s
  = match List.filter Completion.Guard (State.Completions st) with
    | [] => Ok tt s []
    | [_] => Throw TypeError s []
    | _ => Throw (Error "Cannot return more than one elements") s []
    end.
Proof.
  intros Hthis Hregions. simpl.
  rewrite (bind_run _ _ _ _ _ (getState_run _ _ _ Hthis)), Hregions. simpl.
  rewrite (bind_run _ _ _ _ _ (ret_run _ _)).
  rewrite (bind_run _ _ _ _ _ (getState_run _ _ _ Hthis)).
  destruct (State.Completions st) as [|c cs] eqn:Hcs; [done|].
  rewrite <- Hcs. replace (0 <? length (State.Completions st))%nat with true
    by (by rewrite Hcs).
  unfold State.IsSimple. rewrite Hregions. simpl.
  rewrite (bind_run _ _ _ _ _ (ret_run _ _)). unfold singleOrDefault.
  by destruct (List.filter Completion.Guard (State.Completions st)) as [|? [|? ?]].
Qed.

(** X15. A message that enables exactly one transition of an active simple state
    [a], leading to an inactive simple sibling [b], is processed as follows:
    the exit actions of [a] are called and [a] is left, the effects of the
    transition are called with the message, [b] is entered, becomes the
    [Current] vertex of the region and has its entry actions called.  When no
    completion transition of [b] is enabled the answer is [true].  When
    exactly one is, all of the above happens and then a TypeError is raised
    in place of the answer; when two or more are, the error of
    [singleOrDefault] is. *)
Theorem State_Process_siblings (n : nat) (a b region : ref) (message : Message)
  (s : Store) (sa sb : State.t) (r : Region.t) (t : Transition.t) :
  heap s !! a = Some (OState sa) -> heap s !! b = Some (OState sb) ->
  heap s !! region = Some (ORegion r) ->
  State.Parent sb = Some region ->
  a <> b ->
  State.Regions sa = [] ->
  State.IsActive sb = false -> State.Regions sb = [] ->
  List.filter (fun t => Transition.Guard t message) (State.Transitions sa) = [t] ->
  Transition.Path t = PathObj.mk [Some a] [b] b ->
  let s1 := mkStore (<[a := OState (State.set_IsActive false sa)]> (heap s)) (next s) in
  let s2 := mkStore (<[region := ORegion (Region.set_Current b r)]>
                       (<[b := OState (State.set_IsActive true sb)]> (heap s1)))
              (next s) in
  let out := map (fun x => (Call x None, s)) (State.Exit sa) ++ [(LogLeave a, s)]
             ++ map (fun x => (Call x (Some message), s1)) (Transition.Effect t)
             ++ (LogEnter b, s1) :: map (fun x => (Call x None, s2)) (State.Entry sb) in
  State_Process (S (S n)) a message s
  = match List.filter Completion.Guard (State.Completions sb) with
    | [] => Ok (VBool true) s2 out
    | [_] => Throw TypeError s2 out
    | _ => Throw (Error "Cannot return more than one elements") s2 out
    end.
Proof.
  intros Ha Hb Hr HPb Hne HRa Hoff HRb Hen Hpath s1 s2 out.
  assert (Hnar : a <> region) by (intros ->; congruence).
  assert (Hnbr : b <> region) by (intros ->; congruence).
  assert (H1b : heap s1 !! b = Some (OState sb)).
  { subst s1. simpl. by rewrite lookup_insert_ne. }
  assert (H1r : heap s1 !! region = Some (ORegion r)).
  { subst s1. simpl. by rewrite lookup_insert_ne. }
  assert (H2b : heap s2 !! b = Some (OState (State.set_IsActive true sb))).
  { subst s2. simpl. rewrite lookup_insert_ne by done. apply lookup_insert_eq. }
  assert (Hexit : Path_Exit_action (S n) (Some a) s
                  = Ok tt s1 (map (fun x => (Call x None, s)) (State.Exit sa)
                               ++ [(LogLeave a, s)])).
  { simpl. unfold OnExit, OnExit_of.
    rewrite (bind_run _ _ _ _ _ (deref_run _ _ _ Ha)).
    by apply State_OnExit_simple. }
  assert (Henter : BeginEnter (S n) b s1
                   = Ok tt s2 ((LogEnter b, s1)
                                 :: map (fun x => (Call x None, s2)) (State.Entry sb))).
  { unfold BeginEnter. rewrite (bind_run _ _ _ _ _ (deref_run _ _ _ H1b)).
    by apply (State_BeginEnter_inactive (S n) b s1 sb region r). }
  assert (Hend : EndEnter (S n) b false s2
                 = match List.filter Completion.Guard (State.Completions sb) with
                   | [] => Ok tt s2 []
                   | [_] => Throw TypeError s2 []
                   | _ => Throw (Error "Cannot return more than one elements") s2 []
                   end).
  { unfold EndEnter, EndEnter_of. rewrite (bind_run _ _ _ _ _ (deref_run _ _ _ H2b)).
    by apply (State_EndEnter_simple_outcome n b false s2 (State.set_IsActive true sb)). }
  change (State_Process (S (S n)) a message s)
    with ((let* st := getState a in
           let* transition :=
             singleOrDefault
               (List.filter (fun t => Transition.Guard t message) (State.Transitions st)) in
           match transition with
           | Some t => Transition_Traverse (S n) t message ;; ret (VBool true)
           | None =>
               if negb (State.IsSimple st) then
                 let* processed :=
                   Process_regions (fun region => Region_Process (S n) region message)
                     (State.Regions st) false in
                 ret (VBool processed)
               else ret (VBool false)
           end) s).
  rewrite (bind_run _ _ _ _ _ (getState_run _ _ _ Ha)), Hen.
  unfold singleOrDefault. rewrite (bind_run _ _ _ _ _ (ret_run _ _)).
  unfold Transition_Traverse. rewrite Hpath.
  cbn [PathObj.Exit PathObj.Enter PathObj.Complete forEach].
  rewrite !bind_assoc. rewrite (bind_step _ _ _ _ _ _ Hexit).
  rewrite (bind_run _ _ _ _ _ (ret_run _ _)).
  rewrite !bind_assoc. rewrite (bind_step _ _ _ _ _ _ (forEach_call _ _ _)).
  rewrite !bind_assoc. rewrite (bind_step _ _ _ _ _ _ Henter).
  rewrite (bind_run _ _ _ _ _ (ret_run _ _)).
  unfold out. revert Hend.
  destruct (List.filter Completion.Guard (State.Completions sb)) as [|c [|c' cs]];
    intros Hend;
    [rewrite (bind_step _ _ _ _ _ _ Hend) | rewrite (bind_throw _ _ _ _ _ _ Hend)..];
    simpl; by rewrite ?app_nil_r, <- ?app_assoc.
Qed.

Lemma State_Process_siblings_witness :
  events_of (State_Process 2 3 "go" toggle_store)
  = [Call "exit A" None; LogLeave 3; Call "effect" (Some "go"); LogEnter 4;
     Call "entry B" None] /\
  exists s2, State_Process 2 3 "go" toggle_store
             = Ok (VBool true) s2
                 [(Call "exit A" None, toggle_store); (LogLeave 3, toggle_store);
                  (Call "effect" (Some "go"),
                   mkStore (<[3 := OState (State.mk "A" (Some 1) false [] ["exit A"] [] []
                                [Transition.mk (String.eqb "go")
                                   (PathObj.mk [Some 3] [4] 4) ["effect"]] None)]>
                              (heap toggle_store)) (next toggle_store));
                  (LogEnter 4,
                   mkStore (<[3 := OState (State.mk "A" (Some 1) false [] ["exit A"] [] []
                                [Transition.mk (String.eqb "go")
                                   (PathObj.mk [Some 3] [4] 4) ["effect"]] None)]>
                              (heap toggle_store)) (next toggle_store));
                  (Call "entry B" None, s2)].
Proof.
  split; [vm_compute; reflexivity|].
  eexists.
  apply (State_Process_siblings 0 3 4 1 "go" toggle_store
           (State.mk "A" (Some 1) true [] ["exit A"] [] []
              [Transition.mk (String.eqb "go") (PathObj.mk [Some 3] [4] 4) ["effect"]]
              None)
           (State.mk "B" (Some 1) false ["entry B"] [] [] [] [] None)
           (Region.mk "default" (Some 0) true [2; 3; 4] (Some 2) (Some 3))
           (Transition.mk (String.eqb "go") (PathObj.mk [Some 3] [4] 4) ["effect"])).
  - vm_compute. reflexivity.
  - vm_compute. reflexivity.
  - vm_compute. reflexivity.
  - reflexivity.
  - lia.
  - reflexivity.
  - reflexivity.
  - reflexivity.
  - reflexivity.
  - reflexivity.
Defined.

Lemma Region_Initialise_S n this deepHistory :
  Region_Initialise (S n) this deepHistory
  = (Region_BeginEnter n this ;;
     let* r := getRegion this in
     let* history :=
       (if deepHistory then ret true
        else match Region.Initial r with
             | Some initial =>
                 let* p := getPseudoState initial in
                 ret (PseudoStateKind.IsHistory (PseudoState.Kind p))
             | None => throw TypeError
             end) in
     match (if history && bool_decide (is_Some (Region.Current r))
            then Region.Current r else Region.Initial r) with
     | Some v =>
         Initialise_of n (Region_Initialise n) (PseudoState_EndEnter n) (State_EndEnter n)
           v deepHistory
     | None => throw TypeError
     end).
Proof. reflexivity. Qed.

Lemma Region_BeginEnter_inactive n this s r :
  heap s !! this = Some (ORegion r) -> Region.IsActive r = false ->
  Region_BeginEnter n this s
  = Ok tt (mkStore (<[this := ORegion (Region.set_IsActive true r)]> (heap s)) (next s))
      [(LogEnter this, s)].
Proof.
  intros Hthis Hoff. unfold Region_BeginEnter.
  rewrite (bind_run _ _ _ _ _ (getRegion_run _ _ _ Hthis)), Hoff.
  rewrite (bind_run _ _ _ _ _ (ret_run _ _)).
  rewrite (bind_step _ _ _ _ _ _ (emit_run _ _)).
  by rewrite (bind_run _ _ _ _ _ (getRegion_run _ _ _ Hthis)).
Qed.

Lemma history_run (deepHistory : bool) initial p s {A} (k : bool -> M A) :
  heap s !! initial = Some (OPseudoState p) ->
  (let* history := (if deepHistory then ret true
                    else let* p0 := getPseudoState initial in
                         ret (PseudoStateKind.IsHistory (PseudoState.Kind p0))) in
   k history) s
  = k (deepHistory || PseudoStateKind.IsHistory (PseudoState.Kind p)) s.
Proof.
  intros Hp. destruct deepHistory; [by rewrite (bind_run _ _ _ _ _ (ret_run _ _))|].
  rewrite bind_assoc, (bind_run _ _ _ _ _ (getPseudoState_run _ _ _ Hp)).
  by rewrite (bind_run _ _ _ _ _ (ret_run _ _)).
Qed.

(** X16. Entering an inactive region for the first time, when the single
    completion of its initial pseudo state leads to a simple state [a] of
    the region: the region is entered, the pseudo state is entered and left,
    the effects of the completion are called, and [a] is entered and becomes
    the [Current] vertex of the region.  When no completion transition of
    [a] is enabled the call returns.  When exactly one is, all of the above
    happens and then a TypeError is raised; when two or more are, the error
    of [singleOrDefault] is. *)
Theorem Region_Initialise_first_entry (n : nat) (this initial a : ref)
  (deepHistory : bool) (s : Store) (r : Region.t) (p : PseudoState.t)
  (c : Completion.t) (sa : State.t) :
  heap s !! this = Some (ORegion r) ->
  Region.IsActive r = false -> Region.Current r = None ->
  Region.Initial r = Some initial ->
  heap s !! initial = Some (OPseudoState p) ->
  PseudoStateKind.IsInitial (PseudoState.Kind p) = true ->
  PseudoState.Completions p = [c] ->
  Completion.Path c = PathObj.mk [Some initial] [a] a ->
  heap s !! a = Some (OState sa) ->
  State.IsActive sa = false -> State.Parent sa = Some this ->
  State.Regions sa = [] ->
  let s1 := mkStore (<[this := ORegion (Region.set_IsActive true r)]> (heap s)) (next s) in
  let s2 := mkStore (<[initial := OPseudoState (PseudoState.set_IsActive false p)]> (heap s1))
              (next s) in
  let s3 := mkStore
              (<[this := ORegion (Region.set_Current a (Region.set_IsActive true r))]>
                 (<[a := OState (State.set_IsActive true sa)]> (heap s2)))
              (next s) in
  let out := (LogEnter this, s) :: (LogEnter initial, s1) :: (LogLeave initial, s1)
             :: map (fun x => (Call x None, s2)) (Completion.Effect c)
             ++ (LogEnter a, s2) :: map (fun x => (Call x None, s3)) (State.Entry sa) in
  Region_Initialise (S (S (S (S n)))) this deepHistory s
  = match List.filter Completion.Guard (State.Completions sa) with
    | [] => Ok tt s3 out
    | [_] => Throw TypeError s3 out
    | _ => Throw (Error "Cannot return more than one elements") s3 out
    end.
Proof.
  intros Hthis Hoff Hcur Hini Hp Hkind Hc Hpath Ha Haoff HPa HRa s1 s2 s3 out.
  assert (Hti : this <> initial) by (intros ->; congruence).
  assert (Hta : this <> a) by (intros ->; congruence).
  assert (Hia : initial <> a) by (intros ->; congruence).
  assert (H1t : heap s1 !! this = Some (ORegion (Region.set_IsActive true r))).
  { subst s1. simpl. apply lookup_insert_eq. }
  assert (H1i : heap s1 !! initial = Some (OPseudoState p)).
  { subst s1. simpl. by rewrite lookup_insert_ne. }
  assert (H2a : heap s2 !! a = Some (OState sa)).
  { subst s2 s1. simpl. by rewrite !lookup_insert_ne. }
  assert (H2t : heap s2 !! this = Some (ORegion (Region.set_IsActive true r))).
  { subst s2. simpl. by rewrite lookup_insert_ne. }
  assert (H3a : heap s3 !! a = Some (OState (State.set_IsActive true sa))).
  { subst s3. simpl. rewrite lookup_insert_ne by done. apply lookup_insert_eq. }
  assert (Hleave : Path_Exit_action (S n) (Some initial) s1
                   = Ok tt s2 [(LogLeave initial, s1)]).
  { simpl. unfold OnExit, OnExit_of.
    rewrite (bind_run _ _ _ _ _ (deref_run _ _ _ H1i)).
    unfold PseudoState_OnExit. rewrite (bind_step _ _ _ _ _ _ (emit_run _ _)).
    by rewrite (bind_run _ _ _ _ _ (getPseudoState_run _ _ _ H1i)). }
  assert (Henter : BeginEnter (S n) a s2
                   = Ok tt s3 ((LogEnter a, s2)
                                 :: map (fun x => (Call x None, s3)) (State.Entry sa))).
  { unfold BeginEnter. rewrite (bind_run _ _ _ _ _ (deref_run _ _ _ H2a)).
    by apply (State_BeginEnter_inactive (S n) a s2 sa this). }
  assert (Hend : EndEnter (S n) a false s3
                 = match List.filter Completion.Guard (State.Completions sa) with
                   | [] => Ok tt s3 []
                   | [_] => Throw TypeError s3 []
                   | _ => Throw (Error "Cannot return more than one elements") s3 []
                   end).
  { unfold EndEnter, EndEnter_of. rewrite (bind_run _ _ _ _ _ (deref_run _ _ _ H3a)).
    by apply (State_EndEnter_simple_outcome n a false s3 (State.set_IsActive true sa)). }
  assert (Hget : GetCompletion (PseudoState.Kind p) (PseudoState.Completions p) s1
                 = Ok c s1 []).
  { rewrite Hc. unfold GetCompletion. by destruct (PseudoState.Kind p). }
  rewrite Region_Initialise_S.
  rewrite (bind_step _ _ _ _ _ _ (Region_BeginEnter_inactive _ _ _ _ Hthis Hoff)).
  fold s1. rewrite (bind_run _ _ _ _ _ (getRegion_run _ _ _ H1t)).
  cbn [Region.Initial Region.Current Region.set_IsActive]. rewrite Hini, Hcur.
  rewrite (history_run deepHistory initial p s1 _ H1i), andb_false_r.
  unfold Initialise_of.
  rewrite (bind_run _ _ _ _ _ (deref_run _ _ _ H1i)).
  unfold PseudoState_BeginEnter. rewrite (bind_step _ _ _ _ _ _ (emit_run _ _)).
  rewrite PseudoState_EndEnter_S.
  rewrite (bind_run _ _ _ _ _ (getPseudoState_run _ _ _ H1i)).
  rewrite (bind_run _ _ _ _ _ Hget).
  rewrite Completion_Traverse_S, Hpath.
  cbn [PathObj.Exit PathObj.Enter PathObj.Complete forEach].
  rewrite ?bind_assoc. rewrite (bind_step _ _ _ _ _ _ Hleave).
  rewrite (bind_run _ _ _ _ _ (ret_run _ _)).
  rewrite ?bind_assoc. rewrite (bind_step _ _ _ _ _ _ (forEach_call _ _ _)).
  rewrite ?bind_assoc. rewrite (bind_step _ _ _ _ _ _ Henter).
  rewrite (bind_run _ _ _ _ _ (ret_run _ _)).
  rewrite Hend. unfold out.
  destruct (List.filter Completion.Guard (State.Completions sa)) as [|c1 [|c2 cs]];
    simpl; by rewrite ?app_nil_r.
Qed.

Lemma Region_Initialise_first_entry_witness :
  events_of (Region_Initialise 4 1 false orthogonal_built)
  = [LogEnter 1; LogEnter 3; LogLeave 3; LogEnter 4; Call "entry a" None] /\
  (exists s1 s2 s3,
     Region_Initialise 4 1 false orthogonal_built
     = Ok tt s3 [(LogEnter 1, orthogonal_built); (LogEnter 3, s1); (LogLeave 3, s1);
                 (LogEnter 4, s2); (Call "entry a" None, s3)]) /\
  exists s1 s2 s3,
    Region_Initialise 4 1 false completion_store
    = Throw TypeError s3 [(LogEnter 1, completion_store); (LogEnter 2, s1);
                          (LogLeave 2, s1); (LogEnter 3, s2)].
Proof.
  split; [vm_compute; reflexivity|]. split.
  2: { do 3 eexists.
       apply (Region_Initialise_first_entry 0 1 2 3 false completion_store
                (Region.mk "default" (Some 0) false [2; 3; 4] (Some 2) None)
                (PseudoState.mk PseudoStateKind.Initial 1
                   [Completion.mk true (PathObj.mk [Some 2] [3] 3) []] None)
                (Completion.mk true (PathObj.mk [Some 2] [3] 3) [])
                (State.mk "A" (Some 1) false [] ["exit A"] []
                   [Completion.mk true (PathObj.mk [Some 3] [4] 4) []] [] None));
         vm_compute; reflexivity. }
  do 3 eexists.
  apply (Region_Initialise_first_entry 0 1 3 4 false orthogonal_built
           (Region.mk "r1" (Some 0) false [3; 4] (Some 3) None)
           (PseudoState.mk PseudoStateKind.Initial 1
              [Completion.mk true (PathObj.mk [Some 3] [4] 4) []] None)
           (Completion.mk true (PathObj.mk [Some 3] [4] 4) [])
           (State.mk "a" (Some 1) false ["entry a"] ["exit a"] [] [] [] None)).
  - vm_compute. reflexivity.
  - reflexivity.
  - reflexivity.
  - reflexivity.
  - vm_compute. reflexivity.
  - reflexivity.
  - reflexivity.
  - reflexivity.
  - vm_compute. reflexivity.
  - reflexivity.
  - reflexivity.
  - reflexivity.
Defined.

(** ** Running the machine never changes the model *)

Lemma same_model_refl s : same_model s s.
Proof. done. Qed.

Lemma same_model_trans s1 s2 s3 : same_model s1 s2 -> same_model s2 s3 -> same_model s1 s3.
Proof. intros [H1 H2] [H3 H4]. split; [congruence|]. intros x. by rewrite H4. Qed.

Lemma Structural_ret {A} (a : A) : Structural (ret a).
Proof. intros s. apply same_model_refl. Qed.

Lemma Structural_throw {A} e : Structural (@throw A e).
Proof. intros s. apply same_model_refl. Qed.

Lemma Structural_diverge {A} : Structural (@diverge A).
Proof. by intros s. Qed.

Lemma Structural_emit e : Structural (emit e).
Proof. intros s. apply same_model_refl. Qed.

Lemma Structural_deref x : Structural (deref x).
Proof. intros s. unfold deref. destruct (heap s !! x); apply same_model_refl. Qed.

Lemma Structural_bind {A B} (m : M A) (k : A -> M B) :
  Structural m -> (forall a, Structural (k a)) -> Structural (bind m k).
Proof.
  intros Hm Hk s. unfold bind. specialize (Hm s).
  destruct (m s) as [a s1 o1| |]; [|done..].
  specialize (Hk a s1). destruct (k a s1); eauto using same_model_trans.
Qed.

Lemma Structural_forEach {A} (l : list A) (f : A -> M unit) :
  (forall x, Structural (f x)) -> Structural (forEach l f).
Proof.
  intros Hf. induction l; simpl; [apply Structural_ret|].
  apply Structural_bind; auto.
Qed.

Lemma Structural_every {A} (l : list A) (f : A -> M bool) :
  (forall x, Structural (f x)) -> Structural (every l f).
Proof.
  intros Hf. induction l; simpl; [apply Structural_ret|].
  apply Structural_bind; [auto|]. intros []; [done | apply Structural_ret].
Qed.

Lemma Structural_get {A} (get : Obj -> M A) x :
  (forall o, Structural (get o)) -> Structural (let* o := deref x in get o).
Proof. intros H. apply Structural_bind; [apply Structural_deref | done]. Qed.

Lemma same_model_store x o o' s :
  shape o' = shape o -> heap s !! x = Some o ->
  same_model s (mkStore (<[x := o']> (heap s)) (next s)).
Proof.
  intros Ho Hx. split; [done|]. intros y. simpl.
  destruct (decide (x = y)) as [->|Hne].
  - rewrite lookup_insert_eq, Hx. simpl. by rewrite Ho.
  - by rewrite lookup_insert_ne.
Qed.

Lemma Structural_Region_set_IsActive this b :
  Structural (let* r := getRegion this in store this (ORegion (Region.set_IsActive b r))).
Proof.
  intros s. unfold bind, getRegion, deref, bind, store.
  destruct (heap s !! this) as [[r| | |]|] eqn:Hx; simpl; try apply same_model_refl.
  by apply (same_model_store this (ORegion r)).
Qed.

Lemma Structural_State_off this :
  Structural (let* st := getState this in store this (OState (State.set_IsActive false st))).
Proof.
  intros s. unfold bind, getState, deref, bind, store.
  destruct (heap s !! this) as [[| |r|]|] eqn:Hx; simpl; try apply same_model_refl.
  by apply (same_model_store this (OState r)).
Qed.

Lemma Structural_PseudoState_OnExit this : Structural (PseudoState_OnExit this).
Proof.
  apply Structural_bind; [apply Structural_emit|]. intros _.
  intros s. unfold bind, getPseudoState, deref, bind, store.
  destruct (heap s !! this) as [[|r| |]|] eqn:Hx; simpl; try apply same_model_refl.
  by apply (same_model_store this (OPseudoState r)).
Qed.

Lemma Structural_State_set_IsActive this b {A} (k : State.t -> M A) :
  (forall st, Structural (k st)) ->
  Structural (let* st := getState this in
              store this (OState (State.set_IsActive b st)) ;; k st).
Proof.
  intros Hk s. unfold bind, getState, deref, bind, store. simpl.
  destruct (heap s !! this) as [[| |st|]|] eqn:Hx; simpl; try apply same_model_refl.
  pose proof (same_model_store this (OState st) (OState (State.set_IsActive b st)) s
                eq_refl Hx) as H1.
  specialize (Hk st (mkStore (<[this := OState (State.set_IsActive b st)]> (heap s)) (next s))).
  destruct (k st _); simpl; eauto using same_model_trans.
Qed.

Lemma Structural_FinalState_set_IsActive this b {A} (k : FinalState.t -> M A) :
  (forall st, Structural (k st)) ->
  Structural (let* st := getFinalState this in
              store this (OFinalState (FinalState.set_IsActive b st)) ;; k st).
Proof.
  intros Hk s. unfold bind, getFinalState, deref, bind, store. simpl.
  destruct (heap s !! this) as [[| | |st]|] eqn:Hx; simpl; try apply same_model_refl.
  pose proof (same_model_store this (OFinalState st)
                (OFinalState (FinalState.set_IsActive b st)) s eq_refl Hx) as H1.
  specialize (Hk st (mkStore (<[this := OFinalState (FinalState.set_IsActive b st)]> (heap s))
                       (next s))).
  destruct (k st _); simpl; eauto using same_model_trans.
Qed.

Lemma Structural_set_Parent_Current parent this : Structural (set_Parent_Current parent this).
Proof.
  intros s. unfold set_Parent_Current, bind, deref, store.
  destruct (heap s !! parent) as [[r| | |]|] eqn:Hx; simpl; try apply same_model_refl.
  by apply (same_model_store parent (ORegion r)).
Qed.

Lemma Structural_getRegion x : Structural (getRegion x).
Proof.
  apply Structural_bind; [apply Structural_deref|].
  intros []; (apply Structural_ret || apply Structural_throw).
Qed.

Lemma Structural_getState x : Structural (getState x).
Proof.
  apply Structural_bind; [apply Structural_deref|].
  intros []; (apply Structural_ret || apply Structural_throw).
Qed.

Lemma Structural_getPseudoState x : Structural (getPseudoState x).
Proof.
  apply Structural_bind; [apply Structural_deref|].
  intros []; (apply Structural_ret || apply Structural_throw).
Qed.

Lemma Structural_getFinalState x : Structural (getFinalState x).
Proof.
  apply Structural_bind; [apply Structural_deref|].
  intros []; (apply Structural_ret || apply Structural_throw).
Qed.

Lemma Structural_single {A} (l : list A) : Structural (single l).
Proof. destruct l as [|? [|]]; (apply Structural_ret || apply Structural_throw). Qed.

Lemma Structural_singleOrDefault {A} (l : list A) : Structural (singleOrDefault l).
Proof. destruct l as [|? [|]]; (apply Structural_ret || apply Structural_throw). Qed.

(** Closes a goal [Structural m] when [m] is built from the steps above and
    from calls already known to be structural. *)
Ltac structural :=
  repeat first
    [ assumption
    | match goal with H : forall _, Structural _ |- _ => apply H end
    | match goal with H : forall _ _, Structural _ |- _ => apply H end
    | apply Structural_ret | apply Structural_throw | apply Structural_diverge
    | apply Structural_emit | apply Structural_deref
    | apply Structural_getRegion | apply Structural_getState
    | apply Structural_getPseudoState | apply Structural_getFinalState
    | apply Structural_single | apply Structural_singleOrDefault
    | apply Structural_set_Parent_Current
    | apply Structural_Region_set_IsActive | apply Structural_State_off
    | apply Structural_PseudoState_OnExit
    | apply Structural_State_set_IsActive | apply Structural_FinalState_set_IsActive
    | apply Structural_bind | apply Structural_forEach | apply Structural_every
    | match goal with |- Structural (match ?x with _ => _ end) => destruct x end
    | match goal with |- forall _, _ => intro end ].

Lemma Structural_OnExit_methods n :
  (forall this, Structural (Region_OnExit n this)) /\
  (forall this, Structural (State_OnExit n this)).
Proof.
  induction n as [|n [IHr IHs]]; [split; intros; apply Structural_diverge|].
  split; intros this; simpl.
  - apply Structural_bind; [structural|]. intros r.
    apply Structural_bind; [|structural].
    destruct (Region.Current r); [|structural].
    apply Structural_bind; [structural|]. intros o.
    destruct (IsActive_of o); [|structural]. unfold OnExit_of. structural.
  - structural.
Qed.

Lemma Structural_OnExit n x : Structural (OnExit n x).
Proof. destruct (Structural_OnExit_methods n). unfold OnExit, OnExit_of. structural. Qed.

Lemma Structural_Region_BeginEnter n x : Structural (Region_BeginEnter n x).
Proof.
  destruct (Structural_OnExit_methods n). unfold Region_BeginEnter. structural.
Qed.

Lemma Structural_State_BeginEnter n x : Structural (State_BeginEnter n x).
Proof.
  destruct (Structural_OnExit_methods n). unfold State_BeginEnter.
  apply Structural_bind; [structural|]. intros st0.
  apply Structural_bind; [structural|]. intros _.
  apply Structural_bind; [structural|]. intros _.
  apply Structural_State_set_IsActive. structural.
Qed.

Lemma Structural_FinalState_BeginEnter x : Structural (FinalState_BeginEnter x).
Proof.
  unfold FinalState_BeginEnter.
  apply Structural_bind; [structural|]. intros f0.
  apply Structural_bind; [structural|]. intros _.
  apply Structural_bind; [structural|]. intros _.
  apply Structural_FinalState_set_IsActive. structural.
Qed.

Lemma Structural_BeginEnter n x : Structural (BeginEnter n x).
Proof.
  unfold BeginEnter. apply Structural_bind; [structural|].
  intros []; [apply Structural_Region_BeginEnter | unfold PseudoState_BeginEnter; structural
             | apply Structural_State_BeginEnter | apply Structural_FinalState_BeginEnter].
Qed.

Lemma Structural_Path_Exit_action n x : Structural (Path_Exit_action n x).
Proof. destruct x; simpl; [apply Structural_OnExit | structural]. Qed.

Lemma Structural_EndEnter_methods n :
  (forall this d, Structural (Region_Initialise n this d)) /\
  (forall this d, Structural (PseudoState_EndEnter n this d)) /\
  (forall this d, Structural (State_EndEnter n this d)) /\
  (forall c d, Structural (Completion_Traverse n c d)).
Proof.
  induction n as [|n (IHr & IHp & IHs & IHc)]; [repeat split; intros; apply Structural_diverge|].
  assert (HI : forall x d, Structural (Initialise_of n (Region_Initialise n)
                (PseudoState_EndEnter n) (State_EndEnter n) x d)).
  { intros x d. unfold Initialise_of.
    apply Structural_bind; [structural|]. intros [r|p|st|f].
    - apply IHr.
    - apply Structural_bind; [unfold PseudoState_BeginEnter; structural|]. intros _. apply IHp.
    - apply Structural_bind; [apply Structural_State_BeginEnter|]. intros _. apply IHs.
    - apply Structural_bind; [apply Structural_FinalState_BeginEnter | structural]. }
  assert (HE : forall x d, Structural (EndEnter_of (PseudoState_EndEnter n)
                (State_EndEnter n) x d)).
  { intros x d. unfold EndEnter_of.
    apply Structural_bind; [structural|]. intros [r|p|st|f]; structural. }
  repeat split; intros; simpl.
  - apply Structural_bind; [apply Structural_Region_BeginEnter|]. intros _.
    apply Structural_bind; [structural|]. intros r.
    apply Structural_bind; [structural|]. intros history.
    destruct (if history && bool_decide (is_Some (Region.Current r))
              then Region.Current r else Region.Initial r); [apply HI | structural].
  - apply Structural_bind; [structural|]. intros p.
    apply Structural_bind; [|intros c; apply IHc].
    unfold GetCompletion. destruct (PseudoState.Kind p); apply Structural_single.
  - apply Structural_bind; [structural|]. intros st.
    apply Structural_bind; [apply Structural_forEach; intros; apply IHr|]. intros _.
    apply Structural_bind; [structural|]. intros st1.
    destruct (0 <? length (State.Completions st1))%nat; [|structural].
    apply Structural_bind.
    { destruct (State.IsSimple st1); [structural|].
      apply Structural_every. intros x. unfold Region_IsComplete. structural. }
    intros [|]; [|structural].
    apply Structural_bind; [structural|]. intros [c|]; structural.
  - apply Structural_bind; [apply Structural_forEach; apply Structural_Path_Exit_action|].
    intros _. apply Structural_bind; [structural|]. intros _.
    apply Structural_bind; [apply Structural_forEach; apply Structural_BeginEnter|].
    intros _. apply HE.
Qed.

Lemma Structural_EndEnter n x d : Structural (EndEnter n x d).
Proof.
  destruct (Structural_EndEnter_methods n) as (_ & Hp & Hs & _).
  unfold EndEnter, EndEnter_of.
  apply Structural_bind; [structural|]. intros []; structural.
Qed.

Lemma Structural_Initialise n x d : Structural (Initialise n x d).
Proof.
  destruct (Structural_EndEnter_methods n) as (Hr & Hp & Hs & _).
  unfold Initialise, Initialise_of.
  apply Structural_bind; [structural|]. intros [r|p|st|f].
  - apply Hr.
  - apply Structural_bind; [unfold PseudoState_BeginEnter; structural|]. intros _. apply Hp.
  - apply Structural_bind; [apply Structural_State_BeginEnter|]. intros _. apply Hs.
  - apply Structural_bind; [apply Structural_FinalState_BeginEnter | structural].
Qed.

Lemma Structural_Transition_Traverse n t message :
  Structural (Transition_Traverse n t message).
Proof.
  unfold Transition_Traverse.
  apply Structural_bind; [apply Structural_forEach; apply Structural_Path_Exit_action|].
  intros _. apply Structural_bind; [structural|]. intros _.
  apply Structural_bind; [apply Structural_forEach; apply Structural_BeginEnter|].
  intros _. apply Structural_EndEnter.
Qed.

Lemma Structural_Process_regions (f : ref -> M JSVal) regions :
  (forall x, Structural (f x)) ->
  forall processed, Structural (Process_regions f regions processed).
Proof.
  intros Hf. induction regions as [|region rest IH]; simpl; intros processed;
    [apply Structural_ret|].
  apply Structural_bind; [apply Structural_getRegion|]. intros r.
  destruct (Region.IsActive r); [|apply IH].
  apply Structural_bind; [apply Hf|]. intros v. apply IH.
Qed.

Lemma Structural_Process_methods n :
  (forall this message, Structural (State_Process n this message)) /\
  (forall this message, Structural (Region_Process n this message)).
Proof.
  induction n as [|n [IHs IHr]]; [split; intros; apply Structural_diverge|].
  split; intros; simpl.
  - apply Structural_bind; [structural|]. intros st.
    apply Structural_bind; [structural|]. intros [t|].
    + apply Structural_bind; [apply Structural_Transition_Traverse | structural].
    + destruct (negb (State.IsSimple st)); [|structural].
      apply Structural_bind; [|structural].
      apply Structural_Process_regions. intros region. apply IHr.
  - apply Structural_bind; [structural|]. intros r.
    destruct (Region.Current r); [|structural].
    apply Structural_bind; [|structural].
    unfold Process_of. apply Structural_bind; [structural|]. intros []; structural.
Qed.

(** X17. Processing a message and initialising, whether they return or throw,
    create no object and remove none, and change nothing of an object but
    its [IsActive] flag and, of a region, its [Current] vertex: names,
    parents, vertices, regions, actions, completions and transitions are
    those of the model as it was built. *)
Theorem run_preserves_model (n : nat) (x : ref) (message : Message) (deepHistory : bool)
  (s s' : Store) :
  (exists v out, State_Process n x message s = Ok v s' out) \/
  (exists e out, State_Process n x message s = Throw e s' out) \/
  (exists out, Initialise n x deepHistory s = Ok tt s' out) \/
  (exists e out, Initialise n x deepHistory s = Throw e s' out) ->
  next s' = next s /\
  forall y o, heap s !! y = Some o ->
    exists o', heap s' !! y = Some o' /\ shape o' = shape o.
Proof.
  intros H.
  pose proof (proj1 (Structural_Process_methods n) x message s) as HP.
  pose proof (Structural_Initialise n x deepHistory s) as HI.
  assert (Hm : same_model s s').
  { destruct H as [(v & out & H)|[(e & out & H)|[(out & H)|(e & out & H)]]];
      rewrite H in *; done. }
  destruct Hm as [Hn F]. split; [done|]. intros y o Hy.
  specialize (F y). rewrite Hy in F.
  destruct (heap s' !! y) as [o'|]; [|done]. exists o'. split; [done|]. by injection F.
Qed.

Lemma run_preserves_model_witness :
  let s' := store_of (State_Process 6 0 "go" toggle_store) in
  events_of (State_Process 6 0 "go" toggle_store)
  = [Call "exit A" None; LogLeave 3; Call "effect" (Some "go"); LogEnter 4;
     Call "entry B" None] /\
  next s' = next toggle_store /\
  forall y o, heap toggle_store !! y = Some o ->
    exists o', heap s' !! y = Some o' /\ shape o' = shape o.
Proof.
  intros s'. split; [vm_compute; reflexivity|].
  apply (run_preserves_model 6 0 "go" false toggle_store s').
  left. exists (VBool false), (trace_of (State_Process 6 0 "go" toggle_store)).
  vm_compute. reflexivity.
Defined.

(** ** Constructing a state *)

(** An ancestry is the same in two heaps that agree on the parents. *)
Lemma Ancestors_agree (s s' : Store) :
  (forall x o, heap s !! x = Some o ->
     exists o', heap s' !! x = Some o' /\ Parent_of o' = Parent_of o) ->
  forall n node l, Ancestors n node s = Ok l s [] -> Ancestors n node s' = Ok l s' [].
Proof.
  intros Hagree. induction n as [|n IH]; [done|]. simpl. intros node l H.
  apply bind_Ok in H as (o & s1 & o1 & o2 & Hd & H & _).
  unfold deref in Hd. destruct (heap s !! node) as [o0|] eqn:Hnode; [|done].
  injection Hd as -> <- _.
  destruct (Hagree _ _ Hnode) as (o' & Hnode' & HP).
  rewrite (bind_run _ _ _ _ _ (deref_run _ _ _ Hnode')), HP.
  destruct (Parent_of o) as [p|]; [|by injection H as <-].
  apply bind_Ok in H as (l' & s2 & o3 & o4 & Ha & H & _).
  destruct (Ancestors_pure _ _ _ _ _ _ Ha) as [-> ->]. injection H as <-.
  by rewrite (bind_run _ _ _ _ _ (IH _ _ Ha)).
Qed.

(** X18. [new State( name, region )] returns a new object that is inactive, has
    no actions, regions, completions or transitions, and has the region as
    [Parent]; the region has it as its last vertex, and no other object is
    changed.  The ancestry of the new state is that of the region followed
    by the state. *)
Theorem new_State_in_region (name : string) (region : ref) (s : Store) (r : Region.t) :
  heap s !! region = Some (ORegion r) ->
  heap s !! next s = None ->
  let this := next s in
  exists s',
    new_State name (Some region) s = Ok this s' [] /\
    heap s' !! this = Some (OState (State.mk name (Some region) false [] [] [] [] [] None)) /\
    heap s' !! region = Some (ORegion (Region.push_Vertices this r)) /\
    (forall x, x <> this -> x <> region -> heap s' !! x = heap s !! x) /\
    forall n l, Ancestors n region s = Ok l s [] ->
      Ancestors (S n) this s' = Ok (l ++ [this]) s' [].
Proof.
  intros Hregion Hfresh this.
  assert (Hne : this <> region) by (intros E; subst this; congruence).
  set (st := State.mk name (Some region) false [] [] [] [] [] None).
  set (sa := mkStore (<[this := OState st]> (heap s)) (S this)).
  set (s' := mkStore (<[region := ORegion (Region.push_Vertices this r)]> (heap sa)) (next sa)).
  assert (Hthis' : heap s' !! this = Some (OState st)).
  { subst s' sa. simpl. rewrite lookup_insert_ne by done. apply lookup_insert_eq. }
  assert (Hregion' : heap s' !! region = Some (ORegion (Region.push_Vertices this r))).
  { subst s'. simpl. apply lookup_insert_eq. }
  exists s'. split; [|split; [done|split; [done|split]]].
  - unfold new_State.
    rewrite (bind_run _ _ _ _ _ (default_region_of_Region _ _ _ Hregion)).
    rewrite (bind_run _ _ _ _ _ (getRegion_run _ _ _ Hregion)).
    assert (Hal : alloc (OState st) s = Ok this sa []) by done.
    rewrite (bind_run _ _ _ _ _ Hal).
    by rewrite (bind_run _ _ _ _ _ (store_run _ _ _)).
  - intros x Hx1 Hx2. subst s' sa. simpl. by rewrite !lookup_insert_ne.
  - intros n l Ha.
    eapply (Ancestors_child n this (OState st) region l s' s' []); [done|done|].
    apply (Ancestors_agree s); [|done].
    intros x o Hx. destruct (decide (x = region)) as [->|Hxr].
    + rewrite Hregion in Hx. injection Hx as <-. by eexists.
    + exists o. split; [|done]. subst s' sa. simpl.
      rewrite !lookup_insert_ne; [done| |done].
      intros E. rewrite <- E in Hx. unfold this in Hx. congruence.
Qed.

Lemma new_State_in_region_witness :
  exists s',
    new_State "a" (Some 1) one_region_store = Ok 2 s' [] /\
    heap s' !! 2 = Some (OState (State.mk "a" (Some 1) false [] [] [] [] [] None)) /\
    heap s' !! 1
    = Some (ORegion (Region.push_Vertices 2 (Region.mk "r" (Some 0) false [] None None))) /\
    (forall x, x <> 2 -> x <> 1 -> heap s' !! x = heap one_region_store !! x) /\
    forall n l, Ancestors n 1 one_region_store = Ok l one_region_store [] ->
      Ancestors (S n) 2 s' = Ok (l ++ [2]) s' [].
Proof.
  apply (new_State_in_region "a" 1 one_region_store
           (Region.mk "r" (Some 0) false [] None None)).
  - vm_compute. reflexivity.
  - vm_compute. reflexivity.
Defined.

(** ** Leaving a region and entering it again with history *)

(** X19. Leaving an active region whose [Current] vertex is an active simple
    state, and initialising it again, with [deepHistory] or with an initial
    pseudo state of a history kind, enters the same state again, not the
    target of the initial pseudo state, and ends in the very heap it
    started from: the exit actions of the state are called and the state
    and the region are left, then the region and the state are entered and
    the entry actions of the state are called.  When no completion
    transition of the state is enabled the second call returns.  When
    exactly one is, all of the above happens, the heap is the one it started
    from, and then a TypeError is raised; when two or more are, the error
    of [singleOrDefault] is. *)
Theorem Region_history_round_trip (n : nat) (this initial current : ref)
  (deepHistory : bool) (s : Store) (r : Region.t) (p : PseudoState.t) (sa : State.t) :
  heap s !! this = Some (ORegion r) ->
  Region.IsActive r = true -> Region.Current r = Some current ->
  Region.Initial r = Some initial ->
  heap s !! initial = Some (OPseudoState p) ->
  deepHistory || PseudoStateKind.IsHistory (PseudoState.Kind p) = true ->
  heap s !! current = Some (OState sa) ->
  State.IsActive sa = true -> State.Parent sa = Some this ->
  State.Regions sa = [] ->
  let s1 := mkStore (<[current := OState (State.set_IsActive false sa)]> (heap s)) (next s) in
  let s2 := mkStore (<[this := ORegion (Region.set_IsActive false r)]> (heap s1)) (next s) in
  let s3 := mkStore (<[this := ORegion r]> (heap s2)) (next s) in
  let out := (LogEnter this, s2) :: (LogEnter current, s3)
             :: map (fun x => (Call x None, s)) (State.Entry sa) in
  Region_OnExit (S (S n)) this s
  = Ok tt s2 (map (fun x => (Call x None, s)) (State.Exit sa)
              ++ [(LogLeave current, s); (LogLeave this, s1)]) /\
  Region_Initialise (S (S n)) this deepHistory s2
  = match List.filter Completion.Guard (State.Completions sa) with
    | [] => Ok tt s out
    | [_] => Throw TypeError s out
    | _ => Throw (Error "Cannot return more than one elements") s out
    end.
Proof.
  intros Hthis Hon Hcur Hini Hp Hhist Ha Haon HPa HRa s1 s2 s3 out.
  assert (Hti : this <> initial) by (intros ->; congruence).
  assert (Hta : this <> current) by (intros ->; congruence).
  assert (Hia : initial <> current) by (intros ->; congruence).
  assert (H1t : heap s1 !! this = Some (ORegion r)).
  { subst s1. simpl. by rewrite lookup_insert_ne. }
  assert (H2t : heap s2 !! this = Some (ORegion (Region.set_IsActive false r))).
  { subst s2. simpl. apply lookup_insert_eq. }
  assert (Hr : Region.set_IsActive true (Region.set_IsActive false r) = r).
  { destruct r. simpl in Hon. by subst. }
  assert (Hsa : State.set_IsActive true (State.set_IsActive false sa) = sa).
  { destruct sa. simpl in Haon. by subst. }
  assert (Hrc : Region.set_Current current r = r).
  { destruct r. simpl in Hcur. by subst. }
  assert (H3t : heap s3 !! this = Some (ORegion r)).
  { subst s3. simpl. apply lookup_insert_eq. }
  assert (H3i : heap s3 !! initial = Some (OPseudoState p)).
  { subst s3 s2 s1. simpl. by rewrite !lookup_insert_ne. }
  assert (H3a : heap s3 !! current = Some (OState (State.set_IsActive false sa))).
  { subst s3 s2 s1. simpl. rewrite !lookup_insert_ne by done. apply lookup_insert_eq. }
  assert (Hback : mkStore (<[this := ORegion (Region.set_Current current r)]>
                             (<[current := OState (State.set_IsActive true
                                                     (State.set_IsActive false sa))]>
                                (heap s3))) (next s3) = s).
  { rewrite Hrc, Hsa. destruct s as [h nx]. subst s3 s2 s1. simpl in *. f_equal.
    apply map_eq. intros i.
    destruct (decide (i = this)) as [->|Hi]; [by rewrite lookup_insert_eq|].
    rewrite lookup_insert_ne by done.
    destruct (decide (i = current)) as [->|Hj]; [by rewrite lookup_insert_eq|].
    by rewrite !lookup_insert_ne. }
  split.
  - change (Region_OnExit (S (S n)) this)
      with (let* r := getRegion this in
            match Region.Current r with
            | Some current =>
                let* o := deref current in
                if IsActive_of o
                then OnExit_of (Region_OnExit (S n)) (State_OnExit (S n)) current
                else ret tt
            | None => ret tt
            end ;;
            emit (LogLeave this) ;;
            let* r := getRegion this in
            store this (ORegion (Region.set_IsActive false r))).
    rewrite (bind_run _ _ _ _ _ (getRegion_run _ _ _ Hthis)), Hcur.
    rewrite ?bind_assoc. rewrite (bind_run _ _ _ _ _ (deref_run _ _ _ Ha)).
    cbn [IsActive_of]. rewrite Haon. unfold OnExit_of.
    rewrite ?bind_assoc. rewrite (bind_run _ _ _ _ _ (deref_run _ _ _ Ha)).
    rewrite (bind_step _ _ _ _ _ _ (State_OnExit_simple n current s sa Ha HRa)).
    fold s1. rewrite (bind_step _ _ _ _ _ _ (emit_run _ _)).
    rewrite (bind_run _ _ _ _ _ (getRegion_run _ _ _ H1t)).
    rewrite store_run. fold s2. by rewrite <- app_assoc.
  - rewrite Region_Initialise_S.
    rewrite (bind_step _ _ _ _ _ _
               (Region_BeginEnter_inactive _ _ _ _ H2t eq_refl)).
    rewrite Hr. fold s3.
    rewrite (bind_run _ _ _ _ _ (getRegion_run _ _ _ H3t)).
    rewrite Hini, Hcur.
    rewrite (history_run deepHistory initial p s3 _ H3i), Hhist.
    cbn [andb]. rewrite bool_decide_eq_true_2 by by eexists.
    unfold Initialise_of.
    rewrite (bind_run _ _ _ _ _ (deref_run _ _ _ H3a)).
    rewrite (bind_step _ _ _ _ _ _
               (State_BeginEnter_inactive (S n) current s3 _ this r H3a eq_refl HPa H3t)).
    rewrite Hback.
    rewrite (State_EndEnter_simple_outcome n current false s sa Ha HRa). unfold out.
    destruct (List.filter Completion.Guard (State.Completions sa)) as [|c1 [|c2 cs]];
      simpl; by rewrite ?app_nil_r.
Qed.

Lemma Region_history_round_trip_witness :
  let s2 := store_of (Region_OnExit 2 1 history_store) in
  events_of (Region_OnExit 2 1 history_store)
  = [Call "exit B" None; LogLeave 4; LogLeave 1] /\
  events_of (Region_Initialise 2 1 false s2)
  = [LogEnter 1; LogEnter 4; Call "entry B" None] /\
  store_of (Region_Initialise 2 1 false s2) = history_store /\
  exists s1 s3,
    Region_OnExit 2 1 history_store
    = Ok tt s2 [(Call "exit B" None, history_store); (LogLeave 4, history_store);
                (LogLeave 1, s1)] /\
    Region_Initialise 2 1 false s2
    = Ok tt history_store [(LogEnter 1, s2); (LogEnter 4, s3);
                           (Call "entry B" None, history_store)].
Proof.
  intros s2. split; [vm_compute; reflexivity|]. split; [vm_compute; reflexivity|].
  split; [vm_compute; reflexivity|].
  do 2 eexists.
  pose proof (Region_history_round_trip 0 1 2 4 false history_store
           (Region.mk "default" (Some 0) true [2; 3; 4] (Some 2) (Some 4))
           (PseudoState.mk PseudoStateKind.ShallowHistory 1
              [Completion.mk true (PathObj.mk [Some 2] [3] 3) []] (Some false))
           (State.mk "B" (Some 1) true ["entry B"] ["exit B"] [] [] [] None)) as H.
  cbv zeta in H.
  apply H; vm_compute; reflexivity.
Defined.

(** ** Constructing states below a state *)

Lemma State_DefaultRegion_fresh parent s st :
  heap s !! parent = Some (OState st) -> State.defaultRegion st = None ->
  parent <> next s ->
  State_DefaultRegion parent s
  = Ok (next s)
      (mkStore (<[parent := OState (State.set_defaultRegion (next s)
                                      (State.push_Regions (next s) st))]>
                  (<[next s := ORegion (Region.mk "default" (Some parent) false [] None None)]>
                     (heap s)))
         (S (next s))) [].
Proof.
  intros Hp Hd Hne. unfold State_DefaultRegion.
  rewrite (bind_run _ _ _ _ _ (getState_run _ _ _ Hp)), Hd.
  unfold new_Region. rewrite ?bind_assoc.
  set (r := Region.mk "default" (Some parent) false [] None None).
  set (sa := mkStore (<[next s := ORegion r]> (heap s)) (S (next s))).
  assert (Hal : alloc (ORegion r) s = Ok (next s) sa []) by done.
  rewrite (bind_run _ _ _ _ _ Hal).
  assert (Hpa : heap sa !! parent = Some (OState st)).
  { subst sa. simpl. by rewrite lookup_insert_ne. }
  rewrite ?bind_assoc. rewrite (bind_run _ _ _ _ _ (getState_run _ _ _ Hpa)).
  rewrite (bind_run _ _ _ _ _ (store_run _ _ _)).
  rewrite (bind_run _ _ _ _ _ (ret_run _ _)).
  match goal with
  | |- bind (getState parent) _ ?s0 = _ =>
      assert (Hpb : heap s0 !! parent = Some (OState (State.push_Regions (next s) st)))
        by apply lookup_insert_eq
  end.
  rewrite (bind_run _ _ _ _ _ (getState_run _ _ _ Hpb)).
  rewrite (bind_run _ _ _ _ _ (store_run _ _ _)).
  unfold ret. simpl. by rewrite insert_insert_eq.
Qed.

(** X20. The first state constructed with a State as parent creates the
    default region of the parent, which becomes a region of the parent;
    the second one is put into the same region.  The region holds the two
    states as its vertices, in the order of their construction, and is
    their [Parent]. *)
Theorem new_State_default_region (name1 name2 : string) (parent : ref) (s : Store)
  (st : State.t) :
  heap s !! parent = Some (OState st) ->
  State.defaultRegion st = None ->
  parent < next s ->
  let region := next s in
  let a := S (next s) in
  let b := S (S (next s)) in
  exists s1 s2,
    new_State name1 (Some parent) s = Ok a s1 [] /\
    new_State name2 (Some parent) s1 = Ok b s2 [] /\
    heap s2 !! parent
    = Some (OState (State.set_defaultRegion region (State.push_Regions region st))) /\
    heap s2 !! region
    = Some (ORegion (Region.mk "default" (Some parent) false [a; b] None None)) /\
    heap s2 !! a = Some (OState (State.mk name1 (Some region) false [] [] [] [] [] None)) /\
    heap s2 !! b = Some (OState (State.mk name2 (Some region) false [] [] [] [] [] None)).
Proof.
  intros Hp Hd Hlt region a b.
  assert (Hpr : parent <> region) by (unfold region; lia).
  assert (Hpa : parent <> a) by (unfold a; lia).
  assert (Hpb : parent <> b) by (unfold b; lia).
  assert (Hra : region <> a) by (unfold region, a; lia).
  assert (Hrb : region <> b) by (unfold region, b; lia).
  assert (Hab : a <> b) by (unfold a, b; lia).
  set (st' := State.set_defaultRegion region (State.push_Regions region st)).
  set (r0 := Region.mk "default" (Some parent) false [] None None).
  set (sA := mkStore (<[parent := OState st']> (<[region := ORegion r0]> (heap s))) a).
  set (oa := OState (State.mk name1 (Some region) false [] [] [] [] [] None)).
  set (ob := OState (State.mk name2 (Some region) false [] [] [] [] [] None)).
  set (s1 := mkStore (<[region := ORegion (Region.push_Vertices a r0)]>
                        (<[a := oa]> (heap sA))) b).
  set (s2 := mkStore (<[region := ORegion (Region.push_Vertices b (Region.push_Vertices a r0))]>
                        (<[b := ob]> (heap s1))) (S b)).
  assert (HAr : heap sA !! region = Some (ORegion r0)).
  { subst sA. simpl. rewrite lookup_insert_ne by done. apply lookup_insert_eq. }
  assert (H1p : heap s1 !! parent = Some (OState st')).
  { subst s1 sA. simpl. rewrite !lookup_insert_ne by done. apply lookup_insert_eq. }
  assert (H1r : heap s1 !! region = Some (ORegion (Region.push_Vertices a r0))).
  { subst s1. simpl. apply lookup_insert_eq. }
  exists s1, s2. split; [|split; [|split; [|split; [|split]]]].
  - unfold new_State, default_region_of. rewrite ?bind_assoc.
    rewrite (bind_run _ _ _ _ _ (deref_run _ _ _ Hp)).
    rewrite (bind_run _ _ _ _ _ (State_DefaultRegion_fresh _ _ _ Hp Hd Hpr)).
    fold region st' r0 a sA.
    rewrite (bind_run _ _ _ _ _ (getRegion_run _ _ _ HAr)).
    assert (Hal : alloc oa sA = Ok a (mkStore (<[a := oa]> (heap sA)) b) []) by done.
    rewrite (bind_run _ _ _ _ _ Hal).
    by rewrite (bind_run _ _ _ _ _ (store_run _ _ _)).
  - unfold new_State, default_region_of. rewrite ?bind_assoc.
    rewrite (bind_run _ _ _ _ _ (deref_run _ _ _ H1p)).
    unfold State_DefaultRegion.
    rewrite ?bind_assoc. rewrite (bind_run _ _ _ _ _ (getState_run _ _ _ H1p)).
    cbn [State.defaultRegion st' State.set_defaultRegion].
    rewrite (bind_run _ _ _ _ _ (ret_run _ _)).
    rewrite (bind_run _ _ _ _ _ (getRegion_run _ _ _ H1r)).
    assert (Hal : alloc ob s1 = Ok b (mkStore (<[b := ob]> (heap s1)) (S b)) []) by done.
    rewrite (bind_run _ _ _ _ _ Hal).
    by rewrite (bind_run _ _ _ _ _ (store_run _ _ _)).
  - subst s2. simpl. by do 2 rewrite lookup_insert_ne by done.
  - subst s2. simpl. apply lookup_insert_eq.
  - subst s2 s1. simpl. rewrite !lookup_insert_ne by done. apply lookup_insert_eq.
  - subst s2. simpl. rewrite lookup_insert_ne by done. apply lookup_insert_eq.
Qed.

Lemma new_State_default_region_witness :
  exists s1 s2,
    new_State "A" (Some 0) lone_state_store = Ok 2 s1 [] /\
    new_State "B" (Some 0) s1 = Ok 3 s2 [] /\
    heap s2 !! 0
    = Some (OState (State.mk "S" None false [] [] [1] [] [] (Some 1))) /\
    heap s2 !! 1
    = Some (ORegion (Region.mk "default" (Some 0) false [2; 3] None None)) /\
    heap s2 !! 2 = Some (OState (State.mk "A" (Some 1) false [] [] [] [] [] None)) /\
    heap s2 !! 3 = Some (OState (State.mk "B" (Some 1) false [] [] [] [] [] None)).
Proof.
  apply (new_State_default_region "A" "B" 0 lone_state_store
           (State.mk "S" None false [] [] [] [] [] None)).
  - vm_compute. reflexivity.
  - reflexivity.
  - vm_compute. lia.
Defined.
